(** * A SAT-based Sudoku solver (src/main.py): encoding, decoding, uniqueness

    The development embeds the functions [v], [sudoku_clauses] (with its
    local closure [valid]), [solve] (with its local closure [read_cell]) and
    [is_proper] of [src/main.py].  Python integers are unbounded, so they are
    modelled by [Z]; Python lists by [list]; the list [res] that
    [sudoku_clauses] grows by [append] is threaded through the loops as an
    explicit accumulator; the grid that [solve] overwrites in place and the
    clause list that [is_proper] extends in place are the state of a small
    state-and-exception monad, together with the log of the instances handed
    to the external SAT engine [pycosat.solve]. *)

From Stdlib Require Import String.
From Stdlib Require Import ZArith List Lia Bool Permutation.
From Stdlib Require Import Recdef.
Import ListNotations.
Open Scope Z_scope.

(** ** Python preliminaries *)

Module Py.

(** [range(a, b)] for integers. *)
Definition range (a b : Z) : list Z :=
  map (fun k => a + Z.of_nat k) (seq 0 (Z.to_nat (b - a))).

(** [enumerate(xs)]. *)
Definition enumerate {A : Type} (xs : list A) : list (Z * A) :=
  combine (range 0 (Z.of_nat (length xs))) xs.

(** A [for x in xs: body] loop whose body updates the state [s]. *)
Definition for_each {A S : Type} (xs : list A) (body : A -> S -> S) (s : S) : S :=
  fold_left (fun s x => body x s) xs s.

(** The exceptions that the modelled code can raise. *)
Inductive exn : Type :=
| AssertionError
| IndexError
| TypeError
| NameError
| ValueError.

(** Outcome of a computation that may raise. *)
Inductive result (A : Type) : Type :=
| Ok (a : A)
| Raise (e : exn).
Arguments Ok {A} a.
Arguments Raise {A} e.

(** The values a grid cell can hold: an integer, or [None]
    (what a function returns when it falls off its end). *)
Inductive value : Type :=
| Int (n : Z)
| NoneV.

(** Truth value of [if d:]. *)
Definition truthy (d : value) : bool :=
  match d with
  | Int n => negb (n =? 0)
  | NoneV => false
  end.

(** [xs[k]] for a list and an index [k >= 0] (the only indices the
    modelled code computes are [i - 1] for [i] in [range(1, 10)]). *)
Definition index {A : Type} (xs : list A) (k : Z) : result A :=
  if k <? 0 then Raise IndexError
  else match nth_error xs (Z.to_nat k) with
       | Some x => Ok x
       | None => Raise IndexError
       end.

(** The list [xs] after [xs[k] = x], for an index [k >= 0]. *)
Fixpoint update {A : Type} (xs : list A) (k : nat) (x : A) : list A :=
  match xs, k with
  | [], _ => []
  | _ :: tl, O => x :: tl
  | hd :: tl, S k' => hd :: update tl k' x
  end.

End Py.
Import Py.

(** ** Clauses and the variable numbering *)

Definition literal := Z.
Definition clause := list literal.

(** [v(i, j, d)], lines 25-30.  The sum is the one of Python's integers,
    which have no bound; where [d] is a 64-bit cell of a numpy array it is
    the same number as long as it stays below [2 ^ 63], see [int64_grid]. *)
Definition v (i j d : Z) : Z := 81 * (i - 1) + 9 * (j - 1) + d.

(** ** [sudoku_clauses], lines 33-70 *)

(** The first loop nest, lines 41-48. *)
Definition cell_loops (res : list clause) : list clause :=
  for_each (range 1 10) (fun i res =>
    for_each (range 1 10) (fun j res =>
      let res := res ++ [map (fun d => v i j d) (range 1 10)] in
      for_each (range 1 10) (fun d res =>
        for_each (range (d + 1) 10) (fun dp res =>
          res ++ [[- v i j d; - v i j dp]]) res) res) res) res.

(** The closure [valid(cells)], lines 50-58: it appends to [res]. *)
Definition valid (cells : list (Z * Z)) (res : list clause) : list clause :=
  for_each (enumerate cells) (fun ixi res =>
    let '(i, xi) := ixi in
    for_each (enumerate cells) (fun jxj res =>
      let '(j, xj) := jxj in
      if i <? j then
        for_each (range 1 10) (fun d res =>
          res ++ [[- v (fst xi) (snd xi) d; - v (fst xj) (snd xj) d]]) res
      else res) res) res.

(** The cell lists passed to [valid], lines 62, 63 and 67. *)
Definition row_cells (i : Z) : list (Z * Z) := map (fun j => (i, j)) (range 1 10).
Definition col_cells (i : Z) : list (Z * Z) := map (fun j => (j, i)) (range 1 10).
Definition box_cells (i j : Z) : list (Z * Z) :=
  map (fun k => (i + k mod 3, j + k / 3)) (range 0 9).

(** The second and third loop nests, lines 61-67. *)
Definition group_loops (res : list clause) : list clause :=
  let res :=
    for_each (range 1 10) (fun i res =>
      let res := valid (row_cells i) res in
      valid (col_cells i) res) res in
  for_each [1; 4; 7] (fun i res =>
    for_each [1; 4; 7] (fun j res =>
      valid (box_cells i j) res) res) res.

(** The list [res] when the [assert] of line 69 is reached. *)
Definition sudoku_res : list clause := group_loops (cell_loops []).

Definition sudoku_clauses : result (list clause) :=
  let res := sudoku_res in
  if Z.of_nat (length res) =? 81 * (1 + 36) + 27 * 324
  then Ok res
  else Raise AssertionError.

(** ** The SAT engine and the state of a call *)

(** What [pycosat.solve] returns: a list of signed integers (a model), or one
    of the strings ["UNSAT"] and ["UNKNOWN"]. *)
Inductive solution : Type :=
| SolList (m : list Z)
| SolStr (s : string).

(** [isinstance(sol, list)]. *)
Definition is_list (sol : solution) : bool :=
  match sol with
  | SolList _ => true
  | SolStr _ => false
  end.

(** The engine is external: a function from the submitted instance to what
    the call returns or raises. *)
Definition engine := list clause -> result solution.

(** The state a call works on: the mutable object its caller owns (the grid
    of [solve], the clause list of [is_proper]) and the instances submitted to
    the engine so far, oldest first. *)
Record store (X : Type) : Type := mkStore {
  obj : X;
  calls : list (list clause)
}.
Arguments mkStore {X} obj calls.
Arguments obj {X} s.
Arguments calls {X} s.

(** State-and-exception monad: an exception keeps the state reached. *)
Definition M (X A : Type) : Type := store X -> result A * store X.

Definition ret {X A : Type} (a : A) : M X A := fun s => (Ok a, s).

Definition raise {X A : Type} (e : exn) : M X A := fun s => (Raise e, s).

Definition bind {X A B : Type} (m : M X A) (k : A -> M X B) : M X B :=
  fun s =>
    match m s with
    | (Ok a, s') => k a s'
    | (Raise e, s') => (Raise e, s')
    end.

Notation "x <- m ;; k" := (bind m (fun x => k))
  (at level 61, m at next level, right associativity).
Notation "m ;;; k" := (bind m (fun _ => k))
  (at level 61, right associativity).

Definition lift {X A : Type} (r : result A) : M X A := fun s => (r, s).

Definition get_obj {X : Type} : M X X := fun s => (Ok (obj s), s).

Definition set_obj {X : Type} (x : X) : M X unit :=
  fun s => (Ok tt, mkStore x (calls s)).

(** A [for] loop whose body may raise and that carries the local [acc]. *)
Fixpoint for_eachM {X A S : Type} (xs : list A) (body : A -> S -> M X S) (acc : S)
  : M X S :=
  match xs with
  | [] => ret acc
  | x :: xs' => acc' <- body x acc ;; for_eachM xs' body acc'
  end.

(** ** [solve] and [is_proper], lines 73-119 *)

(** A grid is a list of rows; each row is a list of cells. *)
Definition grid := list (list value).

(** Module-level constants, lines 19 and 21. *)
Definition single_solve_count : Z := 1.
Definition solve_time_len : Z := 82.

(** [v(i, j, d) in sol], line 105: membership in a list; an integer on the
    left of [in] with a string on the right raises [TypeError]. *)
Definition contains (sol : solution) (x : Z) : result bool :=
  match sol with
  | SolList m => Ok (existsb (Z.eqb x) m)
  | SolStr _ => Raise TypeError
  end.

(** The loop of [read_cell], lines 104-106, over the digits still to try;
    falling off the end returns [None]. *)
Fixpoint read_cell_from (sol : solution) (i j : Z) (ds : list Z) : result value :=
  match ds with
  | [] => Ok NoneV
  | d :: ds' =>
      match contains sol (v i j d) with
      | Raise e => Raise e
      | Ok true => Ok (Int d)
      | Ok false => read_cell_from sol i j ds'
      end
  end.

(** The closure [read_cell(i, j)], lines 102-106. *)
Definition read_cell (sol : solution) (i j : Z) : result value :=
  read_cell_from sol i j (range 1 10).

(** [grid[i - 1][j - 1]], line 80. *)
Definition grid_get (g : grid) (i j : Z) : result value :=
  match index g (i - 1) with
  | Raise e => Raise e
  | Ok row => index row (j - 1)
  end.

(** The grid after [grid[i - 1][j - 1] = x], line 110, for a list of lists
    (which stores any value, [None] included).  An integer array of numpy
    stores the integers alike and refuses [None] with [TypeError]: the two
    differ only where [None] is written, see [copy_outcome]. *)
Definition grid_set (g : grid) (i j : Z) (x : value) : result grid :=
  match index g (i - 1) with
  | Raise e => Raise e
  | Ok row =>
      match index row (j - 1) with
      | Raise e => Raise e
      | Ok _ =>
          Ok (update g (Z.to_nat (i - 1)) (update row (Z.to_nat (j - 1)) x))
      end
  end.

(** The loops of lines 78-87, appending to [clauses]. *)
Definition clue_loops (clauses : list clause) : M grid (list clause) :=
  for_eachM (range 1 10) (fun i clauses =>
    for_eachM (range 1 10) (fun j clauses =>
      g <- get_obj ;;
      d <- lift (grid_get g i j) ;;
      match d with
      | Int n => if truthy d then ret (clauses ++ [[v i j n]]) else ret clauses
      | NoneV => ret clauses
      end) clauses) clauses.

(** Lines 94-95: the timings are wall-clock floats and are not modelled; what
    remains of [solve_time[current_number] += ...] is the bounds check of the
    82-element array (negative indices count from its end). *)
Definition record_time (current_number : Z) : M grid unit :=
  if (- solve_time_len <=? current_number) && (current_number <? solve_time_len)
  then ret tt
  else raise IndexError.

(** Lines 108-110, for the closure [read] called at line 110. *)
Definition write_loops (read : Z -> Z -> result value) : M grid unit :=
  for_eachM (range 1 10) (fun i (_ : unit) =>
    for_eachM (range 1 10) (fun j (_ : unit) =>
      d <- lift (read i j) ;;
      g <- get_obj ;;
      g' <- lift (grid_set g i j d) ;;
      set_obj g') tt) tt.

(** Lines 77-87: the clause list built for the grid. *)
Definition encode : M grid (list clause) :=
  clauses <- lift sudoku_clauses ;;
  clue_loops clauses.

Section WithEngine.

Variable pycosat_solve : engine.

(** [pycosat.solve(clauses)]: the instance is logged, the answer is the
    engine's. *)
Definition ask {X : Type} (cs : list clause) : M X solution :=
  fun s => (pycosat_solve cs, mkStore (obj s) (calls s ++ [cs])).

(** [solve(grid, current_number)], lines 73-110. *)
Definition solve (current_number : Z) : M grid unit :=
  clauses <- encode ;;
  sol <- for_eachM (range 0 single_solve_count)
           (fun m (_ : option solution) => s <- ask clauses ;; ret (Some s))
           None ;;
  record_time current_number ;;;
  write_loops (fun i j =>
    match sol with
    | Some sol => read_cell sol i j
    | None => Raise NameError
    end).

(** [is_proper(clauses)], lines 113-119; the state is the caller's list. *)
Definition is_proper : M (list clause) bool :=
  clauses <- get_obj ;;
  sol <- ask clauses ;;
  neg <- match sol with
         | SolList m => ret (map Z.opp m)
         | SolStr EmptyString => ret []
         | SolStr (String _ _) => raise TypeError
         end ;;
  clauses <- get_obj ;;
  set_obj (clauses ++ [neg]) ;;;
  clauses <- get_obj ;;
  sol <- ask clauses ;;
  if is_list sol then ret false else ret true.

End WithEngine.

(** ** What the clauses mean *)

(** A valuation gives a truth value to every variable. *)
Definition valuation := Z -> bool.

Definition lit_true (rho : valuation) (l : literal) : bool :=
  if 0 <? l then rho l
  else if l <? 0 then negb (rho (- l))
  else false.

Definition clause_true (rho : valuation) (c : clause) : bool :=
  existsb (lit_true rho) c.

Definition models (rho : valuation) (cs : list clause) : Prop :=
  Forall (fun c => clause_true rho c = true) cs.

Definition satisfiable (cs : list clause) : Prop :=
  exists rho, models rho cs.

(** The engine's answer, read as a set of asserted literals. *)
Definition asserted (m : list Z) (l : literal) : bool := existsb (Z.eqb l) m.

(** No variable is asserted with both signs. *)
Definition consistent (m : list Z) : Prop :=
  forall l, asserted m l = true -> asserted m (- l) = false.

(** Every clause has an asserted literal. *)
Definition satisfies (m : list Z) (cs : list clause) : Prop :=
  Forall (fun c => existsb (asserted m) c = true) cs.

Definition consistentb (m : list Z) : bool :=
  forallb (fun l => negb (asserted m (- l))) m.

Definition satisfiesb (m : list Z) (cs : list clause) : bool :=
  forallb (fun c => existsb (asserted m) c) cs.

(** ** Grids and completed Sudokus *)

(** The cell in row [i] and column [j], both counted from 1. *)
Definition cell (g : grid) (i j : Z) : value :=
  nth (Z.to_nat (j - 1)) (nth (Z.to_nat (i - 1)) g []) NoneV.

(** Nine rows of nine cells. *)
Definition shape9 (g : grid) : Prop :=
  length g = 9%nat /\ Forall (fun row => length row = 9%nat) g.

Definition is_digit09 (x : value) : Prop :=
  exists n, x = Int n /\ 0 <= n <= 9.

(** A puzzle: nine rows of nine integers between 0 and 9. *)
Definition wf_grid (g : grid) : Prop :=
  shape9 g /\ Forall (Forall is_digit09) g.

Definition is_digit09b (x : value) : bool :=
  match x with
  | Int n => (0 <=? n) && (n <=? 9)
  | NoneV => false
  end.

Definition wf_gridb (g : grid) : bool :=
  (length g =? 9)%nat
  && forallb (fun row => (length row =? 9)%nat) g
  && forallb (forallb is_digit09b) g.

(** A grid given by its integers. *)
Definition int_grid (rows : list (list Z)) : grid := map (map Int) rows.

(** A cell value for which line 30 gives the same number whether the cell
    is a Python integer or a 64-bit integer of a numpy array: [v(i, j, d)]
    adds at most [81 * 8 + 9 * 8 = 720] to [d], so no sum reaches [2 ^ 63]. *)
Definition int64_safeb (x : value) : bool :=
  match x with
  | Int d => (- 2 ^ 63 <=? d) && (d <? 2 ^ 63 - 720)
  | NoneV => true
  end.

(** Every cell of the grid holds such a value. *)
Definition int64_grid (g : grid) : bool := forallb (forallb int64_safeb) g.

(** The puzzle [first] of line 136. *)
Definition first : grid := int_grid
  [[0; 2; 0; 0; 0; 0; 0; 0; 0];
   [0; 0; 0; 6; 0; 0; 0; 0; 3];
   [0; 0; 4; 0; 0; 0; 0; 0; 0];
   [0; 0; 0; 0; 0; 0; 0; 0; 2];
   [0; 8; 0; 0; 0; 0; 0; 1; 0];
   [6; 0; 0; 0; 0; 0; 0; 0; 0];
   [0; 0; 0; 0; 0; 0; 0; 0; 0];
   [0; 0; 0; 0; 0; 0; 0; 0; 0];
   [0; 0; 0; 0; 0; 0; 0; 0; 0]].

(** The grid whose only nonzero cell is [grid[0][1] = 2]. *)
Definition one_clue : grid := int_grid
  [[0; 2; 0; 0; 0; 0; 0; 0; 0];
   [0; 0; 0; 0; 0; 0; 0; 0; 0];
   [0; 0; 0; 0; 0; 0; 0; 0; 0];
   [0; 0; 0; 0; 0; 0; 0; 0; 0];
   [0; 0; 0; 0; 0; 0; 0; 0; 0];
   [0; 0; 0; 0; 0; 0; 0; 0; 0];
   [0; 0; 0; 0; 0; 0; 0; 0; 0];
   [0; 0; 0; 0; 0; 0; 0; 0; 0];
   [0; 0; 0; 0; 0; 0; 0; 0; 0]].

(** The rows, columns and 3x3 boxes of the board, as lists of coordinates. *)
Definition board_rows : list (list (Z * Z)) :=
  map (fun i => map (fun j => (i, j)) (range 1 10)) (range 1 10).
Definition board_cols : list (list (Z * Z)) :=
  map (fun j => map (fun i => (i, j)) (range 1 10)) (range 1 10).
Definition board_boxes : list (list (Z * Z)) :=
  flat_map (fun a => map (fun b =>
    flat_map (fun p => map (fun q => (3 * a + p, 3 * b + q)) (range 1 4)) (range 1 4))
    (range 0 3)) (range 0 3).
Definition board_units : list (list (Z * Z)) :=
  board_rows ++ board_cols ++ board_boxes.

Definition unit_values (g : grid) (u : list (Z * Z)) : list value :=
  map (fun x => cell g (fst x) (snd x)) u.

(** A completed Sudoku: every row, column and box is a permutation of 1..9. *)
Definition valid_sudoku (g : grid) : Prop :=
  shape9 g /\
  Forall (fun u => Permutation (unit_values g u) (map Int (range 1 10))) board_units.

(** [c] agrees with the nonzero cells of [g]. *)
Definition agrees (g c : grid) : Prop :=
  forall i j n, 1 <= i <= 9 -> 1 <= j <= 9 ->
    cell g i j = Int n -> n <> 0 -> cell c i j = Int n.

Definition has_completion (g : grid) : Prop :=
  exists c, valid_sudoku c /\ agrees g c.

(** The unit clauses of the nonzero cells, in the order of lines 78-87. *)
Definition clue_clauses (g : grid) : list clause :=
  flat_map (fun i => flat_map (fun j =>
    match cell g i j with
    | Int n => if n =? 0 then [] else [[v i j n]]
    | NoneV => []
    end) (range 1 10)) (range 1 10).

(** ** The clause list as nested comprehensions *)

(** The 37 clauses of one cell, lines 44-48. *)
Definition cell_block (i j : Z) : list clause :=
  map (fun d => v i j d) (range 1 10)
  :: flat_map (fun d =>
       map (fun dp => [- v i j d; - v i j dp]) (range (d + 1) 10)) (range 1 10).

(** The clauses one call of [valid] appends. *)
Definition pair_clauses (cells : list (Z * Z)) : list clause :=
  flat_map (fun ixi =>
    flat_map (fun jxj =>
      if fst ixi <? fst jxj then
        map (fun d => [- v (fst (snd ixi)) (snd (snd ixi)) d;
                       - v (fst (snd jxj)) (snd (snd jxj)) d]) (range 1 10)
      else []) (enumerate cells)) (enumerate cells).

(** The clause "cells [x] and [y] do not both hold [d]", line 58. *)
Definition pair_clause (x y : Z * Z) (d : Z) : clause :=
  [- v (fst x) (snd x) d; - v (fst y) (snd y) d].

(** The 27 cell lists, in the order of the calls of [valid]. *)
Definition groups : list (list (Z * Z)) :=
  flat_map (fun i => [row_cells i; col_cells i]) (range 1 10)
  ++ flat_map (fun i => map (fun j => box_cells i j) [1; 4; 7]) [1; 4; 7].

Definition cell_part : list clause :=
  flat_map (fun i => flat_map (fun j => cell_block i j) (range 1 10)) (range 1 10).

Definition group_part : list clause := flat_map pair_clauses groups.

(** The clauses of lines 44 and 48, collected by kind. *)
Definition cells81 : list (Z * Z) :=
  flat_map (fun i => map (fun j => (i, j)) (range 1 10)) (range 1 10).

Definition at_least_one (x : Z * Z) : clause :=
  map (fun d => v (fst x) (snd x) d) (range 1 10).

Definition not_two (x : Z * Z) : list clause :=
  flat_map (fun d =>
    map (fun dp => [- v (fst x) (snd x) d; - v (fst x) (snd x) dp]) (range (d + 1) 10))
    (range 1 10).

Definition at_least_one_clauses : list clause := map at_least_one cells81.
Definition not_two_clauses : list clause := flat_map not_two cells81.

(** Decidable equality and membership for coordinates and clauses. *)
Definition cell_eqb (x y : Z * Z) : bool := (fst x =? fst y) && (snd x =? snd y).

Definition memc (l : list (Z * Z)) (x : Z * Z) : bool := existsb (cell_eqb x) l.

Fixpoint nodupc (l : list (Z * Z)) : bool :=
  match l with
  | [] => true
  | x :: l' => negb (memc l' x) && nodupc l'
  end.

Fixpoint clause_eqb (c c' : clause) : bool :=
  match c, c' with
  | [], [] => true
  | l :: c1, l' :: c1' => (l =? l') && clause_eqb c1 c1'
  | _, _ => false
  end.

Definition count_clause (c : clause) (cs : list clause) : nat :=
  length (filter (clause_eqb c) cs).

(** Checks run on the 27 cell lists: nine distinct cells of the board, a
    block of 324 clauses, and one clause for each pair of cells and digit. *)
Definition in_board (x : Z * Z) : bool :=
  (1 <=? fst x) && (fst x <=? 9) && (1 <=? snd x) && (snd x <=? 9).

Definition pairs_once (G : list (Z * Z)) : bool :=
  let block := pair_clauses G in
  forallb (fun x => forallb (fun y =>
    cell_eqb x y ||
    forallb (fun d =>
      (count_clause (pair_clause x y d) block
       + count_clause (pair_clause y x d) block =? 1)%nat) (range 1 10)) G) G.

Definition group_ok (G : list (Z * Z)) : bool :=
  (length G =? 9)%nat && nodupc G && forallb in_board G
  && (length (pair_clauses G) =? 324)%nat && pairs_once G.

Definition same_cells (u G : list (Z * Z)) : bool :=
  forallb (memc G) u && forallb (memc u) G.

(** Checks relating the rows, columns and boxes of the board to the cell
    lists of [sudoku_clauses]: the same sets of cells. *)
Definition unit_ok (u : list (Z * Z)) : bool :=
  (length u =? 9)%nat && nodupc u && forallb in_board u
  && existsb (same_cells u) groups.

Definition group_is_unit (G : list (Z * Z)) : bool :=
  existsb (fun u => same_cells u G) board_units.

(** No clause holds the literal 0. *)
Definition no_zero (cs : list clause) : bool :=
  forallb (forallb (fun l => negb (l =? 0))) cs.

(** ** Valuations and grids *)

Definition num (x : value) : Z :=
  match x with
  | Int n => n
  | NoneV => 0
  end.

(** The least digit a valuation asserts for a cell (0 if there is none). *)
Definition pick (rho : valuation) (i j : Z) : Z :=
  match find (fun d => rho (v i j d)) (range 1 10) with
  | Some d => d
  | None => 0
  end.

(** The grid holding [f i j] in row [i], column [j]. *)
Definition grid_of (f : Z -> Z -> Z) : grid :=
  map (fun i => map (fun j => Int (f i j)) (range 1 10)) (range 1 10).

(** The valuation that asserts variable [n] when the cell it numbers holds
    the digit it numbers. *)
Definition rho_of (c : grid) : valuation :=
  fun n =>
    match cell c ((n - 1) / 81 + 1) ((n - 1) mod 81 / 9 + 1) with
    | Int d => d =? (n - 1) mod 9 + 1
    | NoneV => false
    end.

(** [rho] asserts exactly the digits of [f] on the board. *)
Definition represents (rho : valuation) (f : Z -> Z -> Z) : Prop :=
  forall i j d, 1 <= i <= 9 -> 1 <= j <= 9 -> 1 <= d <= 9 ->
    (rho (v i j d) = true <-> f i j = d).

(** [f] fills the board with digits that differ inside every cell list. *)
Definition sudoku_fun (f : Z -> Z -> Z) : Prop :=
  (forall i j, 1 <= i <= 9 -> 1 <= j <= 9 -> 1 <= f i j <= 9) /\
  (forall G, In G groups -> forall x y, In x G -> In y G -> x <> y ->
     f (fst x) (snd x) <> f (fst y) (snd y)).

(** ** Concrete answers of the engine *)

(** A completed Sudoku whose first row is 1..9. *)
Definition solved : grid := int_grid
  [[1; 2; 3; 4; 5; 6; 7; 8; 9];
   [4; 5; 6; 7; 8; 9; 1; 2; 3];
   [7; 8; 9; 1; 2; 3; 4; 5; 6];
   [2; 3; 4; 5; 6; 7; 8; 9; 1];
   [5; 6; 7; 8; 9; 1; 2; 3; 4];
   [8; 9; 1; 2; 3; 4; 5; 6; 7];
   [3; 4; 5; 6; 7; 8; 9; 1; 2];
   [6; 7; 8; 9; 1; 2; 3; 4; 5];
   [9; 1; 2; 3; 4; 5; 6; 7; 8]].

(** The model listing, for each of the 729 variables, the literal that
    holds in the completed grid [c]. *)
Definition model_of (c : grid) : list Z :=
  map (fun x => if rho_of c x then x else - x) (range 1 730).

(** An engine that answers [sol] whatever it is asked. *)
Definition answering (sol : solution) : engine := fun _ => Ok sol.

(** An engine for one-variable instances: [[1]] for a single clause,
    ["UNSAT"] otherwise. *)
Definition toy_engine : engine :=
  fun cs =>
    if (length cs =? 1)%nat then Ok (SolList [1]) else Ok (SolStr "UNSAT"%string).

(** An engine for the completed grid [solved]: its model for a list of
    11826 clauses (the base list and 81 clues), ["UNSAT"] otherwise. *)
Definition solved_engine : engine :=
  fun cs =>
    if Z.of_nat (length cs) =? 11826
    then Ok (SolList (model_of solved))
    else Ok (SolStr "UNSAT"%string).

(** The string [pycosat.solve] returns for an unsatisfiable instance. *)
Definition unsat : solution := SolStr "UNSAT"%string.

(** A puzzle with two 5s in its first row. *)
Definition conflict : grid := int_grid
  [[5; 5; 0; 0; 0; 0; 0; 0; 0];
   [0; 0; 0; 0; 0; 0; 0; 0; 0];
   [0; 0; 0; 0; 0; 0; 0; 0; 0];
   [0; 0; 0; 0; 0; 0; 0; 0; 0];
   [0; 0; 0; 0; 0; 0; 0; 0; 0];
   [0; 0; 0; 0; 0; 0; 0; 0; 0];
   [0; 0; 0; 0; 0; 0; 0; 0; 0];
   [0; 0; 0; 0; 0; 0; 0; 0; 0];
   [0; 0; 0; 0; 0; 0; 0; 0; 0]].

(** A grid whose first cell holds 10. *)
Definition ten : grid := int_grid
  [[10; 0; 0; 0; 0; 0; 0; 0; 0];
   [0; 0; 0; 0; 0; 0; 0; 0; 0];
   [0; 0; 0; 0; 0; 0; 0; 0; 0];
   [0; 0; 0; 0; 0; 0; 0; 0; 0];
   [0; 0; 0; 0; 0; 0; 0; 0; 0];
   [0; 0; 0; 0; 0; 0; 0; 0; 0];
   [0; 0; 0; 0; 0; 0; 0; 0; 0];
   [0; 0; 0; 0; 0; 0; 0; 0; 0];
   [0; 0; 0; 0; 0; 0; 0; 0; 0]].

(** [solved] with the digits 1 and 2 exchanged: its cell (1, 2) holds 1. *)
Definition solved21 : grid := int_grid
  [[2; 1; 3; 4; 5; 6; 7; 8; 9];
   [4; 5; 6; 7; 8; 9; 2; 1; 3];
   [7; 8; 9; 2; 1; 3; 4; 5; 6];
   [1; 3; 4; 5; 6; 7; 8; 9; 2];
   [5; 6; 7; 8; 9; 2; 1; 3; 4];
   [8; 9; 2; 1; 3; 4; 5; 6; 7];
   [3; 4; 5; 6; 7; 8; 9; 2; 1];
   [6; 7; 8; 9; 2; 1; 3; 4; 5];
   [9; 2; 1; 3; 4; 5; 6; 7; 8]].


(** ** Uniqueness of a model *)

(** Every valuation satisfying [cs] makes the literals of [m] true. *)
Definition only_model (m : list Z) (cs : list clause) : Prop :=
  forall rho, models rho cs -> forall l, In l m -> lit_true rho l = true.

(** The engine's answer for [cs] is right: a list asserts the literals of a
    valuation that satisfies [cs], a string means that no valuation does,
    nothing is raised. *)
Definition engine_right (solver : engine) (cs : list clause) : Prop :=
  match solver cs with
  | Ok (SolList m) => models (asserted m) cs
  | Ok (SolStr _) => ~ satisfiable cs
  | Raise _ => False
  end.

(** ** Bounds, frames and clue removal *)

(** The grid has the nine rows and, in each of them, the nine cells that
    lines 80 and 110 index. *)
Definition covers9b (g : grid) : bool :=
  forallb (fun i =>
    match nth_error g (Z.to_nat (i - 1)) with
    | Some row => (9 <=? length row)%nat
    | None => false
    end) (range 1 10).

(** The array [hard] of lines 187-201 after [hard[r][c] = 0]. *)
Definition erase (hard : list (list Z)) (r c : Z) : list (list Z) :=
  update hard (Z.to_nat r) (update (nth (Z.to_nat r) hard []) (Z.to_nat c) 0).

(** The clauses of a list, each kept once (its last occurrence). *)
Fixpoint dedupe (cs : list clause) : list clause :=
  match cs with
  | [] => []
  | c :: cs' => if existsb (clause_eqb c) cs' then dedupe cs' else c :: dedupe cs'
  end.

(** A decidable check of [valid_sudoku]. *)
Definition value_eqb (x y : value) : bool :=
  match x, y with
  | Int a, Int b => a =? b
  | NoneV, NoneV => true
  | _, _ => false
  end.

Definition has_all_digits (l : list value) : bool :=
  (length l =? 9)%nat
  && forallb (fun d => existsb (value_eqb (Int d)) l) (range 1 10).

Definition valid_sudokub (g : grid) : bool :=
  (length g =? 9)%nat
  && forallb (fun row => (length row =? 9)%nat) g
  && forallb (fun u => has_all_digits (unit_values g u)) board_units.

(** The variables of a clause list lie in [1, n]. *)
Definition vars_within (n : Z) (cs : list clause) : bool :=
  forallb (forallb (fun l => (1 <=? Z.abs l) && (Z.abs l <=? n))) cs.

(** Every variable of [1, n] occurs positively in some clause. *)
Definition every_var_occurs (n : Z) (cs : list clause) : bool :=
  forallb (fun x => existsb (existsb (Z.eqb x)) cs) (range 1 (n + 1)).

(** Every clause has nine literals or two. *)
Definition sizes_9_or_2 (cs : list clause) : bool :=
  forallb (fun c => (length c =? 9)%nat || (length c =? 2)%nat) cs.

(** ** The buckets of the statistics, lines 208-213 *)

(** [current_deviations.append(solve_times[j])], line 212; the loop
    condition keeps [j] below the length. *)
Definition append_item {T : Type} (current : list T) (solve_times : list T) (j : nat)
  : list T :=
  match nth_error solve_times j with
  | Some t => current ++ [t]
  | None => current
  end.

(** The [while] loop of lines 211-213, from the values of [j] and
    [current_deviations] on entry; [j] comes nearer to the length at each
    pass. *)
Function collect (T : Type) (solve_times : list T) (j : nat) (current : list T)
    {measure (fun j => (length solve_times - j)%nat) j} : list T :=
  if (j <? length solve_times)%nat
  then collect T solve_times (j + 82)%nat (append_item current solve_times j)
  else current.
Proof. intros T solve_times j _ H. apply Nat.ltb_lt in H. lia. Defined.

(** [[x]] for [Some x], [[]] for [None]. *)
Definition opt_list {T : Type} (o : option T) : list T :=
  match o with
  | Some x => [x]
  | None => []
  end.

(** The list [current_deviations] of each of the 82 passes of the [for] loop
    of line 208. *)
Definition bucket_lists {T : Type} (solve_times : list T) : list (list T) :=
  map (fun i => collect T solve_times i []) (seq 0 82).

(** ** The clue-removal experiment, lines 187-201 *)

(** [numpy.nonzero(hard)]: the row and column index, counted from 0, of
    every nonzero entry, row by row; the arrays [i] and [j] of line 191 are
    its two projections. *)
Definition nonzero (hard : list (list Z)) : list (Z * Z) :=
  flat_map (fun rrow =>
    flat_map (fun cx => if snd cx =? 0 then [] else [(fst rrow, fst cx)])
      (enumerate (snd rrow))) (enumerate hard).

(** Some cell holds [None]. *)
Definition has_none (g : grid) : bool :=
  existsb (existsb (fun x => match x with NoneV => true | Int _ => false end)) g.

(** The driver's variables: the array [hard], [current_number], the number
    of random draws made so far, the arguments of the calls of [solve] made
    so far, and the instances submitted to the engine so far. *)
Record lab : Type := mkLab {
  hard : list (list Z);
  current_number : Z;
  draws : nat;
  runs : list (Z * list (list Z));
  sent : list (list clause)
}.

(** What the driver sees of a call of [solve] on a fresh copy of its
    array: the copy is dropped afterwards, so only the engine log and the
    exception survive; the copy is an integer array, which refuses [None]
    with a [TypeError]. *)
Definition copy_outcome (out : result unit * store grid)
  : result unit * list (list clause) :=
  match out with
  | (Ok _, st) =>
      if has_none (obj st) then (Raise TypeError, calls st) else (Ok tt, calls st)
  | (Raise e, st) => (Raise e, calls st)
  end.

(** An exception of [solve] ends the driver; otherwise it goes on. *)
Definition after_solve (out : result unit * list (list clause))
    (st : list (list clause) -> lab) (next : lab -> option (result unit * lab))
  : option (result unit * lab) :=
  match out with
  | (Raise e, log) => Some (Raise e, st log)
  | (Ok _, log) => next (st log)
  end.

Section Driver.

Variable pycosat_solve : engine.

(** The [k]-th call [random.randint(a, b)] of the run. *)
Variable randint : nat -> Z -> Z -> Z.

(** [current = numpy.copy(hard); solve(current, n)], lines 189-190 and
    199-200. *)
Definition solve_copy (h : list (list Z)) (n : Z) (log : list (list clause))
  : result unit * list (list clause) :=
  copy_outcome (solve pycosat_solve n (mkStore (int_grid h) log)).

(** The [while] loop of lines 193-201, for at most [fuel] iterations
    ([None]: more are needed). *)
Fixpoint removal_loop (fuel : nat) (st : lab) : option (result unit * lab) :=
  match nonzero (hard st) with
  | [] => Some (Ok tt, st)
  | p :: nz =>
      match fuel with
      | O => None
      | S fuel' =>
          let n := current_number st + 1 in
          let rand := randint (draws st) 0 (Z.of_nat (length (p :: nz)) - 1) in
          match index (p :: nz) rand with
          | Raise e =>
              Some (Raise e, mkLab (hard st) n (S (draws st)) (runs st) (sent st))
          | Ok rc =>
              let h := erase (hard st) (fst rc) (snd rc) in
              after_solve (solve_copy h n (sent st))
                (mkLab h n (S (draws st)) (runs st ++ [(n, h)]))
                (removal_loop fuel')
          end
      end
  end.

(** One pass of the body of the [for] loop of line 177, lines 187-201, from
    the array [start] (in the source, [first] as line 146 has left it). *)
Definition trial (fuel : nat) (start : list (list Z)) (d : nat)
    (log : list (list clause)) : option (result unit * lab) :=
  after_solve (solve_copy start 0 log)
    (mkLab start 0 d [(0, start)])
    (removal_loop fuel).

End Driver.

(** The number of nonzero entries of a row, and of an array. *)
Definition nzcount (row : list Z) : nat :=
  list_sum (map (fun x => if x =? 0 then 0%nat else 1%nat) row).

Definition clue_count (h : list (list Z)) : nat := list_sum (map nzcount h).

(** Nine rows of nine integers between 0 and 9. *)
Definition digits9 (h : list (list Z)) : Prop :=
  length h = 9%nat /\
  Forall (fun row => length row = 9%nat /\ Forall (fun x => 0 <= x <= 9) row) h.

Definition digits9b (h : list (list Z)) : bool :=
  (length h =? 9)%nat
  && forallb (fun row =>
       (length row =? 9)%nat && forallb (fun x => (0 <=? x) && (x <=? 9)) row) h.

(** The rows of the puzzle whose only clue is [grid[0][1] = 2]. *)
Definition lone2 : list (list Z) :=
  [[0; 2; 0; 0; 0; 0; 0; 0; 0];
   [0; 0; 0; 0; 0; 0; 0; 0; 0];
   [0; 0; 0; 0; 0; 0; 0; 0; 0];
   [0; 0; 0; 0; 0; 0; 0; 0; 0];
   [0; 0; 0; 0; 0; 0; 0; 0; 0];
   [0; 0; 0; 0; 0; 0; 0; 0; 0];
   [0; 0; 0; 0; 0; 0; 0; 0; 0];
   [0; 0; 0; 0; 0; 0; 0; 0; 0];
   [0; 0; 0; 0; 0; 0; 0; 0; 0]].

(** Line 22. *)
Definition iteration_count : Z := 1000.

(** What the [for] loop of line 177 carries from one pass to the next when
    nothing is raised: the number of random draws made, the bucket number of
    the call of [solve] behind each entry of [solve_times], and the engine
    log. *)
Definition carried : Type := (nat * list Z * list (list clause))%type.

(** After a pass: an exception ends the experiment; otherwise the next pass
    starts from what this one leaves. *)
Definition after_trial (out : option (result unit * lab)) (tags : list Z)
    (next : carried -> option (result carried)) : option (result carried) :=
  match out with
  | None => None
  | Some (Raise e, _) => Some (Raise e)
  | Some (Ok _, st) => next (draws st, tags ++ map fst (runs st), sent st)
  end.

(** The [for] loop of line 177 over the passes [its]; every pass starts from
    a copy of [start] (line 187). *)
Fixpoint experiment_loop (solver : engine) (randint : nat -> Z -> Z -> Z)
    (fuel : nat) (start : list (list Z)) (its : list Z) (c : carried)
  : option (result carried) :=
  match its with
  | [] => Some (Ok c)
  | _ :: its' =>
      after_trial (trial solver randint fuel start (fst (fst c)) (snd c))
        (snd (fst c))
        (experiment_loop solver randint fuel start its')
  end.

(** Lines 149-204: [solve_times] is emptied, then the passes run. *)
Definition experiment (solver : engine) (randint : nat -> Z -> Z -> Z)
    (fuel : nat) (start : list (list Z)) (d : nat) (log : list (list clause))
  : option (result carried) :=
  experiment_loop solver randint fuel start (range 0 iteration_count) (d, [], log).

(** The rows of [solved]. *)
Definition solved_rows : list (list Z) :=
  [[1; 2; 3; 4; 5; 6; 7; 8; 9];
   [4; 5; 6; 7; 8; 9; 1; 2; 3];
   [7; 8; 9; 1; 2; 3; 4; 5; 6];
   [2; 3; 4; 5; 6; 7; 8; 9; 1];
   [5; 6; 7; 8; 9; 1; 2; 3; 4];
   [8; 9; 1; 2; 3; 4; 5; 6; 7];
   [3; 4; 5; 6; 7; 8; 9; 1; 2];
   [6; 7; 8; 9; 1; 2; 3; 4; 5];
   [9; 1; 2; 3; 4; 5; 6; 7; 8]].

(** [random.randint(a, b)] returns an integer between [a] and [b]. *)
Definition randint_ok (randint : nat -> Z -> Z -> Z) : Prop :=
  forall k a b, a <= b -> a <= randint k a b <= b.

(** The engine answers every puzzle that keeps some of the clues of [h] and
    blanks the others with a satisfying assignment. *)
Definition solves_below (solver : engine) (h : list (list Z)) : Prop :=
  forall g, wf_grid g -> agrees g (int_grid h) ->
    exists m, solver (sudoku_res ++ clue_clauses g) = Ok (SolList m)
              /\ consistent m /\ satisfies m (sudoku_res ++ clue_clauses g).

(** A decidable check of [agrees]. *)
Definition agreesb (g c : grid) : bool :=
  forallb (fun x =>
    match cell g (fst x) (snd x) with
    | Int n => (n =? 0) || value_eqb (cell c (fst x) (snd x)) (Int n)
    | NoneV => true
    end) cells81.

(** Successive puzzles: from one to the next a nonzero entry is set to 0 and
    the bucket number grows by one. *)
Fixpoint removal_chain (n : Z) (h : list (list Z)) (rs : list (Z * list (list Z)))
  : Prop :=
  match rs with
  | [] => True
  | (n', h') :: rs' =>
      n' = n + 1
      /\ (exists r c, In (r, c) (nonzero h) /\ h' = erase h r c)
      /\ removal_chain n' h' rs'
  end.

(** ** Theorems *)

(** *** Ranges and loops *)

Lemma range_cons (a b : Z) : a < b -> range a b = a :: range (a + 1) b.
Proof.
  intros H. unfold range.
  replace (Z.to_nat (b - a)) with (S (Z.to_nat (b - (a + 1)))) by lia.
  cbn [seq map]. f_equal; [lia|].
  rewrite <- seq_shift, map_map. apply map_ext. intros k. lia.
Qed.

Lemma range_nil (a b : Z) : b <= a -> range a b = [].
Proof.
  intros H. unfold range. replace (Z.to_nat (b - a)) with 0%nat by lia. reflexivity.
Qed.

Lemma In_range (a b x : Z) : In x (range a b) <-> a <= x < b.
Proof.
  unfold range. rewrite in_map_iff. split.
  - intros (k & <- & Hk). apply in_seq in Hk. lia.
  - intros H. exists (Z.to_nat (x - a)). split; [lia|]. apply in_seq. lia.
Qed.

Lemma length_range (a b : Z) : length (range a b) = Z.to_nat (b - a).
Proof. unfold range. now rewrite length_map, length_seq. Qed.

Lemma nth_error_range (a b : Z) (k : nat) :
  (k < Z.to_nat (b - a))%nat -> nth_error (range a b) k = Some (a + Z.of_nat k).
Proof.
  intros H. unfold range. rewrite nth_error_map, nth_error_seq.
  destruct (Nat.ltb_spec k (Z.to_nat (b - a))); [reflexivity | lia].
Qed.

Lemma for_each_append {A B : Type} (f : A -> list B) (body : A -> list B -> list B)
    (xs : list A) :
  (forall x res, body x res = res ++ f x) ->
  forall res, for_each xs body res = res ++ flat_map f xs.
Proof.
  intros Hb. unfold for_each. induction xs as [|x xs IH]; intros res; cbn.
  - now rewrite app_nil_r.
  - rewrite IH, Hb, <- app_assoc. reflexivity.
Qed.

Lemma flat_map_singleton {A B : Type} (f : A -> B) (xs : list A) :
  flat_map (fun x => [f x]) xs = map f xs.
Proof. induction xs; cbn; congruence. Qed.

(** *** [sudoku_clauses] as comprehensions *)

Lemma valid_appends (cells : list (Z * Z)) (res : list clause) :
  valid cells res = res ++ pair_clauses cells.
Proof.
  unfold valid, pair_clauses.
  apply for_each_append. intros [i xi] r.
  apply for_each_append. intros [j xj] r'. cbn [fst snd].
  destruct (i <? j).
  - rewrite <- flat_map_singleton. now apply for_each_append.
  - now rewrite app_nil_r.
Qed.

Lemma cell_loops_appends (res : list clause) : cell_loops res = res ++ cell_part.
Proof.
  unfold cell_loops, cell_part.
  apply for_each_append. intros i r.
  apply for_each_append. intros j r'. unfold cell_block. cbv zeta.
  rewrite (for_each_append
             (fun d => map (fun dp => [- v i j d; - v i j dp]) (range (d + 1) 10))).
  - now rewrite <- app_assoc.
  - intros d r''. rewrite <- flat_map_singleton. now apply for_each_append.
Qed.

Lemma flat_map_pairs {A B : Type} (f : A -> list B) (g h : Z -> A) (xs : list Z) :
  flat_map (fun i => f (g i) ++ f (h i)) xs = flat_map f (flat_map (fun i => [g i; h i]) xs).
Proof.
  induction xs as [|i l IH]; cbn; [reflexivity|]. now rewrite IH, app_assoc.
Qed.

Lemma flat_map_nested {A B C : Type} (f : B -> list C) (g : A -> list B) (xs : list A) :
  flat_map (fun i => flat_map f (g i)) xs = flat_map f (flat_map g xs).
Proof.
  induction xs as [|i l IH]; cbn; [reflexivity|]. now rewrite IH, flat_map_app.
Qed.

Lemma group_loops_appends (res : list clause) : group_loops res = res ++ group_part.
Proof.
  unfold group_loops, group_part, groups. cbv zeta.
  rewrite (for_each_append
             (fun i => pair_clauses (row_cells i) ++ pair_clauses (col_cells i))
             _ (range 1 10)).
  2:{ intros i r. cbv beta. now rewrite !valid_appends, app_assoc. }
  rewrite (for_each_append
             (fun i => flat_map pair_clauses (map (fun j => box_cells i j) [1; 4; 7]))).
  2:{ intros i r. cbv beta. rewrite flat_map_concat_map, map_map, <- flat_map_concat_map.
      apply for_each_append. intros j r'. apply valid_appends. }
  now rewrite flat_map_pairs, flat_map_nested, <- app_assoc, flat_map_app.
Qed.

Lemma sudoku_res_eq : sudoku_res = cell_part ++ group_part.
Proof.
  unfold sudoku_res.
  exact (eq_trans (group_loops_appends (cell_loops []))
           (f_equal (fun l => l ++ group_part) (cell_loops_appends []))).
Qed.

Lemma length_sudoku_res : Z.of_nat (length sudoku_res) = 11745.
Proof. rewrite sudoku_res_eq. vm_compute. reflexivity. Qed.

Lemma sudoku_clauses_ok : sudoku_clauses = Ok sudoku_res.
Proof.
  unfold sudoku_clauses. cbv zeta. rewrite length_sudoku_res. reflexivity.
Qed.

Lemma Permutation_flat_map_cons {A B : Type} (f : A -> B) (g : A -> list B) (l : list A) :
  Permutation (flat_map (fun x => f x :: g x) l) (map f l ++ flat_map g l).
Proof.
  induction l as [|x l IH]; cbn; [constructor|].
  constructor. rewrite IH. apply Permutation_app_swap_app.
Qed.

Lemma cell_part_by_kind :
  Permutation cell_part (at_least_one_clauses ++ not_two_clauses).
Proof.
  unfold at_least_one_clauses, not_two_clauses.
  rewrite <- Permutation_flat_map_cons.
  assert (E : cell_part = flat_map (fun x => at_least_one x :: not_two x) cells81).
  { unfold cell_part, cells81. rewrite <- flat_map_nested.
    apply flat_map_ext. intros i.
    rewrite (flat_map_concat_map _ (map _ _)), map_map, <- flat_map_concat_map.
    reflexivity. }
  rewrite E. apply Permutation_refl.
Qed.

(** *** The variable numbering *)

(** C2: [v r c d] is [81*(r-1) + 9*(c-1) + d]; on [1,9]^3 it is injective
    and its range is exactly the integers from 1 to 729. *)
Theorem v_numbering :
  (forall r c d, v r c d = 81 * (r - 1) + 9 * (c - 1) + d) /\
  (forall r c d r' c' d',
      1 <= r <= 9 -> 1 <= c <= 9 -> 1 <= d <= 9 ->
      1 <= r' <= 9 -> 1 <= c' <= 9 -> 1 <= d' <= 9 ->
      v r c d = v r' c' d' -> r = r' /\ c = c' /\ d = d') /\
  (forall n, 1 <= n <= 729 <->
      exists r c d, 1 <= r <= 9 /\ 1 <= c <= 9 /\ 1 <= d <= 9 /\ v r c d = n).
Proof.
  unfold v. split; [reflexivity|]. split.
  - intros. lia.
  - intros n. split.
    + intros Hn.
      exists ((n - 1) / 81 + 1), ((n - 1) mod 81 / 9 + 1), ((n - 1) mod 9 + 1).
      pose proof (Z.div_mod (n - 1) 81 ltac:(lia)).
      pose proof (Z.mod_pos_bound (n - 1) 81 ltac:(lia)).
      pose proof (Z.div_mod ((n - 1) mod 81) 9 ltac:(lia)).
      pose proof (Z.mod_pos_bound ((n - 1) mod 81) 9 ltac:(lia)).
      pose proof (Z.mod_pos_bound (n - 1) 9 ltac:(lia)).
      assert (((n - 1) mod 81) mod 9 = (n - 1) mod 9).
      { rewrite <- (Z.mod_mod_divide (n - 1) 81 9) at 1; [reflexivity|].
        exists 9. reflexivity. }
      lia.
    + intros (r & c & d & Hr & Hc & Hd & <-). lia.
Qed.

Lemma v_numbering_witness :
  (v 2 3 4 = v 2 3 4 -> 2 = 2 /\ 3 = 3 /\ 4 = 4) /\
  exists r c d, 1 <= r <= 9 /\ 1 <= c <= 9 /\ 1 <= d <= 9 /\ v r c d = 729.
Proof.
  split.
  - apply (proj1 (proj2 v_numbering) 2 3 4 2 3 4); lia.
  - apply (proj1 (proj2 (proj2 v_numbering) 729)). lia.
Defined.

(** *** Membership in the block of a cell list *)

Lemma In_combine_range {A : Type} (xs : list A) (a p : Z) (x : A) :
  In (p, x) (combine (range a (a + Z.of_nat (length xs))) xs) <->
  a <= p /\ nth_error xs (Z.to_nat (p - a)) = Some x.
Proof.
  revert a. induction xs as [|hd tl IH]; intros a.
  - rewrite combine_nil. split; [intros []|].
    intros [_ H]. destruct (Z.to_nat (p - a)); discriminate.
  - rewrite range_cons by (cbn [length]; lia).
    replace (a + Z.of_nat (length (hd :: tl))) with (a + 1 + Z.of_nat (length tl))
      by (cbn [length]; lia).
    cbn [combine In]. rewrite IH. split.
    + intros [H | [Hp H]].
      * injection H as <- <-. split; [lia|]. now rewrite Z.sub_diag.
      * split; [lia|].
        replace (Z.to_nat (p - a)) with (S (Z.to_nat (p - (a + 1)))) by lia.
        exact H.
    + intros [Hp H]. destruct (Z.eq_dec p a) as [-> | Hne].
      * left. rewrite Z.sub_diag in H. cbn in H. congruence.
      * right. split; [lia|].
        replace (Z.to_nat (p - a)) with (S (Z.to_nat (p - (a + 1)))) in H by lia.
        exact H.
Qed.

Lemma In_enumerate {A : Type} (xs : list A) (p : Z) (x : A) :
  In (p, x) (enumerate xs) <-> 0 <= p /\ nth_error xs (Z.to_nat p) = Some x.
Proof.
  unfold enumerate. rewrite (In_combine_range xs 0 p x). now rewrite Z.sub_0_r.
Qed.

Lemma In_pair_clauses (cells : list (Z * Z)) (c : clause) :
  In c (pair_clauses cells) <->
  exists p q x y d,
    (p < q)%nat /\ nth_error cells p = Some x /\ nth_error cells q = Some y /\
    1 <= d <= 9 /\ c = pair_clause x y d.
Proof.
  unfold pair_clauses. rewrite in_flat_map. split.
  - intros ([p x] & Hx & H). apply in_flat_map in H as ([q y] & Hy & H).
    cbn [fst snd] in H. destruct (Z.ltb_spec p q) as [Hpq|]; [|contradiction].
    apply in_map_iff in H as (d & <- & Hd). apply In_range in Hd.
    apply In_enumerate in Hx as [Hp Hx], Hy as [Hq Hy].
    exists (Z.to_nat p), (Z.to_nat q), x, y, d. repeat split; try assumption; lia.
  - intros (p & q & x & y & d & Hpq & Hx & Hy & Hd & ->).
    exists (Z.of_nat p, x). split.
    { apply In_enumerate. rewrite Nat2Z.id. split; [lia | assumption]. }
    apply in_flat_map. exists (Z.of_nat q, y). split.
    { apply In_enumerate. rewrite Nat2Z.id. split; [lia | assumption]. }
    cbn [fst snd]. destruct (Z.ltb_spec (Z.of_nat p) (Z.of_nat q)); [|lia].
    apply in_map_iff. exists d. split; [reflexivity|]. apply In_range. lia.
Qed.

(** *** Decidable checks *)

Lemma cell_eqb_eq (x y : Z * Z) : cell_eqb x y = true <-> x = y.
Proof.
  destruct x as [a b], y as [a' b']. unfold cell_eqb. cbn [fst snd].
  rewrite andb_true_iff, !Z.eqb_eq. split; [intros [-> ->] | intros [= -> ->]]; auto.
Qed.

Lemma memc_In (l : list (Z * Z)) (x : Z * Z) : memc l x = true <-> In x l.
Proof.
  unfold memc. rewrite existsb_exists. split.
  - intros (y & Hy & E). apply cell_eqb_eq in E. now subst.
  - intros H. exists x. split; [assumption | now apply cell_eqb_eq].
Qed.

Lemma nodupc_NoDup (l : list (Z * Z)) : nodupc l = true -> NoDup l.
Proof.
  induction l as [|x l IH]; cbn; [constructor|].
  rewrite andb_true_iff, negb_true_iff. intros [Hx Hl]. constructor; [|auto].
  intros Hin. apply memc_In in Hin. congruence.
Qed.

Lemma in_board_spec (x : Z * Z) :
  in_board x = true <-> 1 <= fst x <= 9 /\ 1 <= snd x <= 9.
Proof. unfold in_board. rewrite !andb_true_iff, !Z.leb_le. lia. Qed.

Lemma groups_ok : forallb group_ok groups = true.
Proof. vm_cast_no_check (eq_refl true). Qed.

Lemma group_facts (G : list (Z * Z)) :
  In G groups ->
  length G = 9%nat /\ NoDup G /\
  (forall x, In x G -> 1 <= fst x <= 9 /\ 1 <= snd x <= 9) /\
  length (pair_clauses G) = 324%nat /\ pairs_once G = true.
Proof.
  intros HG. pose proof groups_ok as H. rewrite forallb_forall in H.
  specialize (H G HG). unfold group_ok in H.
  rewrite !andb_true_iff, !Nat.eqb_eq in H.
  destruct H as ((((H1 & H2) & H3) & H4) & H5).
  split; [assumption|]. split; [now apply nodupc_NoDup|].
  split; [|split; assumption].
  intros x Hx. rewrite forallb_forall in H3. now apply in_board_spec, H3.
Qed.

Lemma clause_eqb_eq (c c' : clause) : clause_eqb c c' = true <-> c = c'.
Proof.
  revert c'. induction c as [|l c IH]; intros [|l' c']; cbn; try easy.
  rewrite andb_true_iff, Z.eqb_eq, IH. split; [intros [-> ->] | intros [= -> ->]]; auto.
Qed.

Lemma count_clause_occ (c : clause) (cs : list clause) :
  count_clause c cs = count_occ (list_eq_dec Z.eq_dec) cs c.
Proof.
  unfold count_clause. induction cs as [|c' cs IH]; cbn; [reflexivity|].
  destruct (list_eq_dec Z.eq_dec c' c) as [-> | Hne].
  - rewrite (proj2 (clause_eqb_eq c c) eq_refl). cbn. now rewrite IH.
  - destruct (clause_eqb c c') eqn:E; [|assumption].
    apply clause_eqb_eq in E. congruence.
Qed.

(** *** The base clause list *)

(** C3: every call of [sudoku_clauses] returns the same list of 11745
    clauses: 81 "at least one digit" clauses, 2916 "not two digits" clauses
    and 8748 "distinct values" clauses. *)
Theorem sudoku_clauses_count :
  sudoku_clauses = Ok sudoku_res /\
  Z.of_nat (length sudoku_res) = 11745 /\
  Permutation sudoku_res (at_least_one_clauses ++ not_two_clauses ++ group_part) /\
  Z.of_nat (length at_least_one_clauses) = 81 /\
  Z.of_nat (length not_two_clauses) = 2916 /\
  Z.of_nat (length group_part) = 8748.
Proof.
  split; [exact sudoku_clauses_ok|]. split; [exact length_sudoku_res|].
  split; [|repeat split; vm_compute; reflexivity].
  rewrite sudoku_res_eq, app_assoc.
  apply Permutation_app_tail, cell_part_by_kind.
Qed.

Lemma In_groups (G : list (Z * Z)) :
  In G groups <->
  (exists i, 1 <= i <= 9 /\ (G = row_cells i \/ G = col_cells i)) \/
  (exists i j, In i [1; 4; 7] /\ In j [1; 4; 7] /\ G = box_cells i j).
Proof.
  unfold groups. rewrite in_app_iff, !in_flat_map. split.
  - intros [(i & Hi & H) | (i & Hi & H)].
    + left. exists i. apply In_range in Hi. cbn in H. split; [lia|]. intuition auto.
    + right. apply in_map_iff in H as (j & <- & Hj). now exists i, j.
  - intros [(i & Hi & H) | (i & j & Hi & Hj & ->)].
    + left. exists i. split; [apply In_range; lia|]. cbn. intuition auto.
    + right. exists i. split; [assumption|]. now apply in_map.
Qed.

Lemma In_box_cells (i j r c : Z) :
  In (r, c) (box_cells i j) <-> i <= r <= i + 2 /\ j <= c <= j + 2.
Proof.
  unfold box_cells. rewrite in_map_iff. split.
  - intros (k & [= <- <-] & Hk). apply In_range in Hk.
    pose proof (Z.mod_pos_bound k 3 ltac:(lia)).
    pose proof (Z.div_mod k 3 ltac:(lia)). lia.
  - intros [Hr Hc]. exists ((r - i) + (c - j) * 3). split.
    + f_equal.
      * rewrite Z.mod_add, Z.mod_small by lia. lia.
      * rewrite Z.div_add, Z.div_small by lia. lia.
    + apply In_range. lia.
Qed.

(** C4: [valid] appends, for the cell list it is given, the clause
    [[-v(x,d), -v(y,d)]] for every two cells [x] before [y] of the list and
    every digit [d]; it is called on 27 lists of nine cells (the rows, the
    columns, and one list per anchor in {1,4,7}x{1,4,7}); each call appends a
    block of 324 clauses holding exactly one clause per unordered pair of
    distinct cells and digit; the list of an anchor [(i, j)] is the 3x3 box
    of rows [i..i+2] and columns [j..j+2]. *)
Theorem valid_blocks :
  (forall cells res, valid cells res = res ++ pair_clauses cells) /\
  sudoku_res = cell_part ++ flat_map pair_clauses groups /\
  length groups = 27%nat /\
  (forall G, In G groups <->
     (exists i, 1 <= i <= 9 /\ (G = row_cells i \/ G = col_cells i)) \/
     (exists i j, In i [1; 4; 7] /\ In j [1; 4; 7] /\ G = box_cells i j)) /\
  (forall i j, row_cells i = map (fun j => (i, j)) (range 1 10) /\
               col_cells j = map (fun i => (i, j)) (range 1 10) /\
               box_cells i j = map (fun k => (i + k mod 3, j + k / 3)) (range 0 9)) /\
  (forall G, In G groups ->
     length G = 9%nat /\ NoDup G /\
     length (pair_clauses G) = 324%nat /\
     (forall c, In c (pair_clauses G) <->
        exists p q x y d,
          (p < q)%nat /\ nth_error G p = Some x /\ nth_error G q = Some y /\
          1 <= d <= 9 /\ c = [- v (fst x) (snd x) d; - v (fst y) (snd y) d]) /\
     (forall x y d, In x G -> In y G -> x <> y -> 1 <= d <= 9 ->
        (count_occ (list_eq_dec Z.eq_dec) (pair_clauses G)
           [- v (fst x) (snd x) d; - v (fst y) (snd y) d]
         + count_occ (list_eq_dec Z.eq_dec) (pair_clauses G)
             [- v (fst y) (snd y) d; - v (fst x) (snd x) d] = 1)%nat)) /\
  (forall i j, In i [1; 4; 7] -> In j [1; 4; 7] ->
     forall r c, In (r, c) (box_cells i j) <-> i <= r <= i + 2 /\ j <= c <= j + 2).
Proof.
  split; [exact valid_appends|]. split; [exact sudoku_res_eq|].
  split; [reflexivity|]. split; [exact In_groups|].
  split; [intros; repeat split|]. split.
  - intros G HG. destruct (group_facts G HG) as (H1 & H2 & H3 & H4 & H5).
    split; [assumption|]. split; [assumption|]. split; [assumption|]. split.
    + intros c. apply In_pair_clauses.
    + intros x y d Hx Hy Hne Hd. unfold pairs_once in H5. cbv zeta in H5.
      rewrite forallb_forall in H5. specialize (H5 x Hx).
      rewrite forallb_forall in H5. specialize (H5 y Hy).
      apply orb_true_iff in H5 as [E | H5].
      { apply cell_eqb_eq in E. contradiction. }
      rewrite forallb_forall in H5. specialize (H5 d (proj2 (In_range 1 10 d) ltac:(lia))).
      apply Nat.eqb_eq in H5. rewrite !count_clause_occ in H5. exact H5.
  - intros i j _ _ r c. apply In_box_cells.
Qed.

Lemma valid_blocks_witness :
  (count_occ (list_eq_dec Z.eq_dec) (pair_clauses (box_cells 4 7))
     [- v 4 7 5; - v 5 8 5]
   + count_occ (list_eq_dec Z.eq_dec) (pair_clauses (box_cells 4 7))
       [- v 5 8 5; - v 4 7 5] = 1)%nat.
Proof.
  destruct valid_blocks as (_ & _ & _ & HG & _ & H & _).
  assert (Hin : In (box_cells 4 7) groups).
  { apply HG. right. exists 4, 7.
    split; [cbn; auto|]. split; [cbn; auto | reflexivity]. }
  destruct (H _ Hin) as (_ & _ & _ & _ & Hc).
  apply (Hc (4, 7) (5, 8) 5).
  - apply In_box_cells. lia.
  - apply In_box_cells. lia.
  - intros [=].
  - lia.
Defined.

(** *** Truth of the clauses under a valuation *)

Lemma v_pos (i j d : Z) : 1 <= i -> 1 <= j -> 1 <= d -> 0 < v i j d.
Proof. unfold v. lia. Qed.

Lemma lit_true_pos (rho : valuation) (l : Z) : 0 < l -> lit_true rho l = rho l.
Proof. intros H. unfold lit_true. destruct (Z.ltb_spec 0 l); [reflexivity | lia]. Qed.

Lemma lit_true_neg (rho : valuation) (l : Z) :
  0 < l -> lit_true rho (- l) = negb (rho l).
Proof.
  intros H. unfold lit_true.
  destruct (Z.ltb_spec 0 (- l)); [lia|].
  destruct (Z.ltb_spec (- l) 0); [|lia]. now rewrite Z.opp_involutive.
Qed.

Lemma models_app (rho : valuation) (a b : list clause) :
  models rho (a ++ b) <-> models rho a /\ models rho b.
Proof. apply Forall_app. Qed.

Lemma clause_true_two (rho : valuation) (a b : Z) :
  0 < a -> 0 < b ->
  (clause_true rho [- a; - b] = true <-> rho a = false \/ rho b = false).
Proof.
  intros Ha Hb. unfold clause_true. cbn [existsb].
  rewrite !lit_true_neg, orb_false_r, orb_true_iff, !negb_true_iff by assumption.
  reflexivity.
Qed.

Lemma clause_true_at_least_one (rho : valuation) (i j : Z) :
  1 <= i -> 1 <= j ->
  (clause_true rho (map (fun d => v i j d) (range 1 10)) = true <->
   exists d, 1 <= d <= 9 /\ rho (v i j d) = true).
Proof.
  intros Hi Hj. unfold clause_true. rewrite existsb_exists. split.
  - intros (l & Hl & H). apply in_map_iff in Hl as (d & <- & Hd).
    apply In_range in Hd. exists d. split; [lia|].
    rewrite lit_true_pos in H by (apply v_pos; lia). exact H.
  - intros (d & Hd & H). exists (v i j d). split.
    + apply in_map. apply In_range. lia.
    + rewrite lit_true_pos by (apply v_pos; lia). exact H.
Qed.

Lemma models_cell_part (rho : valuation) :
  models rho cell_part <->
  forall i j, 1 <= i <= 9 -> 1 <= j <= 9 ->
    (exists d, 1 <= d <= 9 /\ rho (v i j d) = true) /\
    (forall d dp, 1 <= d -> d < dp -> dp <= 9 ->
       rho (v i j d) = false \/ rho (v i j dp) = false).
Proof.
  unfold models, cell_part. rewrite Forall_flat_map, Forall_forall. split.
  - intros H i j Hi Hj.
    specialize (H i (proj2 (In_range 1 10 i) ltac:(lia))).
    rewrite Forall_flat_map, Forall_forall in H.
    specialize (H j (proj2 (In_range 1 10 j) ltac:(lia))).
    unfold cell_block in H. apply Forall_cons_iff in H as [H1 H2]. split.
    + apply clause_true_at_least_one in H1; [assumption | lia | lia].
    + intros d dp Hd Hlt Hdp.
      rewrite Forall_flat_map, Forall_forall in H2.
      specialize (H2 d (proj2 (In_range 1 10 d) ltac:(lia))).
      rewrite Forall_map, Forall_forall in H2.
      specialize (H2 dp (proj2 (In_range (d + 1) 10 dp) ltac:(lia))).
      apply clause_true_two in H2; [assumption | apply v_pos; lia | apply v_pos; lia].
  - intros H i Hi. apply In_range in Hi.
    rewrite Forall_flat_map, Forall_forall. intros j Hj. apply In_range in Hj.
    destruct (H i j ltac:(lia) ltac:(lia)) as [H1 H2].
    unfold cell_block. apply Forall_cons.
    + apply clause_true_at_least_one; [lia | lia | assumption].
    + rewrite Forall_flat_map, Forall_forall. intros d Hd. apply In_range in Hd.
      rewrite Forall_map, Forall_forall. intros dp Hdp. apply In_range in Hdp.
      apply clause_true_two; [apply v_pos; lia | apply v_pos; lia |].
      apply H2; lia.
Qed.

Lemma models_group_part (rho : valuation) :
  models rho group_part <->
  forall G, In G groups -> forall x y, In x G -> In y G -> x <> y ->
    forall d, 1 <= d <= 9 ->
      rho (v (fst x) (snd x) d) = false \/ rho (v (fst y) (snd y) d) = false.
Proof.
  unfold models, group_part. rewrite Forall_flat_map, Forall_forall. split.
  - intros H G HG x y Hx Hy Hne d Hd.
    specialize (H G HG). rewrite Forall_forall in H.
    destruct (group_facts G HG) as (_ & _ & Hb & _).
    pose proof (Hb x Hx) as Hbx. pose proof (Hb y Hy) as Hby.
    apply In_nth_error in Hx as [p Hp], Hy as [q Hq].
    assert (Hpq : (p < q)%nat \/ (q < p)%nat).
    { destruct (Nat.lt_trichotomy p q) as [|[->|]]; auto. congruence. }
    destruct Hpq as [Hpq | Hpq].
    + specialize (H (pair_clause x y d)).
      apply clause_true_two in H; [assumption | apply v_pos; lia | apply v_pos; lia |].
      apply In_pair_clauses. now exists p, q, x, y, d.
    + specialize (H (pair_clause y x d)).
      apply clause_true_two in H; [tauto | apply v_pos; lia | apply v_pos; lia |].
      apply In_pair_clauses. now exists q, p, y, x, d.
  - intros H G HG. rewrite Forall_forall. intros c Hc.
    apply In_pair_clauses in Hc as (p & q & x & y & d & Hpq & Hp & Hq & Hd & ->).
    destruct (group_facts G HG) as (_ & Hnd & Hb & _).
    assert (Hx : In x G) by (eapply nth_error_In; eassumption).
    assert (Hy : In y G) by (eapply nth_error_In; eassumption).
    pose proof (Hb x Hx) as Hbx. pose proof (Hb y Hy) as Hby.
    apply clause_true_two; [apply v_pos; lia | apply v_pos; lia |].
    apply (H G HG); try assumption.
    intros ->. rewrite NoDup_nth_error in Hnd.
    assert (p = q); [|lia].
    apply Hnd; [|congruence]. apply nth_error_Some. congruence.
Qed.

Lemma sudoku_res_no_zero : no_zero sudoku_res = true.
Proof. rewrite sudoku_res_eq. vm_cast_no_check (eq_refl true). Qed.

(** From here on the clause lists are used through the lemmas above only. *)
#[local] Opaque sudoku_res cell_part group_part.

(** *** Valuations and digit functions *)

Lemma models_sudoku_fun (rho : valuation) (f : Z -> Z -> Z) :
  represents rho f -> (models rho sudoku_res <-> sudoku_fun f).
Proof.
  intros Hr. rewrite sudoku_res_eq, models_app, models_cell_part, models_group_part.
  split.
  - intros [Hc Hg].
    assert (Hf : forall i j, 1 <= i <= 9 -> 1 <= j <= 9 -> 1 <= f i j <= 9).
    { intros i j Hi Hj. destruct (Hc i j Hi Hj) as [(d & Hd & H) _].
      apply Hr in H; lia. }
    split; [exact Hf|].
    intros G HG x y Hx Hy Hne E.
    destruct (group_facts G HG) as (_ & _ & Hb & _).
    pose proof (Hb x Hx) as [Hx1 Hx2]. pose proof (Hb y Hy) as [Hy1 Hy2].
    pose proof (Hf (fst x) (snd x) ltac:(lia) ltac:(lia)) as Hd.
    destruct (Hg G HG x y Hx Hy Hne (f (fst x) (snd x)) Hd) as [H | H].
    + rewrite (proj2 (Hr (fst x) (snd x) _ ltac:(lia) ltac:(lia) Hd) eq_refl) in H.
      discriminate.
    + rewrite (proj2 (Hr (fst y) (snd y) _ ltac:(lia) ltac:(lia) Hd) (eq_sym E)) in H.
      discriminate.
  - intros [Hf Hg]. split.
    + intros i j Hi Hj. split.
      * exists (f i j). split; [now apply Hf|]. apply Hr; auto.
      * intros d dp Hd Hlt Hdp.
        destruct (rho (v i j d)) eqn:E1; [|now left].
        destruct (rho (v i j dp)) eqn:E2; [|now right].
        apply Hr in E1, E2; lia.
    + intros G HG x y Hx Hy Hne d Hd.
      destruct (group_facts G HG) as (_ & _ & Hb & _).
      pose proof (Hb x Hx) as [Hx1 Hx2]. pose proof (Hb y Hy) as [Hy1 Hy2].
      destruct (rho (v (fst x) (snd x) d)) eqn:E1; [|now left].
      destruct (rho (v (fst y) (snd y) d)) eqn:E2; [|now right].
      apply Hr in E1, E2; try lia.
      exfalso. apply (Hg G HG x y Hx Hy Hne). congruence.
Qed.

Lemma pick_represents (rho : valuation) :
  models rho cell_part -> represents rho (pick rho).
Proof.
  intros Hm i j d Hi Hj Hd. rewrite models_cell_part in Hm.
  destruct (Hm i j Hi Hj) as [(d0 & Hd0 & H0) Hamo].
  unfold pick. destruct (find _ _) as [d1|] eqn:E.
  - apply find_some in E as [Hin H1]. apply In_range in Hin. split.
    + intros H. destruct (Z.lt_trichotomy d d1) as [Hlt | [-> | Hlt]]; [|reflexivity|].
      * destruct (Hamo d d1) as [X | X]; try lia; congruence.
      * destruct (Hamo d1 d) as [X | X]; try lia; congruence.
    + now intros <-.
  - pose proof (find_none _ _ E d0 (proj2 (In_range 1 10 d0) ltac:(lia))) as X.
    cbv beta in X. congruence.
Qed.

Lemma v_decode (i j d : Z) :
  1 <= i <= 9 -> 1 <= j <= 9 -> 1 <= d <= 9 ->
  (v i j d - 1) / 81 + 1 = i /\
  (v i j d - 1) mod 81 / 9 + 1 = j /\
  (v i j d - 1) mod 9 + 1 = d.
Proof.
  intros Hi Hj Hd. unfold v.
  replace (81 * (i - 1) + 9 * (j - 1) + d - 1)
    with ((9 * (j - 1) + (d - 1)) + (i - 1) * 81) by lia.
  rewrite Z.div_add, Z.mod_add by lia.
  rewrite (Z.div_small (9 * (j - 1) + (d - 1)) 81) by lia.
  rewrite (Z.mod_small (9 * (j - 1) + (d - 1)) 81) by lia.
  replace (9 * (j - 1) + (d - 1) + (i - 1) * 81)
    with ((d - 1) + (9 * (i - 1) + (j - 1)) * 9) by lia.
  rewrite Z.mod_add by lia.
  replace (9 * (j - 1) + (d - 1)) with ((d - 1) + (j - 1) * 9) by lia.
  rewrite Z.div_add by lia.
  rewrite (Z.div_small (d - 1) 9), (Z.mod_small (d - 1) 9) by lia.
  lia.
Qed.

Lemma rho_of_represents (c : grid) :
  (forall i j, 1 <= i <= 9 -> 1 <= j <= 9 -> exists n, cell c i j = Int n) ->
  represents (rho_of c) (fun i j => num (cell c i j)).
Proof.
  intros Hc i j d Hi Hj Hd. unfold rho_of.
  destruct (v_decode i j d Hi Hj Hd) as (-> & -> & ->).
  destruct (Hc i j Hi Hj) as [n ->]. cbn [num]. apply Z.eqb_eq.
Qed.

(** *** Grids *)

Lemma nth_map_range {A : Type} (f : Z -> A) (a b k : Z) (dflt : A) :
  a <= k < b -> nth (Z.to_nat (k - a)) (map f (range a b)) dflt = f k.
Proof.
  intros H. apply nth_error_nth. rewrite nth_error_map, nth_error_range by lia.
  cbn. do 2 f_equal. lia.
Qed.

Lemma cell_grid_of (f : Z -> Z -> Z) (i j : Z) :
  1 <= i <= 9 -> 1 <= j <= 9 -> cell (grid_of f) i j = Int (f i j).
Proof.
  intros Hi Hj. unfold cell, grid_of.
  rewrite (nth_map_range (fun i => map (fun j => Int (f i j)) (range 1 10))) by lia.
  now rewrite (nth_map_range (fun j => Int (f i j))) by lia.
Qed.

Lemma shape9_grid_of (f : Z -> Z -> Z) : shape9 (grid_of f).
Proof.
  unfold shape9, grid_of. split.
  - now rewrite length_map, length_range.
  - apply Forall_map, Forall_forall. intros i _. now rewrite length_map, length_range.
Qed.

(** *** Rows, columns and boxes against the cell lists of the encoder *)

Lemma same_cells_spec (u G : list (Z * Z)) :
  same_cells u G = true -> forall x, In x u <-> In x G.
Proof.
  unfold same_cells. rewrite andb_true_iff, !forallb_forall. intros [H1 H2] x.
  split; intros H; apply memc_In; auto.
Qed.

Lemma units_ok : forallb unit_ok board_units = true.
Proof. vm_cast_no_check (eq_refl true). Qed.

Lemma groups_are_units : forallb group_is_unit groups = true.
Proof. vm_cast_no_check (eq_refl true). Qed.

Lemma unit_facts (u : list (Z * Z)) :
  In u board_units ->
  length u = 9%nat /\ NoDup u /\
  (forall x, In x u -> 1 <= fst x <= 9 /\ 1 <= snd x <= 9) /\
  exists G, In G groups /\ forall x, In x u <-> In x G.
Proof.
  intros Hu. pose proof units_ok as H. rewrite forallb_forall in H.
  specialize (H u Hu). unfold unit_ok in H.
  rewrite !andb_true_iff, Nat.eqb_eq in H. destruct H as (((H1 & H2) & H3) & H4).
  split; [assumption|]. split; [now apply nodupc_NoDup|]. split.
  - intros x Hx. rewrite forallb_forall in H3. now apply in_board_spec, H3.
  - apply existsb_exists in H4 as (G & HG & H4). exists G. split; [assumption|].
    now apply same_cells_spec.
Qed.

Lemma group_unit (G : list (Z * Z)) :
  In G groups -> exists u, In u board_units /\ forall x, In x u <-> In x G.
Proof.
  intros HG. pose proof groups_are_units as H. rewrite forallb_forall in H.
  specialize (H G HG). apply existsb_exists in H as (u & Hu & H).
  exists u. split; [assumption | now apply same_cells_spec].
Qed.

Lemma cell_in_row (i j : Z) :
  1 <= i <= 9 -> 1 <= j <= 9 -> exists u, In u board_units /\ In (i, j) u.
Proof.
  intros Hi Hj. exists (map (fun j => (i, j)) (range 1 10)). split.
  - unfold board_units, board_rows. apply in_or_app. left.
    apply (in_map (fun i => map (fun j => (i, j)) (range 1 10))), In_range. lia.
  - apply (in_map (fun j => (i, j))), In_range. lia.
Qed.

Lemma NoDup_map_eq {A B : Type} (f : A -> B) (l : list A) (x y : A) :
  NoDup (map f l) -> In x l -> In y l -> f x = f y -> x = y.
Proof.
  induction l as [|a l IH]; cbn; [easy|].
  intros Hnd [-> | Hx] [-> | Hy] E; try reflexivity.
  - apply NoDup_cons_iff in Hnd as [Hn _]. exfalso. apply Hn. rewrite E. now apply in_map.
  - apply NoDup_cons_iff in Hnd as [Hn _]. exfalso. apply Hn. rewrite <- E. now apply in_map.
  - apply NoDup_cons_iff in Hnd as [_ Hnd]. auto.
Qed.

Lemma NoDup_map_on {A B : Type} (f : A -> B) (l : list A) :
  NoDup l -> (forall x y, In x l -> In y l -> f x = f y -> x = y) -> NoDup (map f l).
Proof.
  induction 1 as [|a l Ha Hnd IH]; cbn; intros Hinj; constructor.
  - intros Hin. apply in_map_iff in Hin as (y & E & Hy).
    apply Ha. rewrite (Hinj a y); auto.
  - apply IH. intros x y Hx Hy. apply Hinj; now right.
Qed.

Lemma NoDup_digits : NoDup (map Int (range 1 10)).
Proof.
  apply NoDup_map_on.
  - unfold range. apply Finite.Injective_map_NoDup; [|apply seq_NoDup].
    intros a b. lia.
  - intros x y _ _ [=]. assumption.
Qed.

Lemma In_digits (x : value) :
  In x (map Int (range 1 10)) <-> exists d, x = Int d /\ 1 <= d <= 9.
Proof.
  rewrite in_map_iff. split.
  - intros (d & <- & Hd). apply In_range in Hd. exists d. split; [reflexivity | lia].
  - intros (d & -> & Hd). exists d. split; [reflexivity | apply In_range; lia].
Qed.

Lemma valid_sudoku_fun (c : grid) :
  valid_sudoku c <->
  shape9 c /\
  (forall i j, 1 <= i <= 9 -> 1 <= j <= 9 -> exists n, cell c i j = Int n) /\
  sudoku_fun (fun i j => num (cell c i j)).
Proof.
  unfold valid_sudoku. rewrite Forall_forall. split.
  - intros [Hs HP].
    assert (Hd : forall i j, 1 <= i <= 9 -> 1 <= j <= 9 ->
                   exists d, cell c i j = Int d /\ 1 <= d <= 9).
    { intros i j Hi Hj. destruct (cell_in_row i j Hi Hj) as (u & Hu & Hin).
      apply In_digits. eapply Permutation_in; [apply (HP u Hu)|].
      unfold unit_values. now apply (in_map (fun x => cell c (fst x) (snd x)) u (i, j)). }
    split; [assumption|]. split; [|split].
    + intros i j Hi Hj. destruct (Hd i j Hi Hj) as (d & -> & _). now exists d.
    + intros i j Hi Hj. destruct (Hd i j Hi Hj) as (d & -> & ?). assumption.
    + intros G HG x y Hx Hy Hne E.
      destruct (group_unit G HG) as (u & Hu & Hsame).
      destruct (group_facts G HG) as (_ & _ & Hb & _).
      pose proof (Hb x Hx) as [Hx1 Hx2]. pose proof (Hb y Hy) as [Hy1 Hy2].
      destruct (Hd _ _ Hx1 Hx2) as (a & Ea & _).
      destruct (Hd _ _ Hy1 Hy2) as (b & Eb & _).
      rewrite Ea, Eb in E. cbn in E. subst b.
      apply Hne. apply (NoDup_map_eq (fun x => cell c (fst x) (snd x)) u).
      * eapply Permutation_NoDup; [apply Permutation_sym, (HP u Hu) | apply NoDup_digits].
      * now apply Hsame.
      * now apply Hsame.
      * congruence.
  - intros (Hs & Hint & Hf & Hdist). split; [assumption|].
    intros u Hu. destruct (unit_facts u Hu) as (Hlen & Hnd & Hb & G & HG & Hsame).
    apply NoDup_Permutation_bis.
    + unfold unit_values. apply NoDup_map_on; [assumption|].
      intros x y Hx Hy E.
      destruct (Z.eq_dec (fst x) (fst y)) as [E1 | N1].
      * destruct (Z.eq_dec (snd x) (snd y)) as [E2 | N2].
        { destruct x, y. cbn in *. congruence. }
        exfalso. apply (Hdist G HG x y); [now apply Hsame | now apply Hsame | | ].
        { intros ->. now apply N2. }
        now rewrite E.
      * exfalso. apply (Hdist G HG x y); [now apply Hsame | now apply Hsame | | ].
        { intros ->. now apply N1. }
        now rewrite E.
    + unfold unit_values. now rewrite !length_map, length_range, Hlen.
    + intros x Hx. unfold unit_values in Hx. apply in_map_iff in Hx as (z & <- & Hz).
      destruct (Hb z Hz) as [Hz1 Hz2]. apply In_digits.
      destruct (Hint _ _ Hz1 Hz2) as [n En]. exists n. split; [assumption|].
      pose proof (Hf _ _ Hz1 Hz2) as Hr. rewrite En in Hr. exact Hr.
Qed.

(** *** Loops in the monad *)

Lemma for_eachM_append {X A B : Type} (f : A -> list B)
    (body : A -> list B -> M X (list B)) (xs : list A) (s : store X) :
  (forall x acc, In x xs -> body x acc s = (Ok (acc ++ f x), s)) ->
  forall acc, for_eachM xs body acc s = (Ok (acc ++ flat_map f xs), s).
Proof.
  induction xs as [|x xs IH]; intros Hb acc; cbn.
  - unfold ret. now rewrite app_nil_r.
  - unfold bind. rewrite Hb by now left.
    rewrite IH by (intros; apply Hb; now right). now rewrite app_assoc.
Qed.

Lemma for_eachM_inv {X A S : Type} (I : list A -> S -> store X -> Prop)
    (body : A -> S -> M X S) (xs : list A) :
  (forall done x acc s, In x xs -> I done acc s ->
     exists acc' s', body x acc s = (Ok acc', s') /\ I (done ++ [x]) acc' s') ->
  forall done acc s, I done acc s ->
    exists acc' s', for_eachM xs body acc s = (Ok acc', s') /\ I (done ++ xs) acc' s'.
Proof.
  induction xs as [|x xs IH]; intros Hb done acc s HI; cbn.
  - exists acc, s. rewrite app_nil_r. now split.
  - destruct (Hb done x acc s (or_introl eq_refl) HI) as (acc1 & s1 & E & HI1).
    assert (Hb' : forall done y acc s, In y xs -> I done acc s ->
              exists acc' s', body y acc s = (Ok acc', s') /\ I (done ++ [y]) acc' s').
    { intros d y a t Hy. apply Hb. now right. }
    destruct (IH Hb' (done ++ [x]) acc1 s1 HI1) as (acc2 & s2 & E2 & HI2).
    exists acc2, s2. unfold bind. rewrite E, E2. split; [reflexivity|].
    now rewrite <- app_assoc in HI2.
Qed.

(** *** Reading and writing the grid *)

Lemma shape9_row (g : grid) (i : Z) :
  shape9 g -> 1 <= i <= 9 ->
  exists row, nth_error g (Z.to_nat (i - 1)) = Some row /\ length row = 9%nat.
Proof.
  intros [Hl Hr] Hi.
  destruct (nth_error g (Z.to_nat (i - 1))) as [row|] eqn:E.
  - exists row. split; [reflexivity|]. rewrite Forall_forall in Hr.
    eapply Hr, nth_error_In, E.
  - apply nth_error_None in E. lia.
Qed.

Lemma index_ok {A : Type} (xs : list A) (k : Z) (dflt : A) :
  0 <= k < Z.of_nat (length xs) -> index xs k = Ok (nth (Z.to_nat k) xs dflt).
Proof.
  intros H. unfold index. destruct (Z.ltb_spec k 0); [lia|].
  destruct (nth_error xs (Z.to_nat k)) as [x|] eqn:E.
  - now rewrite (nth_error_nth _ _ dflt E).
  - apply nth_error_None in E. lia.
Qed.

Lemma grid_get_cell (g : grid) (i j : Z) :
  shape9 g -> 1 <= i <= 9 -> 1 <= j <= 9 -> grid_get g i j = Ok (cell g i j).
Proof.
  intros Hs Hi Hj. destruct (shape9_row g i Hs Hi) as (row & E & Hl).
  unfold grid_get, cell. rewrite (index_ok g (i - 1) []) by (destruct Hs; lia).
  rewrite (nth_error_nth _ _ [] E).
  apply index_ok. lia.
Qed.

Lemma length_update {A : Type} (xs : list A) (k : nat) (x : A) :
  length (update xs k x) = length xs.
Proof.
  revert k. induction xs as [|a xs IH]; intros [|k]; cbn; auto.
Qed.

Lemma nth_update_same {A : Type} (xs : list A) (k : nat) (x dflt : A) :
  (k < length xs)%nat -> nth k (update xs k x) dflt = x.
Proof.
  revert k. induction xs as [|a xs IH]; intros [|k]; cbn; intros H; try lia; auto.
  apply IH. lia.
Qed.

Lemma nth_update_other {A : Type} (xs : list A) (k k' : nat) (x dflt : A) :
  k' <> k -> nth k' (update xs k x) dflt = nth k' xs dflt.
Proof.
  revert k k'. induction xs as [|a xs IH]; intros [|k] [|k']; cbn; intros H;
    try reflexivity; try lia.
  apply IH. lia.
Qed.

Lemma grid_set_spec (g : grid) (i j : Z) (x : value) :
  shape9 g -> 1 <= i <= 9 -> 1 <= j <= 9 ->
  exists g', grid_set g i j x = Ok g' /\ shape9 g' /\
    cell g' i j = x /\
    forall i' j', 1 <= i' -> 1 <= j' -> (i', j') <> (i, j) -> cell g' i' j' = cell g i' j'.
Proof.
  intros Hs Hi Hj. destruct (shape9_row g i Hs Hi) as (row & E & Hl).
  pose proof Hs as [Hlg Hrows].
  unfold grid_set. rewrite (index_ok g (i - 1) []) by lia.
  rewrite (nth_error_nth _ _ [] E).
  rewrite (index_ok row (j - 1) NoneV) by lia.
  eexists. split; [reflexivity|]. split; [|split].
  - split; [now rewrite length_update|].
    apply Forall_forall. intros r Hr. apply In_nth_error in Hr as [k Hk].
    destruct (Nat.eq_dec k (Z.to_nat (i - 1))) as [-> | Hne].
    + apply (nth_error_nth _ _ []) in Hk. rewrite nth_update_same in Hk by lia.
      subst r. now rewrite length_update.
    + pose proof (nth_error_nth _ _ [] Hk) as Hk'.
      rewrite nth_update_other in Hk' by assumption. subst r.
      rewrite Forall_forall in Hrows. apply Hrows, nth_In.
      assert (Hlt : (k < length (update g (Z.to_nat (i - 1))
                                     (update row (Z.to_nat (j - 1)) x)))%nat)
        by (apply nth_error_Some; congruence).
      now rewrite length_update in Hlt.
  - unfold cell. rewrite nth_update_same by lia. apply nth_update_same. lia.
  - intros i' j' Hi' Hj' Hne. unfold cell.
    destruct (Z.eq_dec i' i) as [-> | Hni].
    + rewrite nth_update_same by lia.
      rewrite nth_update_other by (intros Heq; apply Hne; f_equal; lia).
      now rewrite (nth_error_nth _ _ [] E).
    + now rewrite nth_update_other by lia.
Qed.

(** *** Clue injection *)

Lemma clue_loops_spec (g : grid) (cs : list clause) (log : list (list clause)) :
  shape9 g ->
  clue_loops cs (mkStore g log) = (Ok (cs ++ clue_clauses g), mkStore g log).
Proof.
  intros Hs. unfold clue_loops, clue_clauses.
  apply for_eachM_append. intros i acc Hi. apply In_range in Hi.
  apply for_eachM_append. intros j acc' Hj. apply In_range in Hj.
  unfold bind, get_obj, lift. cbn [obj].
  rewrite grid_get_cell by (assumption || lia).
  destruct (cell g i j) as [n|]; cbn [truthy].
  - destruct (n =? 0); cbn [negb]; unfold ret; now rewrite ?app_nil_r.
  - unfold ret. now rewrite app_nil_r.
Qed.

Lemma encode_spec (g : grid) (log : list (list clause)) :
  shape9 g ->
  encode (mkStore g log) = (Ok (sudoku_res ++ clue_clauses g), mkStore g log).
Proof.
  intros Hs. unfold encode, bind, lift. rewrite sudoku_clauses_ok.
  now apply clue_loops_spec.
Qed.

Lemma In_cells81 (x : Z * Z) :
  In x cells81 <-> 1 <= fst x <= 9 /\ 1 <= snd x <= 9.
Proof.
  unfold cells81. rewrite in_flat_map. split.
  - intros (i & Hi & H). apply in_map_iff in H as (j & <- & Hj).
    apply In_range in Hi, Hj. cbn. lia.
  - intros [Hi Hj]. exists (fst x). split; [apply In_range; lia|].
    apply in_map_iff. exists (snd x). split; [now destruct x | apply In_range; lia].
Qed.

Lemma NoDup_cells81 : NoDup cells81.
Proof. apply nodupc_NoDup. vm_compute. reflexivity. Qed.

Lemma clue_row_filter (g : grid) (i : Z) (js : list Z) :
  flat_map (fun j =>
    match cell g i j with
    | Int n => if n =? 0 then [] else [[v i j n]]
    | NoneV => []
    end) js =
  map (fun x => [v (fst x) (snd x) (num (cell g (fst x) (snd x)))])
    (filter (fun x => truthy (cell g (fst x) (snd x))) (map (fun j => (i, j)) js)).
Proof.
  induction js as [|j js IH]; [reflexivity|]. cbn [flat_map map filter fst snd].
  destruct (cell g i j) as [n|] eqn:E; cbn [truthy]; [|exact IH].
  destruct (n =? 0); cbn [negb app map fst snd]; rewrite IH; [reflexivity|].
  now rewrite E.
Qed.

Lemma clue_clauses_filter (g : grid) :
  clue_clauses g =
  map (fun x => [v (fst x) (snd x) (num (cell g (fst x) (snd x)))])
    (filter (fun x => truthy (cell g (fst x) (snd x))) cells81).
Proof.
  unfold clue_clauses, cells81. generalize (range 1 10) at 2 4. intros l.
  induction l as [|i l IH]; [reflexivity|]. cbn [flat_map].
  now rewrite filter_app, map_app, IH, clue_row_filter.
Qed.

Lemma In_clue_clauses (g : grid) (c : clause) :
  In c (clue_clauses g) <->
  exists i j n, 1 <= i <= 9 /\ 1 <= j <= 9 /\ cell g i j = Int n /\ n <> 0 /\ c = [v i j n].
Proof.
  unfold clue_clauses. rewrite in_flat_map. split.
  - intros (i & Hi & H). apply in_flat_map in H as (j & Hj & H).
    apply In_range in Hi, Hj. destruct (cell g i j) as [n|] eqn:E; [|contradiction].
    destruct (Z.eqb_spec n 0); [contradiction|]. destruct H as [<- | []].
    exists i, j, n. repeat split; try lia; assumption.
  - intros (i & j & n & Hi & Hj & E & Hn & ->).
    exists i. split; [apply In_range; lia|]. apply in_flat_map.
    exists j. split; [apply In_range; lia|]. rewrite E.
    destruct (Z.eqb_spec n 0); [contradiction | now left].
Qed.

(** C5: from any clause list, the loops of lines 78-87 return that list
    followed by exactly one unit clause [[v(i, j, d)]] for each cell whose
    value [d] is nonzero, and nothing for the other cells; in [solve] the
    list they start from is the base list, which is kept as it is. *)
Theorem clue_injection (g : grid) (log : list (list clause)) :
  shape9 g ->
  let clues :=
    map (fun x => [v (fst x) (snd x) (num (cell g (fst x) (snd x)))])
      (filter (fun x => truthy (cell g (fst x) (snd x))) cells81) in
  (forall cs, clue_loops cs (mkStore g log) = (Ok (cs ++ clues), mkStore g log)) /\
  encode (mkStore g log) = (Ok (sudoku_res ++ clues), mkStore g log) /\
  NoDup cells81 /\
  (forall i j, In (i, j) cells81 <-> 1 <= i <= 9 /\ 1 <= j <= 9) /\
  (forall c, In c clues <->
     exists i j n, 1 <= i <= 9 /\ 1 <= j <= 9 /\
       cell g i j = Int n /\ n <> 0 /\ c = [v i j n]).
Proof.
  intros Hs clues. subst clues. rewrite <- clue_clauses_filter.
  split; [intros cs; now apply clue_loops_spec|].
  split; [now apply encode_spec|].
  split; [exact NoDup_cells81|].
  split; [intros i j; apply (In_cells81 (i, j))|].
  apply In_clue_clauses.
Qed.

Lemma clue_injection_witness :
  encode (mkStore first [])
  = (Ok (sudoku_res
         ++ [[v 1 2 2]; [v 2 4 6]; [v 2 9 3]; [v 3 3 4]; [v 4 9 2];
             [v 5 2 8]; [v 5 8 1]; [v 6 1 6]]),
     mkStore first []).
Proof.
  assert (Hs : shape9 first) by (split; [reflexivity | repeat constructor]).
  exact (proj1 (proj2 (clue_injection first [] Hs))).
Defined.

(** *** Satisfiability against completions *)

Lemma wf_gridb_spec (g : grid) : wf_gridb g = true -> wf_grid g.
Proof.
  unfold wf_gridb, wf_grid, shape9.
  rewrite !andb_true_iff, Nat.eqb_eq, !forallb_forall.
  intros [[Hl Hr] Hd]. repeat split; [assumption | |]; apply Forall_forall; intros row Hrow.
  - apply Nat.eqb_eq. now apply Hr.
  - apply Forall_forall. intros x Hx.
    specialize (Hd row Hrow). rewrite forallb_forall in Hd. specialize (Hd x Hx).
    destruct x as [n|]; [|discriminate]. exists n. split; [reflexivity|].
    cbn in Hd. apply andb_true_iff in Hd. lia.
Qed.

Lemma wf_cell (g : grid) (i j : Z) :
  wf_grid g -> 1 <= i <= 9 -> 1 <= j <= 9 ->
  exists n, cell g i j = Int n /\ 0 <= n <= 9.
Proof.
  intros [Hs Hd] Hi Hj. destruct (shape9_row g i Hs Hi) as (row & E & Hl).
  unfold cell. rewrite (nth_error_nth _ _ [] E).
  rewrite Forall_forall in Hd. specialize (Hd row (nth_error_In _ _ E)).
  rewrite Forall_forall in Hd. apply Hd, nth_In. lia.
Qed.

Lemma sudoku_fun_ext (f f' : Z -> Z -> Z) :
  (forall i j, 1 <= i <= 9 -> 1 <= j <= 9 -> f i j = f' i j) ->
  sudoku_fun f -> sudoku_fun f'.
Proof.
  intros E [Hf Hg]. split.
  - intros i j Hi Hj. rewrite <- E by assumption. now apply Hf.
  - intros G HG x y Hx Hy Hne.
    destruct (group_facts G HG) as (_ & _ & Hb & _).
    pose proof (Hb x Hx) as [Hx1 Hx2]. pose proof (Hb y Hy) as [Hy1 Hy2].
    rewrite <- !E by assumption. now apply (Hg G HG).
Qed.

Lemma models_completion (g : grid) (rho : valuation) :
  wf_grid g -> models rho (sudoku_res ++ clue_clauses g) ->
  valid_sudoku (grid_of (pick rho)) /\ agrees g (grid_of (pick rho)).
Proof.
  intros Hwf Hm. apply models_app in Hm as [Hb Hc].
  assert (Hr : represents rho (pick rho)).
  { apply pick_represents. rewrite sudoku_res_eq in Hb.
    apply models_app in Hb as [Hb1 _]. exact Hb1. }
  pose proof (proj1 (models_sudoku_fun _ _ Hr) Hb) as Hf. split.
  - apply valid_sudoku_fun. split; [apply shape9_grid_of|]. split.
    + intros i j Hi Hj. rewrite cell_grid_of by assumption. eauto.
    + apply (sudoku_fun_ext (pick rho)); [|assumption].
      intros i j Hi Hj. now rewrite cell_grid_of.
  - intros i j n Hi Hj E Hn. rewrite cell_grid_of by assumption. f_equal.
    destruct (wf_cell g i j Hwf Hi Hj) as (n' & E' & Hn').
    assert (n' = n) by congruence. subst n'.
    apply Hr; [assumption | assumption | lia |].
    unfold models in Hc. rewrite Forall_forall in Hc.
    specialize (Hc [v i j n]). unfold clause_true in Hc. cbn [existsb] in Hc.
    rewrite lit_true_pos, orb_false_r in Hc by (apply v_pos; lia).
    apply Hc, In_clue_clauses. exists i, j, n. auto.
Qed.

Lemma completion_models (g c : grid) :
  wf_grid g -> valid_sudoku c -> agrees g c ->
  models (rho_of c) (sudoku_res ++ clue_clauses g).
Proof.
  intros Hwf Hv Ha. apply valid_sudoku_fun in Hv as (Hs & Hint & Hf).
  pose proof (rho_of_represents c Hint) as Hr.
  apply models_app. split; [apply (models_sudoku_fun _ _ Hr); exact Hf|].
  apply Forall_forall. intros cl Hcl.
  apply In_clue_clauses in Hcl as (i & j & n & Hi & Hj & E & Hn & ->).
  destruct (wf_cell g i j Hwf Hi Hj) as (n' & E' & Hn').
  assert (n' = n) by congruence. subst n'.
  unfold clause_true. cbn [existsb].
  rewrite lit_true_pos, orb_false_r by (apply v_pos; lia).
  apply Hr; [assumption | assumption | lia |].
  now rewrite (Ha i j n Hi Hj E Hn).
Qed.

(** C1: for a 9x9 grid with cell values between 0 and 9, the clause list
    built by lines 77-87 (the base list followed by the unit clauses of the
    nonzero cells) is satisfiable if and only if the grid has a completion
    that is a valid completed Sudoku. *)
Theorem encoding_equisatisfiable (g : grid) (log : list (list clause)) :
  wf_grid g ->
  encode (mkStore g log) = (Ok (sudoku_res ++ clue_clauses g), mkStore g log) /\
  (satisfiable (sudoku_res ++ clue_clauses g) <-> has_completion g).
Proof.
  intros Hwf. split; [apply encode_spec, Hwf|]. split.
  - intros [rho Hm]. exists (grid_of (pick rho)). now apply models_completion.
  - intros (c & Hv & Ha). exists (rho_of c). now apply completion_models.
Qed.

Lemma encoding_equisatisfiable_witness :
  wf_grid first /\
  (satisfiable (sudoku_res ++ clue_clauses first) <-> has_completion first).
Proof.
  assert (Hwf : wf_grid first) by (apply wf_gridb_spec; reflexivity).
  split; [exact Hwf|]. exact (proj2 (encoding_equisatisfiable first [] Hwf)).
Defined.

(** *** Decoding *)

Lemma read_cell_from_list (m : list Z) (i j : Z) (ds : list Z) :
  read_cell_from (SolList m) i j ds =
  Ok (match find (fun d => asserted m (v i j d)) ds with
      | Some d => Int d
      | None => NoneV
      end).
Proof.
  induction ds as [|d ds IH]; [reflexivity|]. cbn [read_cell_from contains find].
  fold (asserted m (v i j d)). now destruct (asserted m (v i j d)).
Qed.

Lemma cell_eq_dec (x y : Z * Z) : {x = y} + {x <> y}.
Proof. decide equality; apply Z.eq_dec. Qed.

Lemma write_row_spec (read : Z -> Z -> result value) (D : Z -> Z -> value)
    (done : list Z) (i : Z) (g : grid) (log : list (list clause)) :
  1 <= i <= 9 ->
  (forall j, 1 <= j <= 9 -> read i j = Ok (D i j)) ->
  shape9 g ->
  (forall i' j', 1 <= i' <= 9 -> 1 <= j' <= 9 -> In i' done -> cell g i' j' = D i' j') ->
  exists g',
    for_eachM (range 1 10) (fun j (_ : unit) =>
      d <- lift (read i j) ;;
      g <- get_obj ;;
      g' <- lift (grid_set g i j d) ;;
      set_obj g') tt (mkStore g log) = (Ok tt, mkStore g' log) /\
    shape9 g' /\
    (forall i' j', 1 <= i' <= 9 -> 1 <= j' <= 9 -> In i' (done ++ [i]) ->
       cell g' i' j' = D i' j').
Proof.
  intros Hi Hread Hs Hdone.
  pose (I := fun (dj : list Z) (_ : unit) (s : store grid) =>
    calls s = log /\ shape9 (obj s) /\
    (forall i' j', 1 <= i' <= 9 -> 1 <= j' <= 9 -> In i' done ->
       cell (obj s) i' j' = D i' j') /\
    (forall j', 1 <= j' <= 9 -> In j' dj -> cell (obj s) i j' = D i j')).
  destruct (for_eachM_inv I
              (fun j (_ : unit) =>
                 d <- lift (read i j) ;;
                 g <- get_obj ;;
                 g' <- lift (grid_set g i j d) ;;
                 set_obj g') (range 1 10)) with (done := @nil Z) (acc := tt)
              (s := mkStore g log) as ([] & [g' log'] & E & Hlog & Hs' & Hd' & Hrow).
  - intros dj j [] [g1 log1] Hj (Hlog & Hs1 & Hd1 & Hr1). cbn [obj calls] in *.
    apply In_range in Hj.
    destruct (grid_set_spec g1 i j (D i j) Hs1 Hi ltac:(lia))
      as (g2 & E & Hs2 & Hsame & Hother).
    exists tt, (mkStore g2 log1).
    unfold bind, lift, get_obj, set_obj. cbn [obj calls].
    rewrite Hread by lia. rewrite E. split; [reflexivity|].
    cbn [obj calls]. split; [assumption|]. split; [assumption|]. split.
    + intros i' j' Hi' Hj' Hin. destruct (cell_eq_dec (i', j') (i, j)) as [[= -> ->] | Hne].
      * assumption.
      * rewrite Hother by (lia || assumption). now apply Hd1.
    + intros j' Hj' Hin. apply in_app_or in Hin as [Hin | [<- | []]].
      * destruct (Z.eq_dec j' j) as [-> | Hne]; [assumption|].
        rewrite Hother by (try lia; congruence). now apply Hr1.
      * assumption.
  - unfold I. cbn [obj calls]. split; [reflexivity|]. split; [assumption|].
    split; [assumption|]. intros j' _ [].
  - cbn [obj calls] in *. subst log'. exists g'. split; [exact E|]. split; [assumption|].
    intros i' j' Hi' Hj' Hin. apply in_app_or in Hin as [Hin | [<- | []]].
    + now apply Hd'.
    + apply Hrow; [assumption|]. apply In_range. lia.
Qed.

Lemma write_loops_spec (read : Z -> Z -> result value) (D : Z -> Z -> value)
    (g : grid) (log : list (list clause)) :
  shape9 g ->
  (forall i j, 1 <= i <= 9 -> 1 <= j <= 9 -> read i j = Ok (D i j)) ->
  exists g',
    write_loops read (mkStore g log) = (Ok tt, mkStore g' log) /\
    shape9 g' /\
    (forall i j, 1 <= i <= 9 -> 1 <= j <= 9 -> cell g' i j = D i j).
Proof.
  intros Hs Hread.
  pose (I := fun (di : list Z) (_ : unit) (s : store grid) =>
    calls s = log /\ shape9 (obj s) /\
    (forall i' j', 1 <= i' <= 9 -> 1 <= j' <= 9 -> In i' di ->
       cell (obj s) i' j' = D i' j')).
  unfold write_loops.
  destruct (for_eachM_inv I
              (fun i (_ : unit) =>
                 for_eachM (range 1 10) (fun j (_ : unit) =>
                   d <- lift (read i j) ;;
                   g <- get_obj ;;
                   g' <- lift (grid_set g i j d) ;;
                   set_obj g') tt) (range 1 10)) with (done := @nil Z) (acc := tt)
              (s := mkStore g log) as ([] & [g' log'] & E & Hlog & Hs' & Hd').
  - intros di i [] [g1 log1] Hi (Hlog & Hs1 & Hd1). cbn [obj calls] in *. subst log1.
    apply In_range in Hi.
    destruct (write_row_spec read D di i g1 log ltac:(lia)
                (fun j Hj => Hread i j ltac:(lia) Hj) Hs1 Hd1) as (g2 & E & Hs2 & Hd2).
    exists tt, (mkStore g2 log). split; [exact E|]. unfold I. cbn [obj calls].
    split; [reflexivity|]. split; [assumption|]. exact Hd2.
  - unfold I. cbn [obj calls]. split; [reflexivity|]. split; [assumption|].
    intros i' j' _ _ [].
  - cbn [obj calls] in *. subst log'. exists g'. split; [exact E|]. split; [assumption|].
    intros i j Hi Hj. apply Hd'; [assumption | assumption |]. apply In_range. lia.
Qed.

(** *** Answers of the engine as valuations *)

Lemma consistentb_spec (m : list Z) : consistentb m = true -> consistent m.
Proof.
  unfold consistentb, consistent. rewrite forallb_forall. intros H l Hl.
  unfold asserted in Hl. apply existsb_exists in Hl as (x & Hx & E).
  apply Z.eqb_eq in E. subst x. apply negb_true_iff. now apply H.
Qed.

Lemma satisfiesb_spec (m : list Z) (cs : list clause) :
  satisfiesb m cs = true -> satisfies m cs.
Proof.
  unfold satisfiesb, satisfies. rewrite forallb_forall. intros H.
  apply Forall_forall. exact H.
Qed.

Lemma satisfies_models (m : list Z) (cs : list clause) :
  consistent m -> no_zero cs = true -> satisfies m cs -> models (asserted m) cs.
Proof.
  intros Hc Hz Hs. unfold satisfies in Hs. unfold no_zero in Hz.
  rewrite Forall_forall in Hs. rewrite forallb_forall in Hz.
  apply Forall_forall. intros c Hin.
  specialize (Hs c Hin). specialize (Hz c Hin). rewrite forallb_forall in Hz.
  apply existsb_exists in Hs as (l & Hl & Ha).
  unfold clause_true. apply existsb_exists. exists l. split; [assumption|].
  specialize (Hz l Hl). apply negb_true_iff, Z.eqb_neq in Hz.
  unfold lit_true. destruct (Z.ltb_spec 0 l); [assumption|].
  destruct (Z.ltb_spec l 0); [|lia].
  apply negb_true_iff. apply Hc in Ha. exact Ha.
Qed.

Lemma clue_clauses_no_zero (g : grid) : wf_grid g -> no_zero (clue_clauses g) = true.
Proof.
  intros Hwf. unfold no_zero. apply forallb_forall. intros c Hc.
  apply In_clue_clauses in Hc as (i & j & n & Hi & Hj & E & Hn & ->).
  destruct (wf_cell g i j Hwf Hi Hj) as (n' & E' & Hn').
  assert (n' = n) by congruence. subst n'. cbn [forallb].
  rewrite andb_true_r. apply negb_true_iff, Z.eqb_neq.
  pose proof (v_pos i j n). lia.
Qed.

Lemma instance_no_zero (g : grid) :
  wf_grid g -> no_zero (sudoku_res ++ clue_clauses g) = true.
Proof.
  intros Hwf. unfold no_zero. rewrite forallb_app.
  apply andb_true_iff. split; [apply sudoku_res_no_zero | now apply clue_clauses_no_zero].
Qed.

(** *** [solve], step by step *)

Lemma solve_unfold (solver : engine) (n : Z) (g : grid) (log : list (list clause)) :
  shape9 g ->
  let cs := sudoku_res ++ clue_clauses g in
  solve solver n (mkStore g log) =
  match solver cs with
  | Raise e => (Raise e, mkStore g (log ++ [cs]))
  | Ok sol =>
      if (- solve_time_len <=? n) && (n <? solve_time_len)
      then write_loops (read_cell sol) (mkStore g (log ++ [cs]))
      else (Raise IndexError, mkStore g (log ++ [cs]))
  end.
Proof.
  intros Hs cs. unfold solve, bind at 1. rewrite (encode_spec g log Hs). fold cs.
  change (range 0 single_solve_count) with [0]. cbn [for_eachM].
  unfold bind, ask, ret, record_time. cbn [obj calls].
  destruct (solver cs) as [sol | e]; [|reflexivity].
  destruct ((- solve_time_len <=? n) && (n <? solve_time_len)); reflexivity.
Qed.

(** *** Decoding a satisfying assignment *)

Lemma valid_sudoku_cells (c c' : grid) :
  shape9 c' ->
  (forall i j, 1 <= i <= 9 -> 1 <= j <= 9 -> cell c' i j = cell c i j) ->
  valid_sudoku c -> valid_sudoku c'.
Proof.
  intros Hs E Hv. apply valid_sudoku_fun in Hv as (_ & Hint & Hf).
  apply valid_sudoku_fun. split; [assumption|]. split.
  - intros i j Hi Hj. rewrite E by assumption. now apply Hint.
  - apply (sudoku_fun_ext (fun i j => num (cell c i j))); [|assumption].
    intros i j Hi Hj. now rewrite E.
Qed.

Lemma decode_model (g : grid) (m : list Z) (i j : Z) :
  wf_grid g -> consistent m -> satisfies m (sudoku_res ++ clue_clauses g) ->
  1 <= i <= 9 -> 1 <= j <= 9 ->
  read_cell (SolList m) i j = Ok (Int (pick (asserted m) i j)) /\
  1 <= pick (asserted m) i j <= 9 /\
  (forall d, 1 <= d <= 9 ->
     (asserted m (v i j d) = true <-> pick (asserted m) i j = d)).
Proof.
  intros Hwf Hc Hs Hi Hj.
  pose proof (satisfies_models _ _ Hc (instance_no_zero _ Hwf) Hs) as Hm.
  apply models_app in Hm as [Hb _].
  assert (Hr : represents (asserted m) (pick (asserted m))).
  { apply pick_represents. rewrite sudoku_res_eq in Hb.
    apply models_app in Hb as [Hb1 _]. exact Hb1. }
  pose proof (proj1 (models_sudoku_fun _ _ Hr) Hb) as [Hf _].
  pose proof (Hf i j Hi Hj) as Hp. split; [|split; [exact Hp|]].
  - unfold read_cell. rewrite read_cell_from_list. unfold pick in *.
    destruct (find _ _); [reflexivity | lia].
  - intros d Hd. now apply Hr.
Qed.

(** C6: when the engine answers the instance of a 9x9 grid of digits 0..9
    with a satisfying assignment, [solve] returns normally after one call of
    the engine and leaves a grid of nine rows of nine cells in which every
    cell holds the unique digit whose variable is asserted; that grid is a
    valid completed Sudoku and keeps every nonzero cell of the puzzle; for
    the grid whose only nonzero cell is [grid[0][1] = 2], the solved grid
    has [grid[0][1] = 2]. *)
Theorem solve_decodes (solver : engine) (n : Z) (g : grid)
    (log : list (list clause)) (m : list Z) :
  wf_grid g ->
  - solve_time_len <= n < solve_time_len ->
  solver (sudoku_res ++ clue_clauses g) = Ok (SolList m) ->
  consistent m ->
  satisfies m (sudoku_res ++ clue_clauses g) ->
  exists g',
    solve solver n (mkStore g log)
    = (Ok tt, mkStore g' (log ++ [sudoku_res ++ clue_clauses g])) /\
    (forall i j, 1 <= i <= 9 -> 1 <= j <= 9 ->
       exists d, 1 <= d <= 9 /\ cell g' i j = Int d /\
         asserted m (v i j d) = true /\
         forall d', 1 <= d' <= 9 -> asserted m (v i j d') = true -> d' = d) /\
    valid_sudoku g' /\
    agrees g g' /\
    (g = one_clue -> nth 1 (nth 0 g' []) NoneV = Int 2).
Proof.
  intros Hwf Hn Hsol Hc Hs.
  pose proof (solve_unfold solver n g log (proj1 Hwf)) as Hu. cbv zeta in Hu.
  rewrite Hsol in Hu.
  destruct (Z.leb_spec (- solve_time_len) n); [|lia].
  destruct (Z.ltb_spec n solve_time_len); [|lia]. cbn [andb] in Hu.
  destruct (write_loops_spec (read_cell (SolList m))
              (fun i j => Int (pick (asserted m) i j)) g
              (log ++ [sudoku_res ++ clue_clauses g]) (proj1 Hwf))
    as (g' & E & Hs' & Hcell).
  { intros i j Hi Hj. apply (decode_model g m i j Hwf Hc Hs Hi Hj). }
  pose proof (satisfies_models _ _ Hc (instance_no_zero _ Hwf) Hs) as Hm.
  destruct (models_completion g _ Hwf Hm) as [Hv Ha].
  assert (Hag : agrees g g').
  { intros i j k Hi Hj Hk Hk0. rewrite Hcell by assumption.
    rewrite <- (cell_grid_of (pick (asserted m)) i j) by assumption.
    now apply Ha. }
  exists g'. split; [rewrite Hu; exact E|]. split; [|split; [|split; [exact Hag|]]].
  - intros i j Hi Hj.
    destruct (decode_model g m i j Hwf Hc Hs Hi Hj) as (_ & Hp & Hiff).
    exists (pick (asserted m) i j). split; [exact Hp|].
    split; [now apply Hcell|]. split; [now apply Hiff|].
    intros d' Hd' Hd. symmetry. now apply Hiff.
  - apply (valid_sudoku_cells (grid_of (pick (asserted m)))); [assumption| |assumption].
    intros i j Hi Hj. rewrite Hcell, cell_grid_of by assumption. reflexivity.
  - intros ->. apply (Hag 1 2 2); [lia | lia | reflexivity | lia].
Qed.

Lemma model_of_solved_consistent : consistentb (model_of solved) = true.
Proof. vm_cast_no_check (eq_refl true). Qed.

Lemma model_of_solved_satisfies :
  satisfiesb (model_of solved) (cell_part ++ group_part ++ clue_clauses one_clue) = true.
Proof. vm_cast_no_check (eq_refl true). Qed.

Lemma solve_decodes_witness :
  exists g',
    solve (answering (SolList (model_of solved))) 0 (mkStore one_clue [])
    = (Ok tt, mkStore g' ([] ++ [sudoku_res ++ clue_clauses one_clue])) /\
    (forall i j, 1 <= i <= 9 -> 1 <= j <= 9 ->
       exists d, 1 <= d <= 9 /\ cell g' i j = Int d /\
         asserted (model_of solved) (v i j d) = true /\
         forall d', 1 <= d' <= 9 ->
           asserted (model_of solved) (v i j d') = true -> d' = d) /\
    valid_sudoku g' /\
    agrees one_clue g' /\
    (one_clue = one_clue -> nth 1 (nth 0 g' []) NoneV = Int 2).
Proof.
  assert (Hwf : wf_grid one_clue) by (apply wf_gridb_spec; reflexivity).
  assert (Hn : - solve_time_len <= 0 < solve_time_len) by (unfold solve_time_len; lia).
  assert (Hc : consistent (model_of solved))
    by (apply consistentb_spec; vm_compute; reflexivity).
  assert (Hs : satisfies (model_of solved) (sudoku_res ++ clue_clauses one_clue)).
  { apply satisfiesb_spec. rewrite sudoku_res_eq, <- app_assoc.
    exact model_of_solved_satisfies. }
  exact (solve_decodes (answering (SolList (model_of solved))) 0 one_clue []
           (model_of solved) Hwf Hn eq_refl Hc Hs).
Defined.

(** *** The unsatisfiable answer *)

Lemma write_loops_str (s : string) (g : grid) (log : list (list clause)) :
  write_loops (read_cell (SolStr s)) (mkStore g log) = (Raise TypeError, mkStore g log).
Proof.
  unfold write_loops. rewrite (range_cons 1 10) by lia. reflexivity.
Qed.

(** C7, as the code has it: when the engine answers with a string (such as
    ["UNSAT"]), [solve] does attempt to decode: the first membership test
    of [read_cell] raises [TypeError], which reaches the caller; the engine
    has been called once and the grid is left exactly as it was. *)
Theorem solve_unsat_raises (solver : engine) (n : Z) (g : grid)
    (log : list (list clause)) (s : string) :
  shape9 g ->
  - solve_time_len <= n < solve_time_len ->
  solver (sudoku_res ++ clue_clauses g) = Ok (SolStr s) ->
  read_cell (SolStr s) 1 1 = Raise TypeError /\
  solve solver n (mkStore g log)
  = (Raise TypeError, mkStore g (log ++ [sudoku_res ++ clue_clauses g])).
Proof.
  intros Hs Hn Hsol. split; [reflexivity|].
  pose proof (solve_unfold solver n g log Hs) as Hu. cbv zeta in Hu.
  rewrite Hsol in Hu.
  destruct (Z.leb_spec (- solve_time_len) n); [|lia].
  destruct (Z.ltb_spec n solve_time_len); [|lia]. cbn [andb] in Hu.
  rewrite Hu. apply write_loops_str.
Qed.

Lemma conflict_unsatisfiable : ~ satisfiable (sudoku_res ++ clue_clauses conflict).
Proof.
  intros [rho Hm]. apply models_app in Hm as [Hb Hc].
  rewrite sudoku_res_eq in Hb. apply models_app in Hb as [_ Hg].
  rewrite models_group_part in Hg.
  assert (HG : In (row_cells 1) groups).
  { apply In_groups. left. exists 1. split; [lia | now left]. }
  assert (H1 : rho (v 1 1 5) = true).
  { assert (Hin : In [v 1 1 5] (clue_clauses conflict)).
    { apply In_clue_clauses. exists 1, 1, 5. repeat split; try lia; reflexivity. }
    unfold models in Hc. rewrite Forall_forall in Hc. specialize (Hc _ Hin).
    unfold clause_true in Hc. cbn [existsb] in Hc.
    rewrite lit_true_pos, orb_false_r in Hc by (apply v_pos; lia). exact Hc. }
  assert (H2 : rho (v 1 2 5) = true).
  { assert (Hin : In [v 1 2 5] (clue_clauses conflict)).
    { apply In_clue_clauses. exists 1, 2, 5. repeat split; try lia; reflexivity. }
    unfold models in Hc. rewrite Forall_forall in Hc. specialize (Hc _ Hin).
    unfold clause_true in Hc. cbn [existsb] in Hc.
    rewrite lit_true_pos, orb_false_r in Hc by (apply v_pos; lia). exact Hc. }
  destruct (Hg (row_cells 1) HG (1, 1) (1, 2)) with (d := 5) as [H | H];
    cbn [fst snd] in *; try congruence; try lia.
  - apply (in_map (fun j => (1, j))), In_range. lia.
  - apply (in_map (fun j => (1, j))), In_range. lia.
Qed.

Lemma solve_unsat_witness :
  read_cell unsat 1 1 = Raise TypeError /\
  solve (answering unsat) 0 (mkStore conflict [])
  = (Raise TypeError, mkStore conflict ([] ++ [sudoku_res ++ clue_clauses conflict])).
Proof.
  apply (solve_unsat_raises (answering unsat) 0 conflict [] "UNSAT"%string).
  - apply wf_gridb_spec. reflexivity.
  - unfold solve_time_len. lia.
  - reflexivity.
Defined.

(** The puzzle with two 5s in its first row has an unsatisfiable instance;
    with the engine answering ["UNSAT"], [solve] does not return: it raises
    [TypeError] from the decoding loop. *)
Lemma solve_unsat_crashes :
  ~ satisfiable (sudoku_res ++ clue_clauses conflict) /\
  fst (solve (answering unsat) 0 (mkStore conflict [])) = Raise TypeError /\
  ~ (exists st, solve (answering unsat) 0 (mkStore conflict []) = (Ok tt, st)).
Proof.
  split; [exact conflict_unsatisfiable|].
  assert (E : solve (answering unsat) 0 (mkStore conflict [])
              = (Raise TypeError,
                 mkStore conflict ([] ++ [sudoku_res ++ clue_clauses conflict]))).
  { rewrite (solve_unfold (answering unsat) 0 conflict [])
      by (apply wf_gridb_spec; reflexivity).
    cbv zeta. unfold answering, unsat. cbn [andb Z.leb Z.ltb].
    change ((- solve_time_len <=? 0) && (0 <? solve_time_len)) with true.
    cbv iota. apply write_loops_str. }
  rewrite E. split; [reflexivity|]. intros [st H]. discriminate H.
Qed.

(** *** Decoding an arbitrary list *)

Lemma find_first_range (P : Z -> bool) (k : nat) (a b : Z) :
  Z.to_nat (b - a) = k ->
  match find P (range a b) with
  | Some d => a <= d < b /\ P d = true /\ forall d', a <= d' < d -> P d' = false
  | None => forall d, a <= d < b -> P d = false
  end.
Proof.
  revert a. induction k as [|k IH]; intros a Hk.
  - rewrite range_nil by lia. cbn. intros d Hd. lia.
  - rewrite range_cons by lia. cbn [find]. destruct (P a) eqn:Ea.
    + split; [lia|]. split; [assumption|]. intros d' Hd'. lia.
    + specialize (IH (a + 1) ltac:(lia)). destruct (find P (range (a + 1) b)) as [d|].
      * destruct IH as (Hd & HP & Hmin). split; [lia|]. split; [assumption|].
        intros d' Hd'. destruct (Z.eq_dec d' a) as [-> | Hne]; [assumption|].
        apply Hmin. lia.
      * intros d Hd. destruct (Z.eq_dec d a) as [-> | Hne]; [assumption|].
        apply IH. lia.
Qed.






(** *** No validation of the cell values *)

Lemma for_eachM_calls {X A S : Type} (body : A -> S -> M X S) (xs : list A) :
  (forall x acc s, calls (snd (body x acc s)) = calls s) ->
  forall acc s, calls (snd (for_eachM xs body acc s)) = calls s.
Proof.
  intros Hb. induction xs as [|x xs IH]; intros acc s; cbn; [reflexivity|].
  unfold bind. specialize (Hb x acc s).
  destruct (body x acc s) as [[acc' | e] s']; cbn [snd] in *.
  - now rewrite IH.
  - assumption.
Qed.

Lemma write_loops_calls (read : Z -> Z -> result value) (s : store grid) :
  calls (snd (write_loops read s)) = calls s.
Proof.
  unfold write_loops. apply for_eachM_calls. intros i [] s1.
  apply for_eachM_calls. intros j [] s2.
  unfold bind, lift, get_obj, set_obj.
  destruct (read i j) as [d | e]; [|reflexivity].
  destruct (grid_set (obj s2) i j d); reflexivity.
Qed.

Lemma int64_grid_cell (g : grid) (i j d : Z) :
  shape9 g -> int64_grid g = true -> 1 <= i <= 9 -> 1 <= j <= 9 ->
  cell g i j = Int d -> - 2 ^ 63 <= d < 2 ^ 63 - 720.
Proof.
  intros [Hl Hr] Hg Hi Hj Hc. unfold cell in Hc.
  assert (Hin : In (nth (Z.to_nat (i - 1)) g []) g) by (apply nth_In; lia).
  rewrite Forall_forall in Hr. pose proof (Hr _ Hin) as Hlen.
  unfold int64_grid in Hg. rewrite forallb_forall in Hg.
  pose proof (Hg _ Hin) as Hrow. rewrite forallb_forall in Hrow.
  assert (Hin2 : In (Int d) (nth (Z.to_nat (i - 1)) g [])).
  { rewrite <- Hc. apply nth_In. lia. }
  specialize (Hrow _ Hin2). unfold int64_safeb in Hrow.
  apply andb_true_iff in Hrow as [H1 H2].
  apply Z.leb_le in H1. apply Z.ltb_lt in H2. split; assumption.
Qed.

(** C9, as the code has it: [solve] checks no cell value: for every grid of
    nine rows of nine cells whose values [d] satisfy
    [- 2 ^ 63 <= d < 2 ^ 63 - 720] (the integers for which the number of
    line 30 is the same for Python's integers and for the 64-bit cells of
    a numpy array), be they outside 0..9, the clause list is built (the
    base list, then [[v(i, j, d)]] for each nonzero [d]) and is submitted
    to the engine, once. *)
Theorem solve_checks_no_value (solver : engine) (n : Z) (g : grid)
    (log : list (list clause)) :
  shape9 g ->
  int64_grid g = true ->
  encode (mkStore g log) = (Ok (sudoku_res ++ clue_clauses g), mkStore g log) /\
  calls (snd (solve solver n (mkStore g log)))
  = log ++ [sudoku_res ++ clue_clauses g] /\
  (forall c, In c (clue_clauses g) <->
     exists i j d, 1 <= i <= 9 /\ 1 <= j <= 9 /\
       cell g i j = Int d /\ d <> 0 /\ - 2 ^ 63 <= d < 2 ^ 63 - 720 /\
       c = [81 * (i - 1) + 9 * (j - 1) + d] /\
       - 2 ^ 63 <= 81 * (i - 1) + 9 * (j - 1) + d < 2 ^ 63).
Proof.
  intros Hs Hg. split; [now apply encode_spec|]. split.
  - rewrite (solve_unfold solver n g log Hs). cbv zeta.
    destruct (solver (sudoku_res ++ clue_clauses g)) as [sol | e]; [|reflexivity].
    destruct ((- solve_time_len <=? n) && (n <? solve_time_len)); [|reflexivity].
    apply write_loops_calls.
  - intros c. rewrite In_clue_clauses. split.
    + intros (i & j & d & Hi & Hj & Hc & Hd & E).
      pose proof (int64_grid_cell g i j d Hs Hg Hi Hj Hc) as Hb.
      exists i, j, d. repeat split; try assumption; lia.
    + intros (i & j & d & Hi & Hj & Hc & Hd & _ & E & _).
      exists i, j, d. repeat split; try assumption; lia.
Qed.

Lemma solve_checks_no_value_witness :
  encode (mkStore ten []) = (Ok (sudoku_res ++ clue_clauses ten), mkStore ten []) /\
  calls (snd (solve (answering unsat) 0 (mkStore ten [])))
  = [] ++ [sudoku_res ++ clue_clauses ten] /\
  (forall c, In c (clue_clauses ten) <->
     exists i j d, 1 <= i <= 9 /\ 1 <= j <= 9 /\
       cell ten i j = Int d /\ d <> 0 /\ - 2 ^ 63 <= d < 2 ^ 63 - 720 /\
       c = [81 * (i - 1) + 9 * (j - 1) + d] /\
       - 2 ^ 63 <= 81 * (i - 1) + 9 * (j - 1) + d < 2 ^ 63).
Proof.
  apply (solve_checks_no_value (answering unsat) 0 ten []).
  - split; [reflexivity|]. repeat constructor.
  - reflexivity.
Defined.

Lemma write_loops_solved21 (log : list (list clause)) :
  write_loops (read_cell (SolList (model_of solved21))) (mkStore ten log)
  = (Ok tt, mkStore solved21 log).
Proof. vm_compute. reflexivity. Qed.

(** The grid whose first cell holds 10 is not rejected: its clause list is
    built, with the unit clause [[10]], the engine is called on it, and
    [solve] returns with the grid overwritten. *)
Lemma ten_is_encoded :
  cell ten 1 1 = Int 10 /\
  encode (mkStore ten []) = (Ok (sudoku_res ++ [[10]]), mkStore ten []) /\
  solve (answering (SolList (model_of solved21))) 0 (mkStore ten [])
  = (Ok tt, mkStore solved21 [sudoku_res ++ [[10]]]).
Proof.
  assert (Hs : shape9 ten) by (split; [reflexivity | repeat constructor]).
  split; [reflexivity|]. split.
  - rewrite (encode_spec ten [] Hs). reflexivity.
  - rewrite (solve_unfold (answering (SolList (model_of solved21))) 0 ten [] Hs).
    cbv zeta. unfold answering.
    change ((- solve_time_len <=? 0) && (0 <? solve_time_len)) with true.
    cbv iota. apply write_loops_solved21.
Qed.

(** *** [is_proper] *)

Lemma lit_true_opp (rho : valuation) (l : Z) :
  l <> 0 -> lit_true rho (- l) = negb (lit_true rho l).
Proof.
  intros Hl. unfold lit_true.
  destruct (Z.ltb_spec 0 l), (Z.ltb_spec 0 (- l)), (Z.ltb_spec l 0),
    (Z.ltb_spec (- l) 0); try lia.
  - now rewrite Z.opp_involutive.
  - now rewrite negb_involutive.
Qed.

Lemma blocked_unsat_iff (m : list Z) (cs : list clause) :
  ~ In 0 m ->
  (~ satisfiable (cs ++ [map Z.opp m]) <-> only_model m cs).
Proof.
  intros H0. split.
  - intros Hun rho Hm l Hl.
    destruct (lit_true rho l) eqn:E; [reflexivity|]. exfalso. apply Hun.
    exists rho. apply models_app. split; [assumption|].
    constructor; [|constructor]. unfold clause_true. apply existsb_exists.
    exists (- l). split; [now apply in_map|].
    rewrite lit_true_opp, E; [reflexivity|]. intros ->. contradiction.
  - intros Ho [rho Hm]. apply models_app in Hm as [Hm Hb].
    apply Forall_cons_iff in Hb as [Hb _]. unfold clause_true in Hb.
    apply existsb_exists in Hb as (l' & Hin & Ht).
    apply in_map_iff in Hin as (l & <- & Hl).
    assert (Hne : l <> 0) by (intros ->; contradiction).
    rewrite lit_true_opp, (Ho rho Hm l Hl) in Ht by assumption. discriminate.
Qed.

(** C10: when the first call of the engine answers a list, [is_proper]
    appends exactly one clause to its caller's list, the negation of every
    literal of the answer, leaving the other clauses as they were, and calls
    the engine again on the extended list; it returns [True] exactly when
    that second call returns no list, and [False] when it returns one; when
    the second answer is right, [True] means that every model of the
    original list agrees with the first answer. *)
Theorem is_proper_spec (solver : engine) (cs : list clause)
    (log : list (list clause)) (m : list Z) :
  solver cs = Ok (SolList m) ->
  let cs' := cs ++ [map Z.opp m] in
  exists r,
    is_proper solver (mkStore cs log) = (r, mkStore cs' (log ++ [cs] ++ [cs'])) /\
    r = match solver cs' with
        | Ok sol => Ok (negb (is_list sol))
        | Raise e => Raise e
        end /\
    (r = Ok true <-> exists s, solver cs' = Ok (SolStr s)) /\
    (r = Ok false <-> exists m', solver cs' = Ok (SolList m')) /\
    (engine_right solver cs' -> ~ In 0 m -> (r = Ok true <-> only_model m cs)).
Proof.
  intros Hsol cs'. subst cs'.
  assert (E : is_proper solver (mkStore cs log)
              = (match solver (cs ++ [map Z.opp m]) with
                 | Ok sol => Ok (negb (is_list sol))
                 | Raise e => Raise e
                 end,
                 mkStore (cs ++ [map Z.opp m])
                   (log ++ [cs] ++ [cs ++ [map Z.opp m]]))).
  { unfold is_proper, bind, get_obj, set_obj, ask, ret. cbn [obj calls].
    rewrite Hsol. cbn [obj calls]. rewrite <- app_assoc.
    match goal with
    | |- context [match solver ?x with _ => _ end] => change x with (cs ++ [map Z.opp m])
    end.
    destruct (solver (cs ++ [map Z.opp m])) as [[m' | s] | e]; reflexivity. }
  eexists. split; [exact E|]. split; [reflexivity|].
  unfold engine_right.
  destruct (solver (cs ++ [map Z.opp m])) as [[m' | s] | e]; cbn [is_list negb].
  - split; [|split].
    + split; [discriminate | intros [s [=]]].
    + split; [eauto | reflexivity].
    + intros Hm H0. split; [discriminate|]. intros Ho. exfalso.
      apply (proj2 (blocked_unsat_iff m cs H0) Ho). now exists (asserted m').
  - split; [|split].
    + split; [eauto | reflexivity].
    + split; [discriminate | intros [m' [=]]].
    + intros Hun H0. split; [|reflexivity]. intros _.
      now apply (blocked_unsat_iff m cs H0).
  - split; [|split].
    + split; [discriminate | intros [s [=]]].
    + split; [discriminate | intros [m' [=]]].
    + intros [].
Qed.

Lemma is_proper_spec_witness :
  is_proper toy_engine (mkStore [[1]] [])
  = (Ok true, mkStore [[1]; [-1]] [[[1]]; [[1]; [-1]]]).
Proof.
  destruct (is_proper_spec toy_engine [[1]] [] [1] eq_refl) as (r & E & Hr & _).
  subst r. exact E.
Defined.

(** *** Grids smaller than the board *)

Lemma for_eachM_reads {X A S : Type} (body : A -> S -> M X S) (xs : list A)
    (s : store X) (P : A -> Prop) :
  (forall x acc, (exists acc', body x acc s = (Ok acc', s) /\ P x)
                 \/ body x acc s = (Raise IndexError, s)) ->
  forall acc,
    (exists acc', for_eachM xs body acc s = (Ok acc', s) /\ Forall P xs)
    \/ for_eachM xs body acc s = (Raise IndexError, s).
Proof.
  intros Hb. induction xs as [|x xs IH]; intros acc; cbn.
  - left. exists acc. split; [reflexivity | constructor].
  - unfold bind. destruct (Hb x acc) as [(acc1 & E & HP) | E]; rewrite E.
    + destruct (IH acc1) as [(acc2 & E2 & HF) | E2]; rewrite E2.
      * left. exists acc2. split; [reflexivity | now constructor].
      * now right.
    + now right.
Qed.

Lemma index_cases {A : Type} (xs : list A) (k : Z) :
  0 <= k ->
  match nth_error xs (Z.to_nat k) with
  | Some x => index xs k = Ok x
  | None => index xs k = Raise IndexError
  end.
Proof.
  intros Hk. unfold index. destruct (Z.ltb_spec k 0); [lia|].
  now destruct (nth_error xs (Z.to_nat k)).
Qed.

Lemma grid_get_cases (g : grid) (i j : Z) :
  1 <= i -> 1 <= j ->
  (grid_get g i j = Ok (cell g i j) /\
   exists row, nth_error g (Z.to_nat (i - 1)) = Some row /\
               (Z.to_nat (j - 1) < length row)%nat)
  \/ grid_get g i j = Raise IndexError.
Proof.
  intros Hi Hj. unfold grid_get, cell.
  pose proof (index_cases g (i - 1) ltac:(lia)) as Hr.
  destruct (nth_error g (Z.to_nat (i - 1))) as [row|] eqn:Er; rewrite Hr; [|now right].
  pose proof (index_cases row (j - 1) ltac:(lia)) as Hc.
  destruct (nth_error row (Z.to_nat (j - 1))) as [x|] eqn:Ec; rewrite Hc; [|now right].
  left. rewrite (nth_error_nth _ _ [] Er), (nth_error_nth _ _ NoneV Ec).
  split; [reflexivity|]. exists row. split; [reflexivity|].
  apply nth_error_Some. congruence.
Qed.

Lemma clue_loops_cases (g : grid) (cs : list clause) (log : list (list clause)) :
  (exists cs', clue_loops cs (mkStore g log) = (Ok cs', mkStore g log) /\
     covers9b g = true)
  \/ clue_loops cs (mkStore g log) = (Raise IndexError, mkStore g log).
Proof.
  unfold clue_loops.
  destruct (for_eachM_reads
              (fun i clauses =>
                 for_eachM (range 1 10) (fun j clauses =>
                   g <- get_obj ;;
                   d <- lift (grid_get g i j) ;;
                   match d with
                   | Int n => if truthy d then ret (clauses ++ [[v i j n]]) else ret clauses
                   | NoneV => ret clauses
                   end) clauses)
              (range 1 10) (mkStore g log)
              (fun i => 1 <= i <= 9 ->
                 match nth_error g (Z.to_nat (i - 1)) with
                 | Some row => (9 <=? length row)%nat = true
                 | None => False
                 end)) with (acc := cs) as [(cs' & E & HF) | E].
  - intros i acc.
    destruct (Z_le_dec 1 i) as [Hi|Hi].
    2:{ (* outside the board nothing is claimed about the row *)
      destruct (for_eachM_reads
                  (fun j clauses =>
                     g <- get_obj ;;
                     d <- lift (grid_get g i j) ;;
                     match d with
                     | Int n => if truthy d then ret (clauses ++ [[v i j n]]) else ret clauses
                     | NoneV => ret clauses
                     end)
                  (range 1 10) (mkStore g log) (fun _ => True)) with (acc := acc)
        as [(acc' & E & _) | E].
      - intros j a. unfold bind, get_obj, lift, ret. cbn [obj].
        destruct (grid_get g i j) as [[n|] | e] eqn:Eg.
        + left. destruct (truthy (Int n)); eauto.
        + left. eauto.
        + right. unfold grid_get, index in Eg.
          destruct (i - 1 <? 0); [now inversion Eg|].
          destruct (nth_error g (Z.to_nat (i - 1))); [|now inversion Eg].
          destruct (j - 1 <? 0); [now inversion Eg|].
          destruct (nth_error l (Z.to_nat (j - 1))); [discriminate | now inversion Eg].
      - left. exists acc'. split; [exact E | intros; lia].
      - now right. }
    destruct (for_eachM_reads
                (fun j clauses =>
                   g <- get_obj ;;
                   d <- lift (grid_get g i j) ;;
                   match d with
                   | Int n => if truthy d then ret (clauses ++ [[v i j n]]) else ret clauses
                   | NoneV => ret clauses
                   end)
                (range 1 10) (mkStore g log)
                (fun j => exists row, nth_error g (Z.to_nat (i - 1)) = Some row /\
                                      (Z.to_nat (j - 1) < length row)%nat))
      with (acc := acc) as [(acc' & E & HF) | E].
    + intros j a. unfold bind, get_obj, lift, ret. cbn [obj].
      destruct (Z_le_dec 1 j) as [Hj|Hj].
      * destruct (grid_get_cases g i j Hi Hj) as [[Eg Hrow] | Eg]; rewrite Eg; [|now right].
        left. destruct (cell g i j) as [n|]; [destruct (truthy (Int n))|]; eauto.
      * destruct (grid_get g i j) as [[n|] | e] eqn:Eg.
        -- exfalso. unfold grid_get, index in Eg.
           destruct (i - 1 <? 0); [discriminate|].
           destruct (nth_error g (Z.to_nat (i - 1))); [|discriminate].
           destruct (Z.ltb_spec (j - 1) 0); [discriminate | lia].
        -- exfalso. unfold grid_get, index in Eg.
           destruct (i - 1 <? 0); [discriminate|].
           destruct (nth_error g (Z.to_nat (i - 1))); [|discriminate].
           destruct (Z.ltb_spec (j - 1) 0); [discriminate | lia].
        -- right. unfold grid_get, index in Eg.
           destruct (i - 1 <? 0); [now inversion Eg|].
           destruct (nth_error g (Z.to_nat (i - 1))); [|now inversion Eg].
           destruct (j - 1 <? 0); [now inversion Eg|].
           destruct (nth_error l (Z.to_nat (j - 1))); [discriminate | now inversion Eg].
    + left. exists acc'. split; [exact E|]. intros _.
      rewrite Forall_forall in HF.
      destruct (HF 9 (proj2 (In_range 1 10 9) ltac:(lia))) as (row & Er & Hlen).
      rewrite Er. apply Nat.leb_le. lia.
    + now right.
  - left. exists cs'. split; [exact E|].
    unfold covers9b. apply forallb_forall. intros i Hi.
    rewrite Forall_forall in HF. specialize (HF i Hi). apply In_range in Hi.
    specialize (HF ltac:(lia)).
    destruct (nth_error g (Z.to_nat (i - 1))); [assumption | contradiction].
  - now right.
Qed.

Lemma covers9b_row (g : grid) (i : Z) :
  covers9b g = true -> 1 <= i <= 9 ->
  exists row, nth_error g (Z.to_nat (i - 1)) = Some row /\ (9 <= length row)%nat.
Proof.
  unfold covers9b. rewrite forallb_forall. intros H Hi.
  specialize (H i (proj2 (In_range 1 10 i) ltac:(lia))).
  destruct (nth_error g (Z.to_nat (i - 1))) as [row|]; [|discriminate].
  exists row. split; [reflexivity | now apply Nat.leb_le].
Qed.

Lemma grid_get_covers (g : grid) (i j : Z) :
  covers9b g = true -> 1 <= i <= 9 -> 1 <= j <= 9 ->
  grid_get g i j = Ok (cell g i j).
Proof.
  intros Hc Hi Hj. destruct (covers9b_row g i Hc Hi) as (row & Er & Hlen).
  destruct (grid_get_cases g i j ltac:(lia) ltac:(lia)) as [[E _] | E]; [exact E|].
  exfalso. unfold grid_get in E.
  pose proof (index_cases g (i - 1) ltac:(lia)) as Hr. rewrite Er in Hr. rewrite Hr in E.
  pose proof (index_cases row (j - 1) ltac:(lia)) as Hx.
  destruct (nth_error row (Z.to_nat (j - 1))) eqn:Ex.
  - rewrite Hx in E. discriminate.
  - apply nth_error_None in Ex. lia.
Qed.

Lemma clue_loops_covers (g : grid) (cs : list clause) (log : list (list clause)) :
  covers9b g = true ->
  clue_loops cs (mkStore g log) = (Ok (cs ++ clue_clauses g), mkStore g log).
Proof.
  intros Hc. unfold clue_loops, clue_clauses.
  apply for_eachM_append. intros i acc Hi. apply In_range in Hi.
  apply for_eachM_append. intros j acc' Hj. apply In_range in Hj.
  unfold bind, get_obj, lift. cbn [obj].
  rewrite grid_get_covers by (assumption || lia).
  destruct (cell g i j) as [n|]; cbn [truthy].
  - destruct (n =? 0); cbn [negb]; unfold ret; now rewrite ?app_nil_r.
  - unfold ret. now rewrite app_nil_r.
Qed.

(** X1: the loops of lines 78-87 index nine rows and nine cells in each: on
    a grid that has them (extra rows and cells are ignored) the clause list
    is built; on any other grid, such as the empty one, [solve] raises
    [IndexError] before the engine is called and leaves the grid alone. *)
Theorem solve_index_bounds (g : grid) (log : list (list clause)) :
  (covers9b g = true ->
     encode (mkStore g log) = (Ok (sudoku_res ++ clue_clauses g), mkStore g log)) /\
  (covers9b g = false ->
     encode (mkStore g log) = (Raise IndexError, mkStore g log) /\
     forall solver n, solve solver n (mkStore g log) = (Raise IndexError, mkStore g log)).
Proof.
  split.
  - intros Hc. unfold encode, bind, lift. rewrite sudoku_clauses_ok.
    now apply clue_loops_covers.
  - intros Hc.
    assert (E : encode (mkStore g log) = (Raise IndexError, mkStore g log)).
    { unfold encode, bind, lift. rewrite sudoku_clauses_ok.
      destruct (clue_loops_cases g sudoku_res log) as [(cs' & _ & Hc') | E].
      - congruence.
      - exact E. }
    split; [exact E|]. intros solver n. unfold solve, bind at 1. now rewrite E.
Qed.

Lemma solve_index_bounds_witness :
  encode (mkStore (int_grid [[1; 2; 3]; [4; 5; 6]]) [])
  = (Raise IndexError, mkStore (int_grid [[1; 2; 3]; [4; 5; 6]]) []) /\
  forall solver n,
    solve solver n (mkStore (int_grid [[1; 2; 3]; [4; 5; 6]]) [])
    = (Raise IndexError, mkStore (int_grid [[1; 2; 3]; [4; 5; 6]]) []).
Proof.
  apply (proj2 (solve_index_bounds (int_grid [[1; 2; 3]; [4; 5; 6]]) [])).
  reflexivity.
Defined.

(** *** All or nothing *)

(** X2: on a grid of nine rows of nine cells, [solve] calls the engine
    once, and every failure that is not one of the write loops leaves the
    grid exactly as it was: an exception of the engine passes through, a
    bucket index outside the 82-element array raises [IndexError], a string
    answer raises [TypeError] at the first [read_cell].  When the engine
    answers a list that asserts a digit for every cell, [solve] returns
    normally with each of the 81 cells overwritten by a digit, the one
    [read_cell] returns for it.  (A list that leaves some cell without a
    digit is the one case left out: what the write of [None] does there
    depends on the container, see [grid_set].) *)
Theorem solve_all_or_nothing (solver : engine) (n : Z) (g : grid)
    (log : list (list clause)) :
  shape9 g ->
  calls (snd (solve solver n (mkStore g log)))
  = log ++ [sudoku_res ++ clue_clauses g] /\
  (forall e, solver (sudoku_res ++ clue_clauses g) = Raise e ->
     solve solver n (mkStore g log)
     = (Raise e, mkStore g (log ++ [sudoku_res ++ clue_clauses g]))) /\
  (forall sol, solver (sudoku_res ++ clue_clauses g) = Ok sol ->
     ~ (- solve_time_len <= n < solve_time_len) ->
     solve solver n (mkStore g log)
     = (Raise IndexError, mkStore g (log ++ [sudoku_res ++ clue_clauses g]))) /\
  (forall s, solver (sudoku_res ++ clue_clauses g) = Ok (SolStr s) ->
     - solve_time_len <= n < solve_time_len ->
     solve solver n (mkStore g log)
     = (Raise TypeError, mkStore g (log ++ [sudoku_res ++ clue_clauses g]))) /\
  (forall m, solver (sudoku_res ++ clue_clauses g) = Ok (SolList m) ->
     - solve_time_len <= n < solve_time_len ->
     (forall i j, 1 <= i <= 9 -> 1 <= j <= 9 ->
        exists d, 1 <= d <= 9 /\ asserted m (v i j d) = true) ->
     exists g',
       solve solver n (mkStore g log)
       = (Ok tt, mkStore g' (log ++ [sudoku_res ++ clue_clauses g])) /\
       shape9 g' /\
       forall i j, 1 <= i <= 9 -> 1 <= j <= 9 ->
         exists d, 1 <= d <= 9 /\ cell g' i j = Int d /\
           read_cell (SolList m) i j = Ok (Int d)).
Proof.
  intros Hs.
  pose proof (solve_unfold solver n g log Hs) as Hu. cbv zeta in Hu.
  split; [|split; [|split; [|split]]].
  - rewrite Hu.
    destruct (solver (sudoku_res ++ clue_clauses g)) as [sol | e]; [|reflexivity].
    destruct ((- solve_time_len <=? n) && (n <? solve_time_len)); [|reflexivity].
    apply write_loops_calls.
  - intros e He. rewrite Hu, He. reflexivity.
  - intros sol Hsol Hn. rewrite Hu, Hsol.
    destruct (Z.leb_spec (- solve_time_len) n); [|reflexivity].
    destruct (Z.ltb_spec n solve_time_len); [lia | reflexivity].
  - intros s Hsol Hn. rewrite Hu, Hsol.
    destruct (Z.leb_spec (- solve_time_len) n); [|lia].
    destruct (Z.ltb_spec n solve_time_len); [|lia]. cbn [andb].
    apply write_loops_str.
  - intros m Hsol Hn Hsome. rewrite Hu, Hsol.
    destruct (Z.leb_spec (- solve_time_len) n); [|lia].
    destruct (Z.ltb_spec n solve_time_len); [|lia]. cbn [andb].
    pose (D := fun i j =>
      match find (fun d => asserted m (v i j d)) (range 1 10) with
      | Some d => Int d
      | None => NoneV
      end).
    destruct (write_loops_spec (read_cell (SolList m)) D g
                (log ++ [sudoku_res ++ clue_clauses g]) Hs) as (g' & E & Hs' & Hcell).
    { intros i j _ _. unfold read_cell. apply read_cell_from_list. }
    exists g'. split; [exact E|]. split; [exact Hs'|].
    intros i j Hi Hj. rewrite (Hcell i j Hi Hj).
    unfold read_cell. rewrite read_cell_from_list. unfold D.
    pose proof (find_first_range (fun d => asserted m (v i j d)) 9 1 10 eq_refl) as Hf.
    destruct (find _ (range 1 10)) as [d0|].
    + destruct Hf as (Hd0 & _ & _). exists d0. split; [lia|]. split; reflexivity.
    + destruct (Hsome i j Hi Hj) as (d & Hd & Had). rewrite Hf in Had by lia.
      discriminate.
Qed.

Lemma solve_all_or_nothing_witness :
  exists g',
    solve (answering (SolList (range 1 730))) 81 (mkStore first [])
    = (Ok tt, mkStore g' ([] ++ [sudoku_res ++ clue_clauses first])) /\
    shape9 g' /\
    forall i j, 1 <= i <= 9 -> 1 <= j <= 9 ->
      exists d, 1 <= d <= 9 /\ cell g' i j = Int d /\
        read_cell (SolList (range 1 730)) i j = Ok (Int d).
Proof.
  assert (Hs : shape9 first) by (apply wf_gridb_spec; reflexivity).
  apply (proj2 (proj2 (proj2 (proj2
           (solve_all_or_nothing (answering (SolList (range 1 730))) 81 first [] Hs))))
           (range 1 730)).
  - reflexivity.
  - unfold solve_time_len. lia.
  - intros i j Hi Hj. exists 1. split; [lia|].
    unfold asserted. apply existsb_exists. exists (v i j 1).
    split; [apply In_range; unfold v; lia | apply Z.eqb_refl].
Defined.

(** *** Duplicated clues *)

Lemma unit_clue_true (g : grid) (rho : valuation) (i j d : Z) :
  models rho (clue_clauses g) ->
  1 <= i <= 9 -> 1 <= j <= 9 -> 1 <= d <= 9 ->
  cell g i j = Int d -> rho (v i j d) = true.
Proof.
  intros Hc Hi Hj Hd E.
  assert (Hin : In [v i j d] (clue_clauses g)).
  { apply In_clue_clauses. exists i, j, d. repeat split; try lia; assumption. }
  unfold models in Hc. rewrite Forall_forall in Hc. specialize (Hc _ Hin).
  unfold clause_true in Hc. cbn [existsb] in Hc.
  rewrite lit_true_pos, orb_false_r in Hc by (apply v_pos; lia). exact Hc.
Qed.

(** X3: a grid that holds the same digit in two different cells of one row,
    one column or one 3x3 box has an unsatisfiable clause list. *)
Theorem duplicate_clue_unsatisfiable (g : grid) (u : list (Z * Z)) (x y : Z * Z) (d : Z) :
  In u board_units -> In x u -> In y u -> x <> y ->
  1 <= d <= 9 ->
  cell g (fst x) (snd x) = Int d ->
  cell g (fst y) (snd y) = Int d ->
  ~ satisfiable (sudoku_res ++ clue_clauses g).
Proof.
  intros Hu Hx Hy Hne Hd Ex Ey [rho Hm].
  apply models_app in Hm as [Hb Hc].
  rewrite sudoku_res_eq in Hb. apply models_app in Hb as [_ Hg].
  rewrite models_group_part in Hg.
  destruct (unit_facts u Hu) as (_ & _ & Hb & G & HG & Hsame).
  pose proof (Hb x Hx) as [Hx1 Hx2]. pose proof (Hb y Hy) as [Hy1 Hy2].
  pose proof (unit_clue_true g rho _ _ d Hc Hx1 Hx2 Hd Ex) as Tx.
  pose proof (unit_clue_true g rho _ _ d Hc Hy1 Hy2 Hd Ey) as Ty.
  destruct (Hg G HG x y (proj1 (Hsame x) Hx) (proj1 (Hsame y) Hy) Hne d Hd); congruence.
Qed.

Lemma duplicate_clue_unsatisfiable_witness :
  ~ satisfiable (sudoku_res ++ clue_clauses conflict).
Proof.
  apply (duplicate_clue_unsatisfiable conflict
           (map (fun j => (1, j)) (range 1 10)) (1, 1) (1, 2) 5).
  - unfold board_units, board_rows. apply in_or_app. left.
    apply (in_map (fun i => map (fun j => (i, j)) (range 1 10))), In_range. lia.
  - apply (in_map (fun j => (1, j))), In_range. lia.
  - apply (in_map (fun j => (1, j))), In_range. lia.
  - intros [=].
  - lia.
  - reflexivity.
  - reflexivity.
Defined.

(** *** Completed grids *)

Lemma grid_ext (g g' : grid) :
  shape9 g -> shape9 g' ->
  (forall i j, 1 <= i <= 9 -> 1 <= j <= 9 -> cell g i j = cell g' i j) ->
  g = g'.
Proof.
  intros [Hl Hr] [Hl' Hr'] Hcell. rewrite Forall_forall in Hr, Hr'.
  apply (nth_ext g g' [] []); [congruence|]. intros a Ha. rewrite Hl in Ha.
  apply (nth_ext _ _ NoneV NoneV).
  - rewrite (Hr (nth a g [])), (Hr' (nth a g' [])); [reflexivity | |];
      apply nth_In; lia.
  - intros b Hb. rewrite (Hr (nth a g [])) in Hb by (apply nth_In; lia).
    specialize (Hcell (Z.of_nat a + 1) (Z.of_nat b + 1) ltac:(lia) ltac:(lia)).
    unfold cell in Hcell.
    replace (Z.to_nat (Z.of_nat a + 1 - 1)) with a in Hcell by lia.
    replace (Z.to_nat (Z.of_nat b + 1 - 1)) with b in Hcell by lia.
    exact Hcell.
Qed.

Lemma valid_sudoku_digit (c : grid) (i j : Z) :
  valid_sudoku c -> 1 <= i <= 9 -> 1 <= j <= 9 ->
  exists d, cell c i j = Int d /\ 1 <= d <= 9.
Proof.
  intros Hv Hi Hj. apply valid_sudoku_fun in Hv as (_ & Hint & Hf & _).
  destruct (Hint i j Hi Hj) as [d E]. exists d. split; [exact E|].
  pose proof (Hf i j Hi Hj) as H. rewrite E in H. exact H.
Qed.

Lemma valid_sudoku_wf (c : grid) : valid_sudoku c -> wf_grid c.
Proof.
  intros Hv. pose proof Hv as [Hs _]. split; [exact Hs|].
  destruct Hs as [Hl Hr]. rewrite Forall_forall in Hr.
  apply Forall_forall. intros row Hrow. apply Forall_forall. intros x Hx.
  destruct (In_nth _ _ [] Hrow) as (a & Ha & Ea).
  destruct (In_nth _ _ NoneV Hx) as (b & Hb & Eb).
  rewrite (Hr row Hrow) in Hb.
  destruct (valid_sudoku_digit c (Z.of_nat a + 1) (Z.of_nat b + 1) Hv
              ltac:(lia) ltac:(lia)) as (d & E & Hd).
  unfold cell in E.
  replace (Z.to_nat (Z.of_nat a + 1 - 1)) with a in E by lia.
  replace (Z.to_nat (Z.of_nat b + 1 - 1)) with b in E by lia.
  rewrite Ea, Eb in E. exists d. split; [exact E | lia].
Qed.

Lemma complete_unique (c c' : grid) :
  valid_sudoku c -> valid_sudoku c' -> agrees c c' -> c' = c.
Proof.
  intros Hv Hv' Ha. apply grid_ext; [apply Hv' | apply Hv |].
  intros i j Hi Hj. destruct (valid_sudoku_digit c i j Hv Hi Hj) as (d & E & Hd).
  rewrite E. apply (Ha i j d Hi Hj E). lia.
Qed.

Lemma agrees_refl (g : grid) : agrees g g.
Proof. intros i j n _ _ E _. exact E. Qed.

Lemma solve_sat_grid (solver : engine) (n : Z) (g : grid)
    (log : list (list clause)) (m : list Z) :
  wf_grid g ->
  - solve_time_len <= n < solve_time_len ->
  solver (sudoku_res ++ clue_clauses g) = Ok (SolList m) ->
  consistent m ->
  satisfies m (sudoku_res ++ clue_clauses g) ->
  exists g',
    solve solver n (mkStore g log)
    = (Ok tt, mkStore g' (log ++ [sudoku_res ++ clue_clauses g])) /\
    valid_sudoku g' /\ agrees g g'.
Proof.
  intros Hwf Hn Hsol Hc Hs.
  pose proof (solve_unfold solver n g log (proj1 Hwf)) as Hu. cbv zeta in Hu.
  rewrite Hsol in Hu.
  destruct (Z.leb_spec (- solve_time_len) n); [|lia].
  destruct (Z.ltb_spec n solve_time_len); [|lia]. cbn [andb] in Hu.
  destruct (write_loops_spec (read_cell (SolList m))
              (fun i j => Int (pick (asserted m) i j)) g
              (log ++ [sudoku_res ++ clue_clauses g]) (proj1 Hwf))
    as (g' & E & Hs' & Hcell).
  { intros i j Hi Hj. apply (decode_model g m i j Hwf Hc Hs Hi Hj). }
  pose proof (satisfies_models _ _ Hc (instance_no_zero _ Hwf) Hs) as Hm.
  destruct (models_completion g _ Hwf Hm) as [Hv Ha].
  exists g'. split; [rewrite Hu; exact E|]. split.
  - apply (valid_sudoku_cells (grid_of (pick (asserted m)))); [assumption| |assumption].
    intros i j Hi Hj. rewrite Hcell, cell_grid_of by assumption. reflexivity.
  - intros i j k Hi Hj Hk Hk0. rewrite Hcell by assumption.
    rewrite <- (cell_grid_of (pick (asserted m)) i j) by assumption.
    now apply Ha.
Qed.

(** X4: when the puzzle has exactly one valid completion and the engine
    answers its clause list with a satisfying assignment, [solve] leaves
    exactly that completion in the grid. *)
Theorem solve_unique_completion (solver : engine) (n : Z) (g c : grid)
    (log : list (list clause)) (m : list Z) :
  wf_grid g ->
  - solve_time_len <= n < solve_time_len ->
  solver (sudoku_res ++ clue_clauses g) = Ok (SolList m) ->
  consistent m ->
  satisfies m (sudoku_res ++ clue_clauses g) ->
  valid_sudoku c -> agrees g c ->
  (forall c', valid_sudoku c' -> agrees g c' -> c' = c) ->
  solve solver n (mkStore g log)
  = (Ok tt, mkStore c (log ++ [sudoku_res ++ clue_clauses g])).
Proof.
  intros Hwf Hn Hsol Hc Hs Hv Ha Huniq.
  destruct (solve_sat_grid solver n g log m Hwf Hn Hsol Hc Hs) as (g' & E & Hv' & Ha').
  rewrite E. now rewrite (Huniq g' Hv' Ha').
Qed.

(** X5: solving a completed valid Sudoku changes nothing: when the engine
    answers its clause list with a satisfying assignment, [solve] writes
    back the very digits the grid already holds. *)
Theorem solve_fixes_solved (solver : engine) (n : Z) (c : grid)
    (log : list (list clause)) (m : list Z) :
  valid_sudoku c ->
  - solve_time_len <= n < solve_time_len ->
  solver (sudoku_res ++ clue_clauses c) = Ok (SolList m) ->
  consistent m ->
  satisfies m (sudoku_res ++ clue_clauses c) ->
  solve solver n (mkStore c log)
  = (Ok tt, mkStore c (log ++ [sudoku_res ++ clue_clauses c])).
Proof.
  intros Hv Hn Hsol Hc Hs.
  destruct (solve_sat_grid solver n c log m (valid_sudoku_wf c Hv) Hn Hsol Hc Hs)
    as (g' & E & Hv' & Ha').
  rewrite E. now rewrite (complete_unique c g' Hv Hv' Ha').
Qed.

Lemma value_eqb_eq (x y : value) : value_eqb x y = true -> x = y.
Proof.
  destruct x, y; cbn; try discriminate; [|reflexivity].
  intros H. apply Z.eqb_eq in H. now subst.
Qed.

Lemma valid_sudokub_spec (g : grid) : valid_sudokub g = true -> valid_sudoku g.
Proof.
  unfold valid_sudokub, valid_sudoku, shape9.
  rewrite !andb_true_iff, Nat.eqb_eq, !forallb_forall. intros [[Hl Hr] Hu].
  split; [split; [exact Hl|]|].
  - apply Forall_forall. intros row Hrow. apply Nat.eqb_eq. now apply Hr.
  - apply Forall_forall. intros u Hin. specialize (Hu u Hin).
    unfold has_all_digits in Hu. apply andb_true_iff in Hu as [Hlen Hall].
    apply Nat.eqb_eq in Hlen. rewrite forallb_forall in Hall.
    apply Permutation_sym, NoDup_Permutation_bis.
    + apply NoDup_digits.
    + now rewrite length_map, length_range, Hlen.
    + intros x Hx. apply in_map_iff in Hx as (d & <- & Hd).
      specialize (Hall d Hd). apply existsb_exists in Hall as (y & Hy & E).
      apply value_eqb_eq in E. now subst y.
Qed.

Lemma solved_valid : valid_sudoku solved.
Proof. apply valid_sudokub_spec. vm_compute. reflexivity. Qed.

Lemma model_of_solved_satisfies_solved :
  satisfiesb (model_of solved) (cell_part ++ group_part ++ clue_clauses solved) = true.
Proof. vm_cast_no_check (eq_refl true). Qed.

Lemma solve_unique_completion_witness :
  solve (answering (SolList (model_of solved))) 0 (mkStore solved [])
  = (Ok tt, mkStore solved ([] ++ [sudoku_res ++ clue_clauses solved])).
Proof.
  assert (Hn : - solve_time_len <= 0 < solve_time_len) by (unfold solve_time_len; lia).
  assert (Hc : consistent (model_of solved))
    by (apply consistentb_spec; exact model_of_solved_consistent).
  assert (Hs : satisfies (model_of solved) (sudoku_res ++ clue_clauses solved)).
  { apply satisfiesb_spec. rewrite sudoku_res_eq, <- app_assoc.
    exact model_of_solved_satisfies_solved. }
  exact (solve_unique_completion (answering (SolList (model_of solved))) 0
           solved solved [] (model_of solved)
           (valid_sudoku_wf solved solved_valid) Hn eq_refl Hc Hs
           solved_valid (agrees_refl solved)
           (fun c' Hv' Ha' => complete_unique solved c' solved_valid Hv' Ha')).
Defined.

Lemma solve_fixes_solved_witness :
  solve (answering (SolList (model_of solved))) 81 (mkStore solved [])
  = (Ok tt, mkStore solved ([] ++ [sudoku_res ++ clue_clauses solved])).
Proof.
  assert (Hn : - solve_time_len <= 81 < solve_time_len) by (unfold solve_time_len; lia).
  assert (Hc : consistent (model_of solved))
    by (apply consistentb_spec; exact model_of_solved_consistent).
  assert (Hs : satisfies (model_of solved) (sudoku_res ++ clue_clauses solved)).
  { apply satisfiesb_spec. rewrite sudoku_res_eq, <- app_assoc.
    exact model_of_solved_satisfies_solved. }
  exact (solve_fixes_solved (answering (SolList (model_of solved))) 81 solved []
           (model_of solved) solved_valid Hn eq_refl Hc Hs).
Defined.

(** *** Removing clues *)

Lemma fewer_clues_models (g g' : grid) (rho : valuation) :
  agrees g' g ->
  models rho (sudoku_res ++ clue_clauses g) ->
  models rho (sudoku_res ++ clue_clauses g').
Proof.
  intros Ha Hm. apply models_app in Hm as [Hb Hc]. apply models_app.
  split; [exact Hb|]. unfold models in *. rewrite Forall_forall in *.
  intros c Hin. apply Hc.
  apply In_clue_clauses in Hin as (i & j & k & Hi & Hj & E & Hk & ->).
  apply In_clue_clauses. exists i, j, k. repeat split; try lia; try assumption.
  now apply Ha.
Qed.

Lemma nth_update {A : Type} (xs : list A) (k k' : nat) (x dflt : A) :
  nth k' (update xs k x) dflt
  = if (k' =? k)%nat && (k <? length xs)%nat then x else nth k' xs dflt.
Proof.
  destruct (Nat.eqb_spec k' k) as [-> | Hne]; cbn [andb].
  - destruct (Nat.ltb_spec k (length xs)) as [Hlt | Hge].
    + now apply nth_update_same.
    + rewrite !nth_overflow; [reflexivity | lia | rewrite length_update; lia].
  - now apply nth_update_other.
Qed.

Lemma cell_int_grid (h : list (list Z)) (i j : Z) :
  cell (int_grid h) i j
  = match nth_error (nth (Z.to_nat (i - 1)) h []) (Z.to_nat (j - 1)) with
    | Some z => Int z
    | None => NoneV
    end.
Proof.
  unfold cell, int_grid.
  change (@nil value) with (map Int []). rewrite map_nth.
  destruct (nth_error (nth (Z.to_nat (i - 1)) h []) (Z.to_nat (j - 1))) as [z|] eqn:E.
  - apply nth_error_nth. now rewrite nth_error_map, E.
  - apply nth_overflow. rewrite length_map. now apply nth_error_None.
Qed.

Lemma erase_cell (h : list (list Z)) (r c i j : Z) (n : Z) :
  cell (int_grid (erase h r c)) i j = Int n -> n <> 0 ->
  cell (int_grid h) i j = Int n.
Proof.
  rewrite !cell_int_grid. unfold erase. rewrite nth_update.
  destruct ((Z.to_nat (i - 1) =? Z.to_nat r)%nat && (Z.to_nat r <? length h)%nat) eqn:Er;
    [|auto].
  apply andb_true_iff in Er as [Er _]. apply Nat.eqb_eq in Er. rewrite Er.
  destruct (nth_error (update _ _ _) _) as [z|] eqn:E1; [|discriminate].
  intros [= ->] Hn.
  pose proof (nth_error_nth _ _ 0 E1) as E2. rewrite nth_update in E2.
  destruct ((Z.to_nat (j - 1) =? Z.to_nat c)%nat
            && (Z.to_nat c <? length (nth (Z.to_nat r) h []))%nat); [congruence|].
  assert (Hlt : (Z.to_nat (j - 1) < length (nth (Z.to_nat r) h []))%nat).
  { rewrite <- (length_update _ (Z.to_nat c) 0). apply nth_error_Some. congruence. }
  destruct (nth_error (nth (Z.to_nat r) h []) (Z.to_nat (j - 1))) as [z|] eqn:E3.
  - apply (nth_error_nth _ _ 0) in E3. congruence.
  - apply nth_error_None in E3. lia.
Qed.

(** X6: taking clues away never makes a puzzle unsolvable: if every nonzero
    cell of [g'] holds the same value in [g], every valuation satisfying the
    clause list of [g] satisfies the clause list of [g']; this holds in
    particular when [g'] is [g] with one cell set to 0, as line 196 does. *)
Theorem fewer_clues_satisfiable :
  (forall g g', agrees g' g ->
     satisfiable (sudoku_res ++ clue_clauses g) ->
     satisfiable (sudoku_res ++ clue_clauses g')) /\
  (forall hard r c,
     satisfiable (sudoku_res ++ clue_clauses (int_grid hard)) ->
     satisfiable (sudoku_res ++ clue_clauses (int_grid (erase hard r c)))).
Proof.
  split.
  - intros g g' Ha [rho Hm]. exists rho. now apply (fewer_clues_models g g').
  - intros hard r c [rho Hm]. exists rho.
    apply (fewer_clues_models (int_grid hard)); [|exact Hm].
    intros i j n _ _. apply erase_cell.
Qed.

Lemma one_clue_satisfiable : satisfiable (sudoku_res ++ clue_clauses one_clue).
Proof.
  exists (asserted (model_of solved)). apply satisfies_models.
  - apply consistentb_spec. exact model_of_solved_consistent.
  - apply instance_no_zero. apply wf_gridb_spec. reflexivity.
  - apply satisfiesb_spec. rewrite sudoku_res_eq, <- app_assoc.
    exact model_of_solved_satisfies.
Qed.

Lemma fewer_clues_satisfiable_witness :
  satisfiable
    (sudoku_res
     ++ clue_clauses
          (int_grid
             (erase
                [[0; 2; 0; 0; 0; 0; 0; 0; 0];
                 [0; 0; 0; 0; 0; 0; 0; 0; 0];
                 [0; 0; 0; 0; 0; 0; 0; 0; 0];
                 [0; 0; 0; 0; 0; 0; 0; 0; 0];
                 [0; 0; 0; 0; 0; 0; 0; 0; 0];
                 [0; 0; 0; 0; 0; 0; 0; 0; 0];
                 [0; 0; 0; 0; 0; 0; 0; 0; 0];
                 [0; 0; 0; 0; 0; 0; 0; 0; 0];
                 [0; 0; 0; 0; 0; 0; 0; 0; 0]] 0 1))).
Proof.
  apply (proj2 fewer_clues_satisfiable). exact one_clue_satisfiable.
Defined.

(** *** [is_proper] on other answers, and its side effect *)

Lemma is_proper_run (solver : engine) (cs : list clause)
    (log : list (list clause)) (m : list Z) :
  solver cs = Ok (SolList m) ->
  is_proper solver (mkStore cs log)
  = (match solver (cs ++ [map Z.opp m]) with
     | Ok sol => Ok (negb (is_list sol))
     | Raise e => Raise e
     end,
     mkStore (cs ++ [map Z.opp m]) (log ++ [cs] ++ [cs ++ [map Z.opp m]])).
Proof.
  intros Hsol. unfold is_proper, bind, get_obj, set_obj, ask, ret. cbn [obj calls].
  rewrite Hsol. cbn [obj calls]. rewrite <- app_assoc.
  match goal with
  | |- context [match solver ?x with _ => _ end] => change x with (cs ++ [map Z.opp m])
  end.
  destruct (solver (cs ++ [map Z.opp m])) as [[m' | s] | e]; reflexivity.
Qed.

(** X7: when the first call of the engine does not answer a list,
    [is_proper] fails before it touches its caller's list: an exception of
    the engine passes through, and a string that is not empty, such as
    ["UNSAT"], makes the negation of its characters raise [TypeError]; so
    on an unsatisfiable list, with an engine that is right and does not
    answer the empty string, [is_proper] raises [TypeError] and never
    returns.  The empty string is the exception: the comprehension of line
    115 over it is the empty list, so [is_proper] appends the empty clause,
    asks again and returns by the second answer. *)
Theorem is_proper_needs_model (solver : engine) (cs : list clause)
    (log : list (list clause)) :
  (forall e, solver cs = Raise e ->
     is_proper solver (mkStore cs log) = (Raise e, mkStore cs (log ++ [cs]))) /\
  (forall a s, solver cs = Ok (SolStr (String a s)) ->
     is_proper solver (mkStore cs log) = (Raise TypeError, mkStore cs (log ++ [cs]))) /\
  (engine_right solver cs -> ~ satisfiable cs ->
     solver cs <> Ok (SolStr EmptyString) ->
     is_proper solver (mkStore cs log) = (Raise TypeError, mkStore cs (log ++ [cs]))) /\
  (solver cs = Ok (SolStr EmptyString) ->
     is_proper solver (mkStore cs log)
     = (match solver (cs ++ [[]]) with
        | Ok sol => Ok (negb (is_list sol))
        | Raise e => Raise e
        end,
        mkStore (cs ++ [[]]) (log ++ [cs] ++ [cs ++ [[]]]))).
Proof.
  assert (Hstr : forall a s, solver cs = Ok (SolStr (String a s)) ->
            is_proper solver (mkStore cs log)
            = (Raise TypeError, mkStore cs (log ++ [cs]))).
  { intros a s Hs. unfold is_proper, bind, get_obj, ask, raise. cbn [obj calls].
    now rewrite Hs. }
  split; [|split; [exact Hstr|split]].
  - intros e He. unfold is_proper, bind, get_obj, ask. cbn [obj calls]. now rewrite He.
  - unfold engine_right. intros Hr Hun Hne.
    destruct (solver cs) as [[m | [|a s]] | e] eqn:Hsol.
    + exfalso. apply Hun. now exists (asserted m).
    + exfalso. now apply Hne.
    + now apply (Hstr a s).
    + contradiction.
  - intros Hsol. unfold is_proper, bind, get_obj, set_obj, ask, ret. cbn [obj calls].
    rewrite Hsol. cbn [obj calls]. rewrite <- app_assoc.
    match goal with
    | |- context [match solver ?x with _ => _ end] => change x with (cs ++ [[]])
    end.
    destruct (solver (cs ++ [[]])) as [[m' | s] | e]; reflexivity.
Qed.

Lemma is_proper_needs_model_witness :
  is_proper toy_engine (mkStore [[1]; [-1]] [])
  = (Raise TypeError, mkStore [[1]; [-1]] ([] ++ [[[1]; [-1]]])).
Proof.
  assert (Hun : ~ satisfiable [[1]; [-1]]).
  { intros [rho Hm]. unfold models in Hm.
    inversion Hm as [|c1 l1 H1 H2]; subst.
    inversion H2 as [|c2 l2 H3 H4]; subst.
    unfold clause_true, lit_true in H1, H3. cbn in H1, H3.
    destruct (rho 1); discriminate. }
  apply (proj1 (proj2 (proj2 (is_proper_needs_model toy_engine [[1]; [-1]] [])))).
  - exact Hun.
  - exact Hun.
  - discriminate.
Defined.

Lemma blocking_clause_false (m : list Z) :
  consistent m -> clause_true (asserted m) (map Z.opp m) = false.
Proof.
  intros Hc. unfold clause_true.
  destruct (existsb (lit_true (asserted m)) (map Z.opp m)) eqn:E; [|reflexivity].
  apply existsb_exists in E as (l' & Hin & Ht).
  apply in_map_iff in Hin as (l & <- & Hl).
  assert (Ha : asserted m l = true).
  { unfold asserted. apply existsb_exists. exists l. split; [assumption | apply Z.eqb_refl]. }
  unfold lit_true in Ht.
  destruct (Z.ltb_spec 0 (- l)).
  - rewrite (Hc l Ha) in Ht. discriminate.
  - destruct (Z.ltb_spec (- l) 0); [|discriminate].
    rewrite Z.opp_involutive, Ha in Ht. discriminate.
Qed.

(** X8: the clause [is_proper] leaves in its caller's list rules out the
    assignment the first call found and nothing else is added: every
    valuation satisfying the list after the call satisfied it before, and
    the first answer, when it is consistent, no longer satisfies it. *)
Theorem is_proper_blocks_model (solver : engine) (cs : list clause)
    (log : list (list clause)) (m : list Z) :
  solver cs = Ok (SolList m) ->
  consistent m ->
  let after := obj (snd (is_proper solver (mkStore cs log))) in
  (forall rho, models rho after -> models rho cs) /\
  ~ models (asserted m) after /\
  (forall rho, models rho after -> exists l, In l m /\ lit_true rho l = false).
Proof.
  intros Hsol Hc after. subst after. rewrite (is_proper_run solver cs log m Hsol).
  cbn [snd obj]. split; [|split].
  - intros rho Hm. now apply models_app in Hm as [Hm _].
  - intros Hm. apply models_app in Hm as [_ Hm].
    apply Forall_cons_iff in Hm as [Hm _].
    rewrite (blocking_clause_false m Hc) in Hm. discriminate.
  - intros rho Hm. apply models_app in Hm as [_ Hm].
    apply Forall_cons_iff in Hm as [Hm _]. unfold clause_true in Hm.
    apply existsb_exists in Hm as (l' & Hin & Ht).
    apply in_map_iff in Hin as (l & <- & Hl). exists l. split; [assumption|].
    destruct (Z.eq_dec l 0) as [-> | Hne]; [reflexivity|].
    rewrite lit_true_opp in Ht by assumption. now apply negb_true_iff in Ht.
Qed.

Lemma is_proper_blocks_model_witness :
  ~ models (asserted [1]) (obj (snd (is_proper toy_engine (mkStore [[1]] [])))).
Proof.
  apply (is_proper_blocks_model toy_engine [[1]] [] [1] eq_refl).
  apply consistentb_spec. reflexivity.
Defined.

(** *** The shape of the base list *)

Lemma In_dedupe (cs : list clause) (c : clause) : In c (dedupe cs) <-> In c cs.
Proof.
  induction cs as [|c0 cs IH]; cbn; [reflexivity|].
  destruct (existsb (clause_eqb c0) cs) eqn:E; cbn; rewrite IH; [|reflexivity].
  split; [auto|]. intros [<- | H]; [|assumption].
  apply existsb_exists in E as (c1 & Hin & E). apply clause_eqb_eq in E. now subst.
Qed.

Lemma NoDup_dedupe (cs : list clause) : NoDup (dedupe cs).
Proof.
  induction cs as [|c0 cs IH]; cbn; [constructor|].
  destruct (existsb (clause_eqb c0) cs) eqn:E; [assumption|].
  constructor; [|assumption]. rewrite In_dedupe. intros Hin.
  assert (X : existsb (clause_eqb c0) cs = true); [|congruence].
  apply existsb_exists. exists c0. split; [assumption | now apply clause_eqb_eq].
Qed.

Lemma base_vars_within : vars_within 729 (cell_part ++ group_part) = true.
Proof. vm_cast_no_check (eq_refl true). Qed.

Lemma base_every_var : every_var_occurs 729 (cell_part ++ group_part) = true.
Proof. vm_cast_no_check (eq_refl true). Qed.

Lemma base_sizes : sizes_9_or_2 (cell_part ++ group_part) = true.
Proof. vm_cast_no_check (eq_refl true). Qed.

Lemma base_distinct : Z.of_nat (length (dedupe (cell_part ++ group_part))) = 10287.
Proof. vm_cast_no_check (eq_refl 10287). Qed.

(** X9: the base list speaks of exactly the variables 1..729 (every literal
    has its magnitude there and every variable occurs positively), every
    clause has nine literals or two, and the 11745 clauses are not all
    different: a pair of cells that share a row or column and a box gets its
    clauses twice, which leaves 10287 distinct clauses. *)
Theorem base_list_shape :
  (forall c l, In c sudoku_res -> In l c -> 1 <= Z.abs l <= 729) /\
  (forall x, 1 <= x <= 729 -> exists c, In c sudoku_res /\ In x c) /\
  (forall c, In c sudoku_res -> length c = 9%nat \/ length c = 2%nat) /\
  NoDup (dedupe sudoku_res) /\
  (forall c, In c (dedupe sudoku_res) <-> In c sudoku_res) /\
  Z.of_nat (length (dedupe sudoku_res)) = 10287 /\
  (count_occ (list_eq_dec Z.eq_dec) sudoku_res [- v 1 1 5; - v 1 2 5] = 2)%nat.
Proof.
  rewrite sudoku_res_eq. split; [|split; [|split; [|split; [|split; [|split]]]]].
  - intros c l Hc Hl. pose proof base_vars_within as H. unfold vars_within in H.
    rewrite forallb_forall in H. specialize (H c Hc).
    rewrite forallb_forall in H. specialize (H l Hl).
    apply andb_true_iff in H. lia.
  - intros x Hx. pose proof base_every_var as H. unfold every_var_occurs in H.
    rewrite forallb_forall in H. specialize (H x (proj2 (In_range 1 (729 + 1) x) ltac:(lia))).
    apply existsb_exists in H as (c & Hc & H). exists c. split; [assumption|].
    apply existsb_exists in H as (y & Hy & E). apply Z.eqb_eq in E. now subst.
  - intros c Hc. pose proof base_sizes as H. unfold sizes_9_or_2 in H.
    rewrite forallb_forall in H. specialize (H c Hc).
    apply orb_true_iff in H as [H | H]; apply Nat.eqb_eq in H; auto.
  - apply NoDup_dedupe.
  - intros c. apply In_dedupe.
  - exact base_distinct.
  - rewrite <- count_clause_occ. vm_compute. reflexivity.
Qed.

(** *** Counting clues *)

Lemma length_flat_map_combine {A B C : Type} (f : A -> B -> list C) (g : B -> nat)
    (xs : list B) :
  (forall a b, length (f a b) = g b) ->
  forall idx : list A, length idx = length xs ->
    length (flat_map (fun p => f (fst p) (snd p)) (combine idx xs))
    = list_sum (map g xs).
Proof.
  intros Hf. induction xs as [|x xs IH]; intros [|a idx] Hl; cbn in *;
    try reflexivity; try discriminate.
  rewrite length_app, Hf, IH; [reflexivity | lia].
Qed.

Lemma length_nonzero (h : list (list Z)) : length (nonzero h) = clue_count h.
Proof.
  unfold nonzero, clue_count, enumerate.
  apply (length_flat_map_combine
           (fun r row => flat_map (fun cx => if snd cx =? 0 then [] else [(r, fst cx)])
                           (combine (range 0 (Z.of_nat (length row))) row)) nzcount).
  - intros r row. unfold nzcount.
    apply (length_flat_map_combine
             (fun (c x : Z) => if x =? 0 then [] else [(r, c)])
             (fun x => if x =? 0 then 0%nat else 1%nat)).
    + intros c x. now destruct (x =? 0).
    + rewrite length_range. lia.
  - rewrite length_range. lia.
Qed.

Lemma In_nonzero (h : list (list Z)) (r c : Z) :
  In (r, c) (nonzero h) <->
  0 <= r /\ 0 <= c /\
  exists row x, nth_error h (Z.to_nat r) = Some row
                /\ nth_error row (Z.to_nat c) = Some x /\ x <> 0.
Proof.
  unfold nonzero. rewrite in_flat_map. split.
  - intros ([r' row] & Hr & H). cbn [fst snd] in H.
    apply in_flat_map in H as ([c' x] & Hc & H). cbn [fst snd] in H.
    destruct (Z.eqb_spec x 0); [contradiction|]. destruct H as [[= <- <-] | []].
    apply In_enumerate in Hr as [Hr0 Hr], Hc as [Hc0 Hc].
    split; [assumption|]. split; [assumption|]. now exists row, x.
  - intros (Hr0 & Hc0 & row & x & Hr & Hc & Hx).
    exists (r, row). split; [now apply In_enumerate|]. cbn [fst snd].
    apply in_flat_map. exists (c, x). split; [now apply In_enumerate|]. cbn [fst snd].
    destruct (Z.eqb_spec x 0); [contradiction | now left].
Qed.

Lemma list_sum_update {A : Type} (f : A -> nat) (xs : list A) (k : nat) (x y : A) :
  nth_error xs k = Some x ->
  (list_sum (map f (update xs k y)) + f x = list_sum (map f xs) + f y)%nat.
Proof.
  unfold list_sum.
  revert k. induction xs as [|a xs IH]; intros [|k] H; cbn in *; try discriminate.
  - injection H as ->. lia.
  - specialize (IH k H). lia.
Qed.

Lemma clue_count_erase (h : list (list Z)) (r c : Z) :
  In (r, c) (nonzero h) -> (clue_count (erase h r c) + 1 = clue_count h)%nat.
Proof.
  intros Hin. apply In_nonzero in Hin as (_ & _ & row & x & Hr & Hc & Hx).
  unfold clue_count, erase. rewrite (nth_error_nth _ _ [] Hr).
  pose proof (list_sum_update nzcount h (Z.to_nat r) row
                (update row (Z.to_nat c) 0) Hr) as H1.
  pose proof (list_sum_update (fun x => if x =? 0 then 0%nat else 1%nat) row
                (Z.to_nat c) x 0 Hc) as H2.
  fold (nzcount row) in H2. fold (nzcount (update row (Z.to_nat c) 0)) in H2.
  cbn in H2. destruct (Z.eqb_spec x 0); [contradiction|]. lia.
Qed.

Lemma Forall_update {A : Type} (P : A -> Prop) (xs : list A) (k : nat) (y : A) :
  Forall P xs -> P y -> Forall P (update xs k y).
Proof.
  intros H Hy. revert k. induction H as [|a xs Ha H IH]; intros [|k]; cbn;
    constructor; auto.
Qed.

Lemma update_overflow {A : Type} (xs : list A) (k : nat) (y : A) :
  (length xs <= k)%nat -> update xs k y = xs.
Proof.
  revert k. induction xs as [|a xs IH]; intros [|k] H; cbn in *;
    try reflexivity; try lia.
  rewrite IH; [reflexivity | lia].
Qed.

Lemma digits9_erase (h : list (list Z)) (r c : Z) : digits9 h -> digits9 (erase h r c).
Proof.
  intros [Hl Hr]. unfold erase.
  destruct (nth_error h (Z.to_nat r)) as [row|] eqn:E.
  - split; [now rewrite length_update|].
    apply Forall_update; [assumption|]. rewrite (nth_error_nth _ _ [] E).
    rewrite Forall_forall in Hr. destruct (Hr _ (nth_error_In _ _ E)) as [Hlr Hd].
    split; [now rewrite length_update|]. apply Forall_update; [assumption | lia].
  - apply nth_error_None in E. rewrite update_overflow by assumption. now split.
Qed.

Lemma digits9_wf (h : list (list Z)) : digits9 h -> wf_grid (int_grid h).
Proof.
  intros [Hl Hr]. unfold wf_grid, shape9, int_grid. rewrite Forall_forall in Hr.
  split; [split|].
  - now rewrite length_map.
  - apply Forall_map, Forall_forall. intros row Hrow. rewrite length_map.
    now apply Hr.
  - apply Forall_map, Forall_forall. intros row Hrow.
    apply Forall_map. destruct (Hr row Hrow) as [_ Hd].
    eapply Forall_impl; [|exact Hd]. intros x Hx. now exists x.
Qed.

Lemma clue_count_le_81 (h : list (list Z)) : digits9 h -> (clue_count h <= 81)%nat.
Proof.
  intros [Hl Hr]. unfold clue_count.
  assert (Hrow : forall row, (nzcount row <= length row)%nat).
  { intros row. unfold nzcount, list_sum.
    induction row as [|x row IH]; cbn; [lia|]. destruct (x =? 0); lia. }
  assert (H : (list_sum (map nzcount h) <= 9 * length h)%nat).
  { clear Hl. unfold list_sum. induction Hr as [|row h [Hlr _] _ IH]; cbn; [lia|].
    specialize (Hrow row). lia. }
  lia.
Qed.

Lemma index_In {A : Type} (xs : list A) (k : Z) (x : A) : index xs k = Ok x -> In x xs.
Proof.
  unfold index. destruct (k <? 0); [discriminate|].
  destruct (nth_error xs (Z.to_nat k)) eqn:E; [|discriminate].
  intros [= <-]. eapply nth_error_In, E.
Qed.

(** *** The clue-removal loop *)

(** X10: whatever the engine answers and whatever the random draws are, the
    [while] loop of lines 193-201 ends within as many iterations as [hard]
    has nonzero entries: each iteration that does not raise clears one of
    them. *)
Theorem removal_loop_terminates (solver : engine) (randint : nat -> Z -> Z -> Z)
    (fuel : nat) (st : lab) :
  (clue_count (hard st) <= fuel)%nat ->
  exists r st', removal_loop solver randint fuel st = Some (r, st') /\
    (r = Ok tt -> nonzero (hard st') = []).
Proof.
  revert st. induction fuel as [|fuel IH]; intros st Hle.
  - destruct (nonzero (hard st)) as [|p nz] eqn:E.
    + exists (Ok tt), st. cbn [removal_loop]. rewrite E. auto.
    + pose proof (length_nonzero (hard st)) as Hl. rewrite E in Hl. cbn in Hl. lia.
  - cbn [removal_loop]. destruct (nonzero (hard st)) as [|p nz] eqn:E.
    + exists (Ok tt), st. auto.
    + cbv zeta.
      destruct (index (p :: nz) _) as [rc | e] eqn:Ei.
      2:{ eexists _, _. split; [reflexivity | discriminate]. }
      assert (Hin : In (fst rc, snd rc) (nonzero (hard st))).
      { rewrite E. destruct rc. eapply index_In, Ei. }
      pose proof (clue_count_erase _ _ _ Hin) as Hc.
      unfold after_solve. destruct (solve_copy _ _ _ _) as [[[]|e] lg].
      * apply IH. cbn [hard]. lia.
      * eexists _, _. split; [reflexivity | discriminate].
Qed.

Lemma removal_loop_terminates_witness :
  exists r st',
    removal_loop (answering unsat) (fun _ a _ => a) 1
      (mkLab [[0; 7]; [0; 0]] 0 0 [] []) = Some (r, st') /\
    (r = Ok tt -> nonzero (hard st') = []).
Proof.
  apply (removal_loop_terminates (answering unsat) (fun _ a _ => a) 1
           (mkLab [[0; 7]; [0; 0]] 0 0 [] [])).
  cbn. lia.
Defined.

Lemma agrees_trans (a b c : grid) : agrees a b -> agrees b c -> agrees a c.
Proof.
  intros H1 H2 i j n Hi Hj E Hn. apply (H2 i j n Hi Hj); [|assumption].
  now apply (H1 i j n).
Qed.

Lemma valid_no_none (g : grid) : valid_sudoku g -> has_none g = false.
Proof.
  intros Hv. destruct (valid_sudoku_wf g Hv) as [_ Hd].
  unfold has_none. destruct (existsb _ g) eqn:E; [|reflexivity].
  apply existsb_exists in E as (row & Hrow & E).
  apply existsb_exists in E as (x & Hx & E).
  rewrite Forall_forall in Hd. specialize (Hd row Hrow).
  rewrite Forall_forall in Hd. destruct (Hd x Hx) as (n & -> & _). discriminate.
Qed.

Lemma solve_copy_ok (solver : engine) (start h : list (list Z)) (n : Z)
    (log : list (list clause)) :
  solves_below solver start -> digits9 h ->
  agrees (int_grid h) (int_grid start) ->
  - solve_time_len <= n < solve_time_len ->
  solve_copy solver h n log
  = (Ok tt, log ++ [sudoku_res ++ clue_clauses (int_grid h)]).
Proof.
  intros Hsol Hd Ha Hn. pose proof (digits9_wf h Hd) as Hwf.
  destruct (Hsol (int_grid h) Hwf Ha) as (m & Hm & Hc & Hs).
  destruct (solve_sat_grid solver n (int_grid h) log m Hwf Hn Hm Hc Hs)
    as (g' & E & Hv & _).
  unfold solve_copy. rewrite E. unfold copy_outcome. cbn [obj calls].
  now rewrite (valid_no_none g' Hv).
Qed.

Lemma removal_loop_runs (solver : engine) (randint : nat -> Z -> Z -> Z)
    (start : list (list Z)) :
  solves_below solver start -> randint_ok randint ->
  forall fuel st,
    digits9 (hard st) ->
    agrees (int_grid (hard st)) (int_grid start) ->
    (clue_count (hard st) <= fuel)%nat ->
    0 <= current_number st ->
    current_number st + Z.of_nat (clue_count (hard st)) <= 81 ->
    exists st' rs,
      removal_loop solver randint fuel st = Some (Ok tt, st') /\
      nonzero (hard st') = [] /\
      current_number st' = current_number st + Z.of_nat (clue_count (hard st)) /\
      draws st' = (draws st + clue_count (hard st))%nat /\
      runs st' = runs st ++ rs /\
      removal_chain (current_number st) (hard st) rs /\
      length rs = clue_count (hard st) /\
      Forall (fun nh => current_number st < fst nh /\
                        fst nh + Z.of_nat (clue_count (snd nh))
                        = current_number st + Z.of_nat (clue_count (hard st))) rs /\
      length (sent st') = (length (sent st) + clue_count (hard st))%nat.
Proof.
  intros Hsol Hrand. induction fuel as [|fuel IH]; intros st Hd Ha Hle Hn0 Hn81.
  - pose proof (length_nonzero (hard st)) as Hl.
    destruct (nonzero (hard st)) as [|p nz] eqn:E; [|cbn in Hl; lia].
    exists st, []. cbn [removal_loop]. rewrite E. cbn in Hl. rewrite <- Hl.
    rewrite app_nil_r, Z.add_0_r, !Nat.add_0_r. cbn. repeat split; auto.
  - pose proof (length_nonzero (hard st)) as Hl.
    cbn [removal_loop]. destruct (nonzero (hard st)) as [|p nz] eqn:E.
    + exists st, []. cbn in Hl. rewrite <- Hl.
      rewrite app_nil_r, Z.add_0_r, !Nat.add_0_r. cbn. repeat split; auto.
    + cbv zeta.
      pose proof (Hrand (draws st) 0 (Z.of_nat (length (p :: nz)) - 1)
                    ltac:(cbn [length]; lia)) as Hr.
      rewrite (index_ok (p :: nz) _ p) by lia.
      set (rc := nth _ (p :: nz) p).
      assert (Hin : In (fst rc, snd rc) (nonzero (hard st))).
      { rewrite E. replace (fst rc, snd rc) with rc by now destruct rc.
        apply nth_In. lia. }
      pose proof (clue_count_erase _ _ _ Hin) as Hc.
      set (h := erase (hard st) (fst rc) (snd rc)) in *.
      assert (Hah : agrees (int_grid h) (int_grid start)).
      { apply (agrees_trans _ (int_grid (hard st))); [|assumption].
        intros i j k _ _. apply erase_cell. }
      rewrite (solve_copy_ok solver start h (current_number st + 1) (sent st) Hsol
                 (digits9_erase _ _ _ Hd) Hah)
        by (unfold solve_time_len; lia).
      unfold after_solve.
      destruct (IH (mkLab h (current_number st + 1) (S (draws st))
                      (runs st ++ [(current_number st + 1, h)])
                      (sent st ++ [sudoku_res ++ clue_clauses (int_grid h)])))
        as (st' & rs & E' & Hz & Hn & Hdr & Hru & Hch & Hlen & Hall & Hse);
        cbn [hard current_number draws runs sent]; try lia.
      * apply digits9_erase, Hd.
      * exact Hah.
      * cbn [hard current_number draws runs sent] in *.
        exists st', ((current_number st + 1, h) :: rs).
        split; [exact E'|]. split; [exact Hz|]. split; [lia|]. split; [lia|].
        split; [now rewrite Hru, <- app_assoc|]. split.
        { cbn [removal_chain]. split; [reflexivity|]. split; [|exact Hch].
          exists (fst rc), (snd rc). now split. }
        split; [cbn [length]; lia|]. split.
        { constructor; [cbn [fst snd]; lia|].
          eapply Forall_impl; [|exact Hall]. intros nh H. cbv beta in *. lia. }
        rewrite Hse, length_app. cbn [length]. lia.
Qed.

Lemma agreesb_spec (g c : grid) : agreesb g c = true -> agrees g c.
Proof.
  unfold agreesb. rewrite forallb_forall. intros H i j n Hi Hj E Hn.
  specialize (H (i, j) (proj2 (In_cells81 (i, j)) (conj Hi Hj))).
  cbn [fst snd] in H. rewrite E in H.
  apply orb_true_iff in H as [H | H]; [apply Z.eqb_eq in H; contradiction|].
  now apply value_eqb_eq in H.
Qed.

Lemma fewer_clues_satisfies (g g' : grid) (m : list Z) :
  agrees g' g ->
  satisfies m (sudoku_res ++ clue_clauses g) ->
  satisfies m (sudoku_res ++ clue_clauses g').
Proof.
  unfold satisfies. rewrite !Forall_app. intros Ha [Hb Hc]. split; [exact Hb|].
  rewrite Forall_forall in *. intros c Hin. apply Hc.
  apply In_clue_clauses in Hin as (i & j & k & Hi & Hj & E & Hk & ->).
  apply In_clue_clauses. exists i, j, k. repeat split; try lia; try assumption.
  now apply Ha.
Qed.

Lemma trial_spec (solver : engine) (randint : nat -> Z -> Z -> Z)
    (fuel : nat) (start : list (list Z)) (d : nat) (log : list (list clause)) :
  digits9 start ->
  solves_below solver start ->
  randint_ok randint ->
  (clue_count start <= fuel)%nat ->
  exists st rs,
    trial solver randint fuel start d log = Some (Ok tt, st) /\
    nonzero (hard st) = [] /\
    current_number st = Z.of_nat (clue_count start) /\
    draws st = (d + clue_count start)%nat /\
    runs st = (0, start) :: rs /\
    removal_chain 0 start rs /\
    length (runs st) = S (clue_count start) /\
    Forall (fun nh => 0 <= fst nh <= 81 /\
                      fst nh + Z.of_nat (clue_count (snd nh))
                      = Z.of_nat (clue_count start)) (runs st) /\
    length (sent st) = (length log + S (clue_count start))%nat.
Proof.
  intros Hd Hsol Hrand Hfuel.
  pose proof (clue_count_le_81 start Hd) as H81.
  unfold trial.
  rewrite (solve_copy_ok solver start start 0 log Hsol Hd (agrees_refl _))
    by (unfold solve_time_len; lia).
  unfold after_solve.
  destruct (removal_loop_runs solver randint start Hsol Hrand fuel
              (mkLab start 0 d [(0, start)]
                 (log ++ [sudoku_res ++ clue_clauses (int_grid start)])))
    as (st & rs & E & Hz & Hn & Hdr & Hru & Hch & Hlen & Hall & Hse);
    cbn [hard current_number draws runs sent]; try lia; try assumption.
  { apply agrees_refl. }
  cbn [hard current_number draws runs sent] in *.
  exists st, rs. split; [exact E|]. split; [exact Hz|]. split; [lia|].
  split; [exact Hdr|]. split; [exact Hru|]. split; [exact Hch|].
  split; [rewrite Hru; cbn [length app]; lia|]. split.
  - rewrite Hru. constructor; [cbn [fst snd]; lia|].
    eapply Forall_impl; [|exact Hall]. intros nh [H1 H2]. cbv beta. lia.
  - rewrite Hse, length_app. cbn [length]. lia.
Qed.

(** X11: started from nine rows of nine digits with [k] clues, with random
    draws in the range asked for and an engine that solves the puzzle and
    every puzzle with fewer of its clues, one pass of the experiment raises
    nothing, calls [solve] exactly [k + 1] times, with the bucket numbers
    0, 1, ..., [k], each on the previous puzzle with one more clue set to 0,
    so that bucket [n] receives a puzzle with [k - n] clues; every bucket
    number is a valid index of the 82 buckets, and [hard] ends all zero. *)
Theorem trial_runs (solver : engine) (randint : nat -> Z -> Z -> Z)
    (fuel : nat) (start : list (list Z)) (d : nat) (log : list (list clause)) :
  digits9 start ->
  solves_below solver start ->
  randint_ok randint ->
  (clue_count start <= fuel)%nat ->
  exists st rs,
    trial solver randint fuel start d log = Some (Ok tt, st) /\
    nonzero (hard st) = [] /\
    current_number st = Z.of_nat (clue_count start) /\
    draws st = (d + clue_count start)%nat /\
    runs st = (0, start) :: rs /\
    removal_chain 0 start rs /\
    length (runs st) = S (clue_count start) /\
    Forall (fun nh => 0 <= fst nh <= 81 /\
                      fst nh + Z.of_nat (clue_count (snd nh))
                      = Z.of_nat (clue_count start)) (runs st) /\
    length (sent st) = (length log + S (clue_count start))%nat.
Proof.
  intros Hd Hsol Hrand Hfuel.
  exact (trial_spec solver randint fuel start d log Hd Hsol Hrand Hfuel).
Qed.

Lemma digits9b_spec (h : list (list Z)) : digits9b h = true -> digits9 h.
Proof.
  unfold digits9b, digits9. rewrite andb_true_iff, Nat.eqb_eq, forallb_forall.
  intros [Hl Hr]. split; [exact Hl|]. apply Forall_forall. intros row Hrow.
  specialize (Hr row Hrow). apply andb_true_iff in Hr as [Hlr Hd].
  apply Nat.eqb_eq in Hlr. split; [exact Hlr|].
  rewrite forallb_forall in Hd. apply Forall_forall. intros x Hx.
  specialize (Hd x Hx). apply andb_true_iff in Hd. lia.
Qed.

Lemma solved_solves_below (h : list (list Z)) :
  agrees (int_grid h) solved ->
  solves_below (answering (SolList (model_of solved))) h.
Proof.
  intros Hh g Hwf Ha. exists (model_of solved). split; [reflexivity|]. split.
  - apply consistentb_spec. exact model_of_solved_consistent.
  - apply (fewer_clues_satisfies solved g).
    + now apply (agrees_trans g (int_grid h)).
    + apply satisfiesb_spec. rewrite sudoku_res_eq, <- app_assoc.
      exact model_of_solved_satisfies_solved.
Qed.

Lemma trial_runs_witness :
  exists st rs,
    trial (answering (SolList (model_of solved))) (fun _ a _ => a) 1 lone2 0 []
    = Some (Ok tt, st) /\
    nonzero (hard st) = [] /\
    current_number st = Z.of_nat (clue_count lone2) /\
    draws st = (0 + clue_count lone2)%nat /\
    runs st = (0, lone2) :: rs /\
    removal_chain 0 lone2 rs /\
    length (runs st) = S (clue_count lone2) /\
    Forall (fun nh => 0 <= fst nh <= 81 /\
                      fst nh + Z.of_nat (clue_count (snd nh))
                      = Z.of_nat (clue_count lone2)) (runs st) /\
    length (sent st) = (length (@nil (list clause)) + S (clue_count lone2))%nat.
Proof.
  apply (trial_runs (answering (SolList (model_of solved))) (fun _ a _ => a) 1
           lone2 0 []).
  - apply digits9b_spec. reflexivity.
  - apply solved_solves_below. apply agreesb_spec. vm_compute. reflexivity.
  - intros k a b H. lia.
  - vm_compute. lia.
Defined.

(** *** The buckets of the statistics *)

Lemma nth_error_collect (T : Type) (solve_times : list T) (j : nat) (current : list T)
    (k : nat) :
  nth_error (collect T solve_times j current) k
  = if (k <? length current)%nat then nth_error current k
    else nth_error solve_times (j + 82 * (k - length current)).
Proof.
  functional induction (collect T solve_times j current) as [j current Hj IH | j current Hj].
  - apply Nat.ltb_lt in Hj. rewrite IH. unfold append_item.
    destruct (nth_error solve_times j) as [t|] eqn:Et.
    2:{ apply nth_error_None in Et. lia. }
    rewrite length_app. cbn [length].
    destruct (Nat.ltb_spec k (length current)) as [Hk | Hk].
    + destruct (Nat.ltb_spec k (length current + 1)); [|lia].
      now apply nth_error_app1.
    + destruct (Nat.ltb_spec k (length current + 1)) as [Hk1 | Hk1].
      * assert (k = length current) by lia. subst k.
        rewrite nth_error_app2, Nat.sub_diag by lia.
        replace (j + 82 * 0)%nat with j by lia. symmetry. exact Et.
      * f_equal. lia.
  - apply Nat.ltb_ge in Hj.
    destruct (Nat.ltb_spec k (length current)) as [Hk | Hk]; [reflexivity|].
    rewrite (proj2 (nth_error_None current k) Hk). symmetry.
    apply nth_error_None. lia.
Qed.

Lemma nth_error_concat_82 (T : Type) (trials : list (list T)) (i k : nat) :
  Forall (fun t => length t = 82%nat) trials -> (i < 82)%nat ->
  nth_error (concat trials) (i + 82 * k)
  = match nth_error trials k with
    | Some t => nth_error t i
    | None => None
    end.
Proof.
  intros Hall Hi. revert k. induction Hall as [|t trials Ht _ IH]; intros k.
  - cbn [concat]. rewrite !nth_error_nil. reflexivity.
  - cbn [concat]. destruct k as [|k]; cbn [nth_error].
    + replace (i + 82 * 0)%nat with i by lia. apply nth_error_app1. lia.
    + rewrite nth_error_app2 by lia. rewrite <- IH. f_equal. lia.
Qed.

Lemma collect_regular (T : Type) (trials : list (list T)) (i : nat) (d : T) :
  Forall (fun t => length t = 82%nat) trials -> (i < 82)%nat ->
  collect T (concat trials) i [] = map (fun t => nth i t d) trials.
Proof.
  intros Hall Hi. apply nth_error_ext. intros k.
  rewrite nth_error_collect. cbn [length Nat.ltb Nat.leb]. rewrite Nat.sub_0_r.
  rewrite (nth_error_concat_82 T trials i k Hall Hi), nth_error_map.
  destruct (nth_error trials k) as [t|] eqn:Et; [|reflexivity]. cbn.
  apply nth_error_nth'. rewrite Forall_forall in Hall.
  rewrite (Hall t (nth_error_In _ _ Et)). exact Hi.
Qed.

(** X12: the loop of lines 211-213 fills bucket [i] with the timings at the
    indices [i], [i + 82], [i + 164], ... of [solve_times] and nothing else;
    so when every pass of the experiment has recorded exactly 82 timings,
    bucket [i] holds the [i]-th timing of each pass, in order. *)
Theorem bucket_stride (T : Type) (solve_times : list T) (i : nat) :
  (forall k, nth_error (collect T solve_times i []) k
             = nth_error solve_times (i + 82 * k)) /\
  (forall (trials : list (list T)) (d : T),
     solve_times = concat trials ->
     Forall (fun t => length t = 82%nat) trials -> (i < 82)%nat ->
     collect T solve_times i [] = map (fun t => nth i t d) trials).
Proof.
  split.
  - intros k. rewrite nth_error_collect. cbn [length Nat.ltb Nat.leb].
    now rewrite Nat.sub_0_r.
  - intros trials d -> Hall Hi. now apply collect_regular.
Qed.

Lemma bucket_stride_witness :
  collect Z (concat [range 0 82; range 100 182]) 5 [] = [5; 105].
Proof.
  apply (proj2 (bucket_stride Z (concat [range 0 82; range 100 182]) 5)
           [range 0 82; range 100 182] 0 eq_refl).
  - repeat constructor.
  - lia.
Defined.

Lemma collect_chunk (T : Type) (solve_times : list T) (i : nat) :
  (i < 82)%nat ->
  collect T solve_times i []
  = opt_list (nth_error solve_times i) ++ collect T (skipn 82 solve_times) i [].
Proof.
  intros Hi. apply nth_error_ext. intros k.
  rewrite nth_error_collect. cbn [length Nat.ltb Nat.leb]. rewrite Nat.sub_0_r.
  destruct (nth_error solve_times i) as [t|] eqn:Et; cbn [opt_list app].
  - destruct k as [|k]; cbn [nth_error].
    + replace (i + 82 * 0)%nat with i by lia. exact Et.
    + rewrite nth_error_collect. cbn [length Nat.ltb Nat.leb]. rewrite Nat.sub_0_r.
      rewrite nth_error_skipn. f_equal. lia.
  - rewrite nth_error_collect. cbn [length Nat.ltb Nat.leb]. rewrite Nat.sub_0_r.
    rewrite nth_error_skipn. apply nth_error_None in Et.
    rewrite (proj2 (nth_error_None solve_times (i + 82 * k)) ltac:(lia)).
    symmetry. apply nth_error_None. lia.
Qed.

Lemma firstn_S_nth (T : Type) (l : list T) (n : nat) :
  firstn (S n) l = firstn n l ++ opt_list (nth_error l n).
Proof.
  revert n. induction l as [|x l IH]; intros [|n]; cbn [firstn nth_error opt_list app];
    try reflexivity.
  now rewrite <- IH.
Qed.

Lemma concat_heads (T : Type) (l : list T) (n : nat) :
  concat (map (fun i => opt_list (nth_error l i)) (seq 0 n)) = firstn n l.
Proof.
  induction n as [|n IH]; [reflexivity|].
  rewrite seq_S, map_app, concat_app, IH, firstn_S_nth. cbn. now rewrite app_nil_r.
Qed.

Lemma Permutation_concat_split {A B : Type} (a b : A -> list B) (l : list A) :
  Permutation (concat (map (fun i => a i ++ b i) l))
    (concat (map a l) ++ concat (map b l)).
Proof.
  induction l as [|x l IH]; cbn; [constructor|].
  rewrite IH, <- !app_assoc. apply Permutation_app_head, Permutation_app_swap_app.
Qed.

(** X13: the 82 buckets partition the timings: every entry of [solve_times]
    lands in exactly one bucket, whatever the length of the list is. *)
Theorem buckets_partition (T : Type) (solve_times : list T) :
  length (bucket_lists solve_times) = 82%nat /\
  Permutation (concat (bucket_lists solve_times)) solve_times.
Proof.
  split; [unfold bucket_lists; now rewrite length_map, length_seq|].
  remember (length solve_times) as n eqn:Hn. revert solve_times Hn.
  induction n as [n IH] using lt_wf_ind. intros ts Hn.
  destruct ts as [|t ts].
  - unfold bucket_lists. clear.
    assert (E : forall l, concat (map (fun i => collect T [] i []) l) = []).
    { induction l as [|i l IHl]; [reflexivity|]. cbn [map concat].
      rewrite IHl, collect_equation. reflexivity. }
    rewrite E. constructor.
  - set (l := t :: ts) in *.
    assert (E : bucket_lists l
                = map (fun i => opt_list (nth_error l i) ++ collect T (skipn 82 l) i [])
                    (seq 0 82)).
    { unfold bucket_lists. apply map_ext_in. intros i Hi. apply in_seq in Hi.
      apply collect_chunk. lia. }
    rewrite E, Permutation_concat_split, concat_heads.
    apply Permutation_trans with (firstn 82 l ++ skipn 82 l);
      [|rewrite firstn_skipn; apply Permutation_refl].
    apply Permutation_app_head.
    apply (IH (length (skipn 82 l))); [|reflexivity].
    rewrite length_skipn. subst n l. cbn [length]. lia.
Qed.

(** *** Proper puzzles *)

Lemma v_onto (n : Z) :
  1 <= n <= 729 ->
  exists i j d, 1 <= i <= 9 /\ 1 <= j <= 9 /\ 1 <= d <= 9 /\ v i j d = n.
Proof.
  intros Hn. unfold v.
  exists ((n - 1) / 81 + 1), ((n - 1) mod 81 / 9 + 1), ((n - 1) mod 9 + 1).
  pose proof (Z.div_mod (n - 1) 81 ltac:(lia)).
  pose proof (Z.mod_pos_bound (n - 1) 81 ltac:(lia)).
  pose proof (Z.div_mod ((n - 1) mod 81) 9 ltac:(lia)).
  pose proof (Z.mod_pos_bound ((n - 1) mod 81) 9 ltac:(lia)).
  pose proof (Z.mod_pos_bound (n - 1) 9 ltac:(lia)).
  assert (((n - 1) mod 81) mod 9 = (n - 1) mod 9).
  { rewrite <- (Z.mod_mod_divide (n - 1) 81 9) at 1; [reflexivity|].
    exists 9. reflexivity. }
  lia.
Qed.

Lemma asserted_In (m : list Z) (l : Z) : asserted m l = true <-> In l m.
Proof.
  unfold asserted. rewrite existsb_exists. split.
  - intros (x & Hx & E). apply Z.eqb_eq in E. now subst.
  - intros H. exists l. split; [assumption | apply Z.eqb_refl].
Qed.

Lemma models_pick (g : grid) (rho : valuation) :
  wf_grid g -> models rho (sudoku_res ++ clue_clauses g) ->
  represents rho (pick rho).
Proof.
  intros Hwf Hm. apply models_app in Hm as [Hb _]. apply pick_represents.
  rewrite sudoku_res_eq in Hb. apply models_app in Hb as [Hb1 _]. exact Hb1.
Qed.

Lemma only_model_unique (g : grid) (m : list Z) :
  wf_grid g -> consistent m -> satisfies m (sudoku_res ++ clue_clauses g) ->
  (forall l, In l m -> 1 <= Z.abs l <= 729) ->
  (only_model m (sudoku_res ++ clue_clauses g) <->
   forall c c', valid_sudoku c -> agrees g c -> valid_sudoku c' -> agrees g c' ->
                c = c').
Proof.
  intros Hwf Hc Hs Hvars.
  pose proof (satisfies_models _ _ Hc (instance_no_zero _ Hwf) Hs) as Hmm.
  pose proof (models_pick g _ Hwf Hmm) as Hrm.
  split.
  - intros Ho.
    assert (Hcell : forall c, valid_sudoku c -> agrees g c ->
              forall i j, 1 <= i <= 9 -> 1 <= j <= 9 ->
                cell c i j = Int (pick (asserted m) i j)).
    { intros c Hv Ha i j Hi Hj.
      destruct (decode_model g m i j Hwf Hc Hs Hi Hj) as (_ & Hp & Hiff).
      pose proof (proj2 (Hiff _ Hp) eq_refl) as Hass.
      pose proof (Ho _ (completion_models g c Hwf Hv Ha) _ (proj1 (asserted_In _ _) Hass))
        as Ht.
      rewrite lit_true_pos in Ht by (apply v_pos; lia).
      destruct (valid_sudoku_digit c i j Hv Hi Hj) as (d & E & Hd).
      pose proof Hv as Hv'. apply valid_sudoku_fun in Hv' as (_ & Hint & _).
      apply (rho_of_represents c Hint i j _ Hi Hj Hp) in Ht.
      rewrite E in *. cbn [num] in Ht. now subst. }
    intros c c' Hv Ha Hv' Ha'. apply grid_ext; [apply Hv | apply Hv' |].
    intros i j Hi Hj. now rewrite (Hcell c Hv Ha), (Hcell c' Hv' Ha').
  - intros Hu rho Hm l Hl.
    pose proof (models_pick g _ Hwf Hm) as Hr.
    destruct (models_completion g rho Hwf Hm) as [Hv Ha].
    destruct (models_completion g _ Hwf Hmm) as [Hv' Ha'].
    pose proof (Hu _ _ Hv Ha Hv' Ha') as E.
    assert (Hp : forall i j, 1 <= i <= 9 -> 1 <= j <= 9 ->
                   pick rho i j = pick (asserted m) i j).
    { intros i j Hi Hj.
      pose proof (cell_grid_of (pick rho) i j Hi Hj) as E1.
      pose proof (cell_grid_of (pick (asserted m)) i j Hi Hj) as E2.
      rewrite E in E1. congruence. }
    pose proof (Hvars l Hl) as Hrange.
    apply asserted_In in Hl.
    destruct (Z.ltb_spec 0 l) as [Hpos | Hneg].
    + destruct (v_onto l ltac:(lia)) as (i & j & d & Hi & Hj & Hd & <-).
      rewrite lit_true_pos by assumption.
      apply Hr; try assumption. rewrite Hp by assumption. now apply Hrm.
    + destruct (v_onto (- l) ltac:(lia)) as (i & j & d & Hi & Hj & Hd & E').
      replace l with (- v i j d) in * by lia.
      rewrite lit_true_neg by (apply v_pos; lia). apply negb_true_iff.
      pose proof (Hc _ Hl) as Hf. rewrite Z.opp_involutive in Hf.
      destruct (rho (v i j d)) eqn:Er; [|reflexivity].
      apply Hr in Er; try assumption. rewrite Hp in Er by assumption.
      apply Hrm in Er; try assumption. congruence.
Qed.

(** X14: run on the clause list of a 9x9 puzzle of digits 0..9, with an
    engine whose two answers are right and whose first answer is a
    satisfying assignment over the variables 1..729, [is_proper] returns
    [True] exactly when the puzzle has only one valid completion. *)
Theorem is_proper_unique_solution (solver : engine) (g : grid)
    (log : list (list clause)) (m : list Z) :
  wf_grid g ->
  solver (sudoku_res ++ clue_clauses g) = Ok (SolList m) ->
  consistent m ->
  satisfies m (sudoku_res ++ clue_clauses g) ->
  (forall l, In l m -> 1 <= Z.abs l <= 729) ->
  engine_right solver ((sudoku_res ++ clue_clauses g) ++ [map Z.opp m]) ->
  (fst (is_proper solver (mkStore (sudoku_res ++ clue_clauses g) log)) = Ok true <->
   forall c c', valid_sudoku c -> agrees g c -> valid_sudoku c' -> agrees g c' ->
                c = c').
Proof.
  intros Hwf Hsol Hc Hs Hvars Hright.
  rewrite <- (only_model_unique g m Hwf Hc Hs Hvars).
  assert (H0 : ~ In 0 m). { intros H. specialize (Hvars 0 H). cbn in Hvars. lia. }
  rewrite <- (blocked_unsat_iff m _ H0).
  rewrite (is_proper_run solver _ log m Hsol). cbn [fst].
  unfold engine_right in Hright.
  destruct (solver ((sudoku_res ++ clue_clauses g) ++ [map Z.opp m]))
    as [[m' | s] | e]; cbn [is_list negb].
  - split; [discriminate|]. intros Hun. exfalso. apply Hun. now exists (asserted m').
  - split; [intros _; exact Hright | reflexivity].
  - contradiction.
Qed.

Lemma model_of_vars (c : grid) (l : Z) : In l (model_of c) -> 1 <= Z.abs l <= 729.
Proof.
  unfold model_of. intros H. apply in_map_iff in H as (x & <- & Hx).
  apply In_range in Hx. destruct (rho_of c x); lia.
Qed.

Lemma length_instance_solved :
  Z.of_nat (length (sudoku_res ++ clue_clauses solved)) = 11826.
Proof.
  rewrite length_app, Nat2Z.inj_add, length_sudoku_res. vm_compute. reflexivity.
Qed.

Lemma is_proper_unique_solution_witness :
  fst (is_proper solved_engine (mkStore (sudoku_res ++ clue_clauses solved) []))
  = Ok true <->
  forall c c', valid_sudoku c -> agrees solved c -> valid_sudoku c' -> agrees solved c' ->
               c = c'.
Proof.
  assert (Hwf : wf_grid solved) by exact (valid_sudoku_wf solved solved_valid).
  assert (Hc : consistent (model_of solved))
    by (apply consistentb_spec; exact model_of_solved_consistent).
  assert (Hs : satisfies (model_of solved) (sudoku_res ++ clue_clauses solved)).
  { apply satisfiesb_spec. rewrite sudoku_res_eq, <- app_assoc.
    exact model_of_solved_satisfies_solved. }
  assert (E1 : solved_engine (sudoku_res ++ clue_clauses solved)
               = Ok (SolList (model_of solved))).
  { unfold solved_engine. now rewrite length_instance_solved. }
  assert (Hr : engine_right solved_engine
                 ((sudoku_res ++ clue_clauses solved) ++ [map Z.opp (model_of solved)])).
  { unfold engine_right, solved_engine.
    rewrite length_app, Nat2Z.inj_add, length_instance_solved. cbn [length Z.of_nat].
    change (11826 + Z.pos (Pos.of_succ_nat 0) =? 11826) with false. cbv iota.
    apply blocked_unsat_iff.
    - intros H. apply model_of_vars in H. cbn in H. lia.
    - apply (only_model_unique solved _ Hwf Hc Hs (model_of_vars solved)).
      intros c c' Hv Ha Hv' Ha'.
      rewrite (complete_unique solved c solved_valid Hv Ha).
      now rewrite (complete_unique solved c' solved_valid Hv' Ha'). }
  exact (is_proper_unique_solution solved_engine solved [] (model_of solved)
           Hwf E1 Hc Hs (model_of_vars solved) Hr).
Defined.

(** *** The whole experiment *)

Lemma chain_numbers (rs : list (Z * list (list Z))) (n : Z) (h : list (list Z)) :
  removal_chain n h rs ->
  map fst rs = range (n + 1) (n + 1 + Z.of_nat (length rs)).
Proof.
  revert n h. induction rs as [|[n' h'] rs IH]; intros n h Hch.
  - cbn. now rewrite range_nil by lia.
  - destruct Hch as (-> & _ & Hch). cbn [map fst length].
    rewrite (range_cons (n + 1)) by lia. f_equal.
    rewrite (IH _ _ Hch). f_equal. lia.
Qed.

Lemma list_sum_const {A : Type} (f : A -> nat) (c : nat) (l : list A) :
  Forall (fun x => f x = c) l -> list_sum (map f l) = (c * length l)%nat.
Proof.
  unfold list_sum. induction 1 as [|x l Hx _ IH]; cbn; [lia|]. rewrite IH, Hx. lia.
Qed.

Lemma nzcount_full (row : list Z) :
  Forall (fun x => x <> 0) row -> nzcount row = length row.
Proof.
  unfold nzcount, list_sum. induction 1 as [|x row Hx _ IH]; cbn; [reflexivity|].
  destruct (Z.eqb_spec x 0); [contradiction|]. now rewrite IH.
Qed.

Lemma full_clue_count (h : list (list Z)) :
  digits9 h -> valid_sudoku (int_grid h) -> clue_count h = 81%nat.
Proof.
  intros [Hl Hr] Hv. unfold clue_count.
  rewrite (list_sum_const nzcount 9 h); [lia|].
  rewrite Forall_forall in Hr. apply Forall_forall. intros row Hrow.
  destruct (Hr row Hrow) as [Hlr _]. rewrite nzcount_full; [assumption|].
  apply Forall_forall. intros x Hx.
  destruct (In_nth _ _ [] Hrow) as (a & Ha & Ea).
  destruct (In_nth _ _ 0 Hx) as (b & Hb & Eb).
  destruct (valid_sudoku_digit (int_grid h) (Z.of_nat a + 1) (Z.of_nat b + 1) Hv
              ltac:(lia) ltac:(lia)) as (d & E & Hd).
  rewrite cell_int_grid in E.
  replace (Z.to_nat (Z.of_nat a + 1 - 1)) with a in E by lia.
  replace (Z.to_nat (Z.of_nat b + 1 - 1)) with b in E by lia.
  rewrite Ea in E. rewrite (nth_error_nth' row 0 Hb), Eb in E.
  injection E as ->. lia.
Qed.

Lemma experiment_loop_spec (solver : engine) (randint : nat -> Z -> Z -> Z)
    (fuel : nat) (start : list (list Z)) :
  digits9 start -> solves_below solver start -> randint_ok randint ->
  (clue_count start <= fuel)%nat ->
  forall its d tags log,
  exists d' log',
    experiment_loop solver randint fuel start its (d, tags, log)
    = Some (Ok (d',
                tags ++ concat (repeat (range 0 (Z.of_nat (clue_count start) + 1))
                                  (length its)),
                log')) /\
    length log' = (length log + length its * S (clue_count start))%nat.
Proof.
  intros Hd Hsol Hrand Hfuel. induction its as [|it its IH]; intros d tags log.
  - exists d, log. cbn. rewrite app_nil_r. split; [reflexivity | lia].
  - cbn [experiment_loop fst snd].
    destruct (trial_spec solver randint fuel start d log Hd Hsol Hrand Hfuel)
      as (st & rs & E & _ & _ & _ & Hru & Hch & Hlen & _ & Hse).
    rewrite E. unfold after_trial.
    destruct (IH (draws st) (tags ++ map fst (runs st)) (sent st))
      as (d' & log' & E' & Hl').
    exists d', log'. rewrite E'. split.
    + do 3 f_equal. rewrite <- app_assoc. f_equal. cbn [length repeat concat].
      f_equal. rewrite Hru. cbn [map fst]. rewrite (chain_numbers rs 0 start Hch).
      rewrite Hru in Hlen. cbn [length] in Hlen.
      replace (0 + 1 + Z.of_nat (length rs)) with (Z.of_nat (clue_count start) + 1)
        by lia.
      now rewrite (range_cons 0 (Z.of_nat (clue_count start) + 1)) by lia.
    + rewrite Hl', Hse. cbn [length]. rewrite Nat.mul_succ_l. lia.
Qed.

(** X15: started from a completed valid grid, as line 146 leaves [first],
    with random draws in the range asked for and an engine that solves every
    puzzle made of some of its digits, the 1000 passes of the experiment
    raise nothing and each calls [solve] 82 times, with the bucket numbers
    0..81 in order; so the stride of 82 of lines 208-213 puts into bucket
    [i] exactly the 1000 calls whose bucket number is [i]. *)
Theorem experiment_buckets (solver : engine) (randint : nat -> Z -> Z -> Z)
    (fuel : nat) (start : list (list Z)) (d : nat) (log : list (list clause)) :
  digits9 start ->
  valid_sudoku (int_grid start) ->
  solves_below solver start ->
  randint_ok randint ->
  (81 <= fuel)%nat ->
  exists d' tags log',
    experiment solver randint fuel start d log = Some (Ok (d', tags, log')) /\
    tags = concat (repeat (range 0 82) 1000) /\
    (forall i, (i < 82)%nat -> collect Z tags i [] = repeat (Z.of_nat i) 1000) /\
    Z.of_nat (length log') = Z.of_nat (length log) + 82000.
Proof.
  intros Hd Hv Hsol Hrand Hfuel.
  pose proof (full_clue_count start Hd Hv) as Hk.
  destruct (experiment_loop_spec solver randint fuel start Hd Hsol Hrand
              ltac:(lia) (range 0 iteration_count) d [] log) as (d' & log' & E & Hl).
  rewrite Hk in E, Hl. rewrite length_range in E, Hl.
  change (Z.to_nat (iteration_count - 0)) with 1000%nat in E, Hl.
  change (Z.of_nat 81 + 1) with 82 in E. cbn [app] in E.
  exists d', (concat (repeat (range 0 82) 1000)), log'.
  split; [exact E|]. split; [reflexivity|]. split; [|lia].
  intros i Hi. rewrite (collect_regular Z _ i 0); [| |exact Hi].
  - rewrite map_repeat. f_equal.
    apply nth_error_nth. rewrite nth_error_range by lia. f_equal.
  - apply Forall_forall. intros t Ht. apply repeat_spec in Ht. subst t.
    now rewrite length_range.
Qed.

Lemma solved_rows_below :
  solves_below (answering (SolList (model_of solved))) solved_rows.
Proof. apply solved_solves_below. apply agrees_refl. Qed.

Lemma experiment_buckets_witness :
  exists d' tags log',
    experiment (answering (SolList (model_of solved))) (fun _ a _ => a) 81
      solved_rows 0 [] = Some (Ok (d', tags, log')) /\
    tags = concat (repeat (range 0 82) 1000) /\
    (forall i, (i < 82)%nat -> collect Z tags i [] = repeat (Z.of_nat i) 1000) /\
    Z.of_nat (length log') = Z.of_nat (length (@nil (list clause))) + 82000.
Proof.
  apply (experiment_buckets (answering (SolList (model_of solved)))
           (fun _ a _ => a) 81 solved_rows 0 []).
  - apply digits9b_spec. reflexivity.
  - exact solved_valid.
  - exact solved_rows_below.
  - intros k a b H. lia.
  - lia.
Defined.

(** *** [solve] with a right engine *)

Lemma decode_models (g : grid) (m : list Z) (i j : Z) :
  wf_grid g -> models (asserted m) (sudoku_res ++ clue_clauses g) ->
  1 <= i <= 9 -> 1 <= j <= 9 ->
  read_cell (SolList m) i j = Ok (Int (pick (asserted m) i j)).
Proof.
  intros Hwf Hm Hi Hj.
  pose proof (models_pick g _ Hwf Hm) as Hr.
  apply models_app in Hm as [Hb _].
  pose proof (proj1 (models_sudoku_fun _ _ Hr) Hb) as [Hf _].
  pose proof (Hf i j Hi Hj) as Hp.
  unfold read_cell. rewrite read_cell_from_list. unfold pick in *.
  destruct (find _ _); [reflexivity | lia].
Qed.

Lemma solve_models_grid (solver : engine) (n : Z) (g : grid)
    (log : list (list clause)) (m : list Z) :
  wf_grid g ->
  - solve_time_len <= n < solve_time_len ->
  solver (sudoku_res ++ clue_clauses g) = Ok (SolList m) ->
  models (asserted m) (sudoku_res ++ clue_clauses g) ->
  exists g',
    solve solver n (mkStore g log)
    = (Ok tt, mkStore g' (log ++ [sudoku_res ++ clue_clauses g])) /\
    valid_sudoku g' /\ agrees g g'.
Proof.
  intros Hwf Hn Hsol Hm.
  pose proof (solve_unfold solver n g log (proj1 Hwf)) as Hu. cbv zeta in Hu.
  rewrite Hsol in Hu.
  destruct (Z.leb_spec (- solve_time_len) n); [|lia].
  destruct (Z.ltb_spec n solve_time_len); [|lia]. cbn [andb] in Hu.
  destruct (write_loops_spec (read_cell (SolList m))
              (fun i j => Int (pick (asserted m) i j)) g
              (log ++ [sudoku_res ++ clue_clauses g]) (proj1 Hwf))
    as (g' & E & Hs' & Hcell).
  { intros i j Hi Hj. apply (decode_models g m i j Hwf Hm Hi Hj). }
  destruct (models_completion g _ Hwf Hm) as [Hv Ha].
  exists g'. split; [rewrite Hu; exact E|]. split.
  - apply (valid_sudoku_cells (grid_of (pick (asserted m)))); [assumption| |assumption].
    intros i j Hi Hj. rewrite Hcell, cell_grid_of by assumption. reflexivity.
  - intros i j k Hi Hj Hk Hk0. rewrite Hcell by assumption.
    rewrite <- (cell_grid_of (pick (asserted m)) i j) by assumption.
    now apply Ha.
Qed.

(** X16: with an engine whose answer for the puzzle is right, [solve]
    succeeds exactly on the solvable puzzles: if the 9x9 grid of digits 0..9
    has a valid completion, [solve] returns normally and leaves one of its
    valid completions in the grid; if it has none, [solve] raises
    [TypeError] and leaves the grid as it was. *)
Theorem solve_iff_solvable (solver : engine) (n : Z) (g : grid)
    (log : list (list clause)) :
  wf_grid g ->
  - solve_time_len <= n < solve_time_len ->
  engine_right solver (sudoku_res ++ clue_clauses g) ->
  (has_completion g ->
     exists g',
       solve solver n (mkStore g log)
       = (Ok tt, mkStore g' (log ++ [sudoku_res ++ clue_clauses g])) /\
       valid_sudoku g' /\ agrees g g') /\
  (~ has_completion g ->
     solve solver n (mkStore g log)
     = (Raise TypeError, mkStore g (log ++ [sudoku_res ++ clue_clauses g]))).
Proof.
  intros Hwf Hn Hright. unfold engine_right in Hright.
  destruct (solver (sudoku_res ++ clue_clauses g)) as [[m | s] | e] eqn:Hsol;
    [| |contradiction].
  - split.
    + intros _. now apply (solve_models_grid solver n g log m).
    + intros Hno. exfalso. apply Hno.
      exists (grid_of (pick (asserted m))). now apply models_completion.
  - split.
    + intros (c & Hv & Ha). exfalso. apply Hright.
      exists (rho_of c). now apply completion_models.
    + intros _.
      pose proof (solve_unfold solver n g log (proj1 Hwf)) as Hu. cbv zeta in Hu.
      rewrite Hsol in Hu.
      destruct (Z.leb_spec (- solve_time_len) n); [|lia].
      destruct (Z.ltb_spec n solve_time_len); [|lia]. cbn [andb] in Hu.
      rewrite Hu. apply write_loops_str.
Qed.

Lemma solve_iff_solvable_witness :
  solve (answering unsat) 0 (mkStore conflict [])
  = (Raise TypeError, mkStore conflict ([] ++ [sudoku_res ++ clue_clauses conflict])).
Proof.
  assert (Hwf : wf_grid conflict) by (apply wf_gridb_spec; reflexivity).
  assert (Hn : - solve_time_len <= 0 < solve_time_len) by (unfold solve_time_len; lia).
  assert (Hun : ~ satisfiable (sudoku_res ++ clue_clauses conflict))
    by exact conflict_unsatisfiable.
  apply (proj2 (solve_iff_solvable (answering unsat) 0 conflict [] Hwf Hn Hun)).
  intros (c & Hv & Ha). apply Hun. exists (rho_of c). now apply completion_models.
Defined.
